(** * The sharded storage packer (helper/storagepacker/storagepacker_v2.go)

    A shallow embedding of [StoragePackerV2] and of the properties its
    specification states about it.

    The packer is modelled sequentially: every function body runs to
    completion before the next call starts, so the lock pool
    ([storageLocks]), the cache lock ([bucketsCacheLock]) and the
    per-bucket lock embedded in [LockedBucket] do not appear.  What the
    locks protect does appear: the radix tree of cached buckets and the
    queued-buckets map hold *pointers* to [LockedBucket] objects, and an
    object reached through either is the same object.  The development
    therefore keeps an explicit store of bucket objects, and the cache and
    the queue map keys to locations of that store. *)

From Stdlib Require Import ZArith String Ascii List Lia DecimalString.
From Stdlib.Strings Require Byte.
From stdpp Require Import base option gmap strings list fin_maps.

Set Warnings "-register-all".

Local Open Scope string_scope.
Local Open Scope Z_scope.

(** ** Byte strings and Go string primitives *)

Abbreviation bytes := (list Byte.byte).

(** Go's [error] values are observed through [Error()], a string. *)
Abbreviation error := string (only parsing).

(** A Go result pair [(x, err)]: exactly one of the two is meaningful. *)
Inductive Result (A : Type) : Type :=
| Ok (a : A)
| Err (e : error).
Arguments Ok {A} a.
Arguments Err {A} e.

(** [errwrap.Wrapf(prefix ++ "{{err}}", err)]: every use in the packer puts
    the wrapped error at the very end of the format. *)
Definition Wrapf (format : string) (err : error) : error := format ++ err.

(** [s[0:n]] on an in-range [n]; shorter strings are returned whole. *)
Fixpoint str_take (n : nat) (s : string) : string :=
  match n, s with
  | S n', String c s' => String c (str_take n' s')
  | _, _ => ""
  end.

(** Go's slice expression [s[lo:hi]]: a run-time panic ([None]) unless
    [0 <= lo <= hi <= len(s)]. *)
Definition go_slice (s : string) (lo hi : Z) : option string :=
  if decide (0 <= lo /\ lo <= hi /\ hi <= Z.of_nat (String.length s))
  then Some (String.substring (Z.to_nat lo) (Z.to_nat (hi - lo)) s)
  else None.

(** [strings.Contains(s, sub)]. *)
Fixpoint strings_Contains (s sub : string) : bool :=
  String.prefix sub s ||
  match s with
  | "" => false
  | String _ s' => strings_Contains s' sub
  end.

(** [strings.Replace(key, "/", "", -1)]: every slash is dropped. *)
Fixpoint strip_slashes (s : string) : string :=
  match s with
  | "" => ""
  | String c s' =>
      if Ascii.eqb c "/"%char then strip_slashes s'
      else String c (strip_slashes s')
  end.

(** Strings on which [strip_slashes] is the identity. *)
Fixpoint slash_free (s : string) : bool :=
  match s with
  | "" => true
  | String c s' => negb (Ascii.eqb c "/"%char) && slash_free s'
  end.

(** [hex.EncodeToString]: two lowercase hex digits per byte, high nibble
    first. *)
Definition hex_digit (n : N) : ascii :=
  match n with
  | 0 => "0" | 1 => "1" | 2 => "2" | 3 => "3" | 4 => "4" | 5 => "5"
  | 6 => "6" | 7 => "7" | 8 => "8" | 9 => "9" | 10 => "a" | 11 => "b"
  | 12 => "c" | 13 => "d" | 14 => "e" | _ => "f"
  end%N%char.

Fixpoint hex_EncodeToString (src : bytes) : string :=
  match src with
  | [] => ""
  | b :: rest =>
      let n := Byte.to_N b in
      String (hex_digit (N.shiftr n 4))
        (String (hex_digit (N.land n 15)) (hex_EncodeToString rest))
  end.

(** [fmt.Sprintf("%x", i)] for a non-negative [i]: lowercase hex without
    leading zeros. *)
Fixpoint sprintf_x_pos (fuel : nat) (n : N) (acc : string) : string :=
  match fuel with
  | O => acc
  | S fuel' =>
      let acc' := String (hex_digit (N.land n 15)) acc in
      if (N.shiftr n 4 =? 0)%N then acc'
      else sprintf_x_pos fuel' (N.shiftr n 4) acc'
  end.

Definition sprintf_x (i : Z) : string :=
  sprintf_x_pos (S (N.to_nat (N.log2 (Z.to_N i)))) (Z.to_N i) "".

(** ** Data model *)

(** [any.Any], the payload of an item; the packer never looks inside. *)
Record Any := mkAny { TypeUrl : string; AnyValue : bytes }.

(** [Item]: an id and a pointer to its payload ([None] is Go's [nil]). *)
Record Item := mkItem { ID : string; Message : option Any }.

(** [Bucket].  [ItemMap] is a Go map read through [len] and lookup and
    written only after [upsert] has allocated it, so a [nil] map and an
    empty one are the same finite map here.  [Buckets] is written by
    [shardBucket] without such a check, and writing to a [nil] map panics,
    so it keeps the distinction. *)
Inductive Bucket := mkBucket {
  Key : string;
  ItemMap : gmap string (option Any);
  Buckets : option (gmap string Bucket)
}.

(** [logical.StorageEntry]. *)
Record StorageEntry := mkStorageEntry { EntryKey : string; EntryValue : bytes }.

(** ** The radix tree of cached buckets

    [github.com/armon/go-radix] is used through [Insert], [Delete] and
    [LongestPrefix] only.  Its contents are the finite map from keys to
    values; [LongestPrefix s] returns the entry whose key is the longest
    stored prefix of [s] (the empty key included). *)
Fixpoint LongestPrefix_upto {V} (t : gmap string V) (s : string) (n : nat)
  : option (string * V) :=
  match t !! str_take n s with
  | Some v => Some (str_take n s, v)
  | None =>
      match n with
      | O => None
      | S n' => LongestPrefix_upto t s n'
      end
  end.

Definition LongestPrefix {V} (t : gmap string V) (s : string)
  : option (string * V) :=
  LongestPrefix_upto t s (String.length s).

(** ** The storage views

    Modelled from the spec: [logical.StorageView] and the physical backend
    behind it are not part of the packer's file.  The spec gives their
    contract: [get(key)] returns the stored bytes or nothing, [put(key,
    bytes)] stores them or fails (among others with the distinguished "value
    too large" error), [delete(key)] removes.  A view addresses the
    underlying store below its prefix and hands entries back under the
    view-relative key.  Failures are decided by [sv_fault] from the calls
    made so far and the call being made, which covers size limits as well as
    transient errors; every call, failed or not, is appended to [sv_log]. *)
Inductive BackendOp :=
| OpGet (key : string)
| OpPut (key : string) (value : bytes)
| OpDelete (key : string).

Record StorageView := mkStorageView {
  sv_prefix : string;
  sv_data : gmap string bytes;
  sv_log : list BackendOp;
  sv_fault : list BackendOp -> BackendOp -> option error
}.

Definition sv_called (op : BackendOp) (v : StorageView) : StorageView :=
  mkStorageView (sv_prefix v) (sv_data v) (sv_log v ++ [op]) (sv_fault v).

Definition sv_with_data (d : gmap string bytes) (v : StorageView) : StorageView :=
  mkStorageView (sv_prefix v) d (sv_log v) (sv_fault v).

Definition SubView (v : StorageView) (p : string) : StorageView :=
  mkStorageView (sv_prefix v ++ p) (sv_data v) (sv_log v) (sv_fault v).

Definition sv_Get (v : StorageView) (key : string)
  : Result (option StorageEntry) * StorageView :=
  let op := OpGet (sv_prefix v ++ key) in
  match sv_fault v (sv_log v) op with
  | Some e => (Err e, sv_called op v)
  | None =>
      (Ok (mkStorageEntry key <$> sv_data v !! (sv_prefix v ++ key)),
       sv_called op v)
  end.

Definition sv_Put (v : StorageView) (entry : StorageEntry)
  : option error * StorageView :=
  let k := sv_prefix v ++ EntryKey entry in
  let op := OpPut k (EntryValue entry) in
  match sv_fault v (sv_log v) op with
  | Some e => (Some e, sv_called op v)
  | None =>
      (None, sv_called op (sv_with_data (<[k := EntryValue entry]> (sv_data v)) v))
  end.

Definition sv_Delete (v : StorageView) (key : string)
  : option error * StorageView :=
  let k := sv_prefix v ++ key in
  let op := OpDelete k in
  match sv_fault v (sv_log v) op with
  | Some e => (Some e, sv_called op v)
  | None => (None, sv_called op (sv_with_data (delete k (sv_data v)) v))
  end.

(** The [put] calls among the calls a view has seen. *)
Definition is_put (op : BackendOp) : bool :=
  match op with OpPut _ _ => true | _ => false end.

Definition puts_of (v : StorageView) : list BackendOp :=
  List.filter is_put (sv_log v).

(** ** Collaborators that live outside the packer's file

    The hash ([cryptoutil.Blake2b256Hash]), the protobuf codec of [Bucket],
    the compression helpers, the JSON codec of the stored configuration
    (whose only serialised field is [base_bucket_bits]) and the text of
    [physical.ErrValueTooLarge] are taken as parameters of the whole
    development. *)
Class Externals := {
  Blake2b256Hash : string -> bytes;
  ErrValueTooLarge : string;
  proto_Marshal : Bucket -> Result bytes;
  proto_Unmarshal : bytes -> Result Bucket;
  compressutil_Compress : bytes -> Result bytes;
  compressutil_Decompress : bytes -> Result (bytes * bool);
  StorageEntryJSON_config : Z -> Result bytes;
  DecodeJSON_config : bytes -> Result Z
}.

(** ** Configuration and packer state *)

Definition defaultBaseBucketBits : Z := 8.
Definition defaultBucketShardBits : Z := 4.

Record Config := mkConfig {
  BucketStorageView : option StorageView;
  ConfigStorageView : option StorageView;
  BaseBucketBits : Z;
  BucketShardBits : Z
}.

(** Locations of [LockedBucket] objects. *)
Abbreviation loc := positive.

Record StoragePackerV2 := mkPacker {
  config : Config;
  bucketsCache : gmap string loc;
  queueMode : Z;
  queuedBuckets : gmap string loc;
  (** the [LockedBucket] objects the two maps above point into *)
  objects : gmap loc Bucket
}.

Definition with_BucketStorageView (v : option StorageView) (c : Config) : Config :=
  mkConfig v (ConfigStorageView c) (BaseBucketBits c) (BucketShardBits c).
Definition with_ConfigStorageView (v : option StorageView) (c : Config) : Config :=
  mkConfig (BucketStorageView c) v (BaseBucketBits c) (BucketShardBits c).
Definition with_BaseBucketBits (n : Z) (c : Config) : Config :=
  mkConfig (BucketStorageView c) (ConfigStorageView c) n (BucketShardBits c).
Definition with_BucketShardBits (n : Z) (c : Config) : Config :=
  mkConfig (BucketStorageView c) (ConfigStorageView c) (BaseBucketBits c) n.

Definition with_config (c : Config) (s : StoragePackerV2) : StoragePackerV2 :=
  mkPacker c (bucketsCache s) (queueMode s) (queuedBuckets s) (objects s).
Definition with_bucketsCache (t : gmap string loc) (s : StoragePackerV2) : StoragePackerV2 :=
  mkPacker (config s) t (queueMode s) (queuedBuckets s) (objects s).
Definition with_queueMode (q : Z) (s : StoragePackerV2) : StoragePackerV2 :=
  mkPacker (config s) (bucketsCache s) q (queuedBuckets s) (objects s).
Definition with_queuedBuckets (q : gmap string loc) (s : StoragePackerV2) : StoragePackerV2 :=
  mkPacker (config s) (bucketsCache s) (queueMode s) q (objects s).
Definition with_objects (o : gmap loc Bucket) (s : StoragePackerV2) : StoragePackerV2 :=
  mkPacker (config s) (bucketsCache s) (queueMode s) (queuedBuckets s) o.

Definition with_ItemMap (m : gmap string (option Any)) (b : Bucket) : Bucket :=
  mkBucket (Key b) m (Buckets b).
Definition with_Key (k : string) (b : Bucket) : Bucket :=
  mkBucket k (ItemMap b) (Buckets b).
Definition with_Buckets (m : option (gmap string Bucket)) (b : Bucket) : Bucket :=
  mkBucket (Key b) (ItemMap b) m.

(** ** Computations on the packer

    A method of [*StoragePackerV2] reads and writes the packer and may end
    in a run-time panic ([None]); the Go-level [error] is part of the
    returned value. *)
Definition M (A : Type) : Type := StoragePackerV2 -> option (A * StoragePackerV2).

Definition ret {A} (a : A) : M A := fun s => Some (a, s).
Definition bind {A B} (m : M A) (k : A -> M B) : M B :=
  fun s => match m s with
           | Some (a, s') => k a s'
           | None => None
           end.
Definition panic {A} : M A := fun _ => None.
Definition gets {A} (f : StoragePackerV2 -> A) : M A := fun s => Some (f s, s).
Definition modify (f : StoragePackerV2 -> StoragePackerV2) : M unit :=
  fun s => Some (tt, f s).

Declare Scope packer_scope.
Delimit Scope packer_scope with packer.
Notation "x <- m ;; k" := (bind m (fun x => k))
  (at level 100, m at next level, right associativity) : packer_scope.
Notation "m ;;; k" := (bind m (fun _ => k))
  (at level 100, right associativity) : packer_scope.
Local Open Scope packer_scope.

(** Dereferencing a [*LockedBucket]. *)
Definition deref (l : loc) : M Bucket :=
  fun s => match objects s !! l with
           | Some b => Some (b, s)
           | None => None
           end.

(** Writing through a [*LockedBucket]. *)
Definition assign (l : loc) (b : Bucket) : M unit :=
  modify (fun s => with_objects (<[l := b]> (objects s)) s).

(** [&LockedBucket{Bucket: &b}]: a new object. *)
Definition new_LockedBucket (b : Bucket) : M loc :=
  fun s => let l := fresh (dom (objects s)) in
           Some (l, with_objects (<[l := b]> (objects s)) s).

Definition bucketsCache_Insert (k : string) (l : loc) : M unit :=
  modify (fun s => with_bucketsCache (<[k := l]> (bucketsCache s)) s).
Definition bucketsCache_Delete (k : string) : M unit :=
  modify (fun s => with_bucketsCache (delete k (bucketsCache s)) s).
Definition bucketsCache_LongestPrefix (k : string) : M (option (string * loc)) :=
  gets (fun s => LongestPrefix (bucketsCache s) k).

(** Calls on [s.BucketStorageView]; a [nil] view is a nil dereference. *)
Definition BucketStorageView_Get (key : string) : M (Result (option StorageEntry)) :=
  fun s => match BucketStorageView (config s) with
           | None => None
           | Some v =>
               let '(r, v') := sv_Get v key in
               Some (r, with_config (with_BucketStorageView (Some v') (config s)) s)
           end.
Definition BucketStorageView_Put (entry : StorageEntry) : M (option error) :=
  fun s => match BucketStorageView (config s) with
           | None => None
           | Some v =>
               let '(r, v') := sv_Put v entry in
               Some (r, with_config (with_BucketStorageView (Some v') (config s)) s)
           end.
Definition BucketStorageView_Delete (key : string) : M (option error) :=
  fun s => match BucketStorageView (config s) with
           | None => None
           | Some v =>
               let '(r, v') := sv_Delete v key in
               Some (r, with_config (with_BucketStorageView (Some v') (config s)) s)
           end.

(** ** The packer's methods *)

Section Packer.
Context `{ext : Externals}.

(** The routing digest of an item id. *)
Definition hexVal_of (itemID : string) : string :=
  hex_EncodeToString (Blake2b256Hash itemID).

Definition GetCacheKey (key : string) : string := strip_slashes key.

Definition BucketStorageKeyForItemID (itemID : string) : M string :=
  let hexVal := hexVal_of itemID in
  r <- bucketsCache_LongestPrefix hexVal ;;
  match r with
  | Some (_, bucketRaw) => b <- deref bucketRaw ;; ret (Key b)
  | None =>
      bits <- gets (fun s => BaseBucketBits (config s)) ;;
      match go_slice hexVal 0 (Z.quot bits 4) with
      | None => panic
      | Some cacheKey =>
          r <- bucketsCache_LongestPrefix hexVal ;;
          match r with
          | Some (_, bucketRaw) => b <- deref bucketRaw ;; ret (Key b)
          | None => ret cacheKey
          end
      end
  end.

Definition BucketKeyHashByItemID (itemID : string) : M string :=
  k <- BucketStorageKeyForItemID itemID ;; ret (GetCacheKey k).

(** [DecodeBucket] allocates the [LockedBucket] it returns and does not
    touch the cache.  The Go method takes a [*logical.StorageEntry] and
    dereferences it on its first line; its callers in this file pass an
    entry they have checked against [nil], and the model takes the entry
    itself, so a call with a [nil] entry (a panic in Go) is not
    represented. *)
Definition DecodeBucket (storageEntry : StorageEntry) : M (Result loc) :=
  match compressutil_Decompress (EntryValue storageEntry) with
  | Err e => ret (Err (Wrapf "failed to decompress packed storage entry: " e))
  | Ok (uncompressedData, notCompressed) =>
      let uncompressedData :=
        if notCompressed : bool then EntryValue storageEntry else uncompressedData in
      match proto_Unmarshal uncompressedData with
      | Err e => ret (Err (Wrapf "failed to decode packed storage entry: " e))
      | Ok bucket =>
          lb <- new_LockedBucket bucket ;;
          b <- deref lb ;;
          assign lb (with_Key (EntryKey storageEntry) b) ;;;
          ret (Ok lb)
      end
  end.

(** [storeBucket] expects the bucket to be locked already. *)
Definition storeBucket (bucket : loc) : M (option error) :=
  qm <- gets queueMode ;;
  b <- deref bucket ;;
  if decide (qm = 1) then
    modify (fun s => with_queuedBuckets (<[Key b := bucket]> (queuedBuckets s)) s) ;;;
    ret None
  else
    match proto_Marshal b with
    | Err e => ret (Some (Wrapf "failed to marshal bucket: " e))
    | Ok marshaledBucket =>
        match compressutil_Compress marshaledBucket with
        | Err e => ret (Some (Wrapf "failed to compress packed bucket: " e))
        | Ok compressedBucket =>
            err <- BucketStorageView_Put (mkStorageEntry (Key b) compressedBucket) ;;
            match err with
            | Some e => ret (Some (Wrapf "failed to persist packed storage entry: " e))
            | None => ret None
            end
        end
    end.

(** [shardBucket] as the file has it.  The loop bound is the Go expression
    [2^s.BucketShardBits], in which [^] is bitwise exclusive or.  Each
    round stores a zero-valued bucket under the label [%x] of the counter.
    After the loop the body slices a variable [hexVal] that is not
    declared, takes a read lock that it never releases and ends without a
    [return], so the file's text fixes no result: the [nil] error with
    which the model ends is the model's choice, and nothing about the loop
    depends on it. *)
Fixpoint shardBucket_loop (rounds : nat) (i : Z) (bucket : loc) : M unit :=
  match rounds with
  | O => ret tt
  | S rounds' =>
      b <- deref bucket ;;
      match Buckets b with
      | None => panic
      | Some children =>
          assign bucket
            (with_Buckets (Some (<[sprintf_x i := mkBucket "" ∅ None]> children)) b) ;;;
          shardBucket_loop rounds' (i + 1) bucket
      end
  end.

Definition shardBucket (bucket : loc) : M (option error) :=
  bits <- gets (fun s => BucketShardBits (config s)) ;;
  shardBucket_loop (Z.to_nat (Z.lxor 2 bits)) 0 bucket ;;;
  ret None.

Definition GetBucket (key : string) (skipCache : bool) : M (Result (option loc)) :=
  let cacheKey := GetCacheKey key in
  if decide (key = "") then ret (Err "missing bucket key") else
  r <- bucketsCache_LongestPrefix cacheKey ;;
  match r, skipCache with
  | Some (_, bucketRaw), false => ret (Ok (Some bucketRaw))
  | _, _ =>
      r <- bucketsCache_LongestPrefix cacheKey ;;
      match r, skipCache with
      | Some (_, bucketRaw), false => ret (Ok (Some bucketRaw))
      | _, _ =>
          g <- BucketStorageView_Get key ;;
          match g with
          | Err e => ret (Err (Wrapf "failed to read packed storage entry: " e))
          | Ok None => ret (Ok None)
          | Ok (Some storageEntry) =>
              d <- DecodeBucket storageEntry ;;
              match d with
              | Err e => ret (Err e)
              | Ok bucket =>
                  bucketsCache_Insert cacheKey bucket ;;;
                  ret (Ok (Some bucket))
              end
          end
      end
  end.

Definition PutBucket (bucket : option loc) : M (option error) :=
  match bucket with
  | None => ret (Some "nil bucket entry")
  | Some bucket =>
      b <- deref bucket ;;
      if decide (Key b = "") then ret (Some "missing key") else
      err <- storeBucket bucket ;;
      err <- match err with
             | Some e =>
                 if strings_Contains e ErrValueTooLarge
                 then shardBucket bucket
                 else ret (Some e)
             | None => ret None
             end ;;
      match err with
      | Some e => ret (Some e)
      | None =>
          b <- deref bucket ;;
          bucketsCache_Insert (GetCacheKey (Key b)) bucket ;;;
          ret None
      end
  end.

Definition DeleteBucket (key : string) : M (option error) :=
  if decide (key = "") then ret (Some "missing key") else
  let cacheKey := GetCacheKey key in
  err <- BucketStorageView_Delete key ;;
  match err with
  | Some e => ret (Some (Wrapf "failed to delete packed storage entry: " e))
  | None => bucketsCache_Delete cacheKey ;;; ret None
  end.

(** [upsert] is a method of [*LockedBucket]; both the receiver and the item
    may be [nil]. *)
Definition upsert (s : option loc) (item : option Item) : M (option error) :=
  match s with
  | None => ret (Some "nil storage bucket")
  | Some s =>
      match item with
      | None => ret (Some "nil item")
      | Some item =>
          if decide (ID item = "") then ret (Some "missing item ID") else
          b <- deref s ;;
          assign s (with_ItemMap (<[ID item := Message item]> (ItemMap b)) b) ;;;
          ret None
      end
  end.

Definition DeleteItem (itemID : string) : M (option error) :=
  if decide (itemID = "") then ret (Some "empty item ID") else
  bucketKey <- BucketStorageKeyForItemID itemID ;;
  let cacheKey := GetCacheKey bucketKey in
  r <- bucketsCache_LongestPrefix cacheKey ;;
  found <- match r with
           | Some (_, bucketRaw) => ret (inr bucketRaw)
           | None =>
               g <- BucketStorageView_Get bucketKey ;;
               match g with
               | Err e => ret (inl (Some (Wrapf "failed to read packed storage value: " e)))
               | Ok None => ret (inl None)
               | Ok (Some storageEntry) =>
                   d <- DecodeBucket storageEntry ;;
                   match d with
                   | Err e =>
                       ret (inl (Some (Wrapf "error decoding existing storage entry for upsert: " e)))
                   | Ok bucket =>
                       bucketsCache_Insert cacheKey bucket ;;;
                       ret (inr bucket)
                   end
               end
           end ;;
  match found with
  | inl early => ret early
  | inr bucket =>
      b <- deref bucket ;;
      if decide (size (ItemMap b) = 0%nat) then ret None else
      match ItemMap b !! itemID with
      | None => ret None
      | Some _ =>
          assign bucket (with_ItemMap (delete itemID (ItemMap b)) b) ;;;
          storeBucket bucket
      end
  end.

Definition GetItem (itemID : string) : M (Result (option Item)) :=
  if decide (itemID = "") then ret (Err "empty item ID") else
  bucketKey <- BucketStorageKeyForItemID itemID ;;
  let cacheKey := GetCacheKey bucketKey in
  r <- bucketsCache_LongestPrefix cacheKey ;;
  found <- match r with
           | Some (_, bucketRaw) => ret (inr bucketRaw)
           | None =>
               g <- BucketStorageView_Get bucketKey ;;
               match g with
               | Err e => ret (inl (Err (Wrapf "failed to read packed storage value: " e)))
               | Ok None => ret (inl (Ok None))
               | Ok (Some storageEntry) =>
                   d <- DecodeBucket storageEntry ;;
                   match d with
                   | Err e =>
                       ret (inl (Err (Wrapf "error decoding existing storage entry for upsert: " e)))
                   | Ok bucket =>
                       bucketsCache_Insert cacheKey bucket ;;;
                       ret (inr bucket)
                   end
               end
           end ;;
  match found with
  | inl early => ret early
  | inr bucket =>
      b <- deref bucket ;;
      if decide (size (ItemMap b) = 0%nat) then ret (Ok None) else
      match ItemMap b !! itemID with
      | None => ret (Ok None)
      | Some item => ret (Ok (Some (mkItem itemID item)))
      end
  end.

Definition PutItem (item : option Item) : M (option error) :=
  match item with
  | None => ret (Some "nil item")
  | Some item =>
      if decide (ID item = "") then ret (Some "missing ID in item") else
      bucketKey <- BucketStorageKeyForItemID (ID item) ;;
      let cacheKey := GetCacheKey bucketKey in
      r <- bucketsCache_LongestPrefix cacheKey ;;
      found <- match r with
               | Some (_, bucketRaw) => ret (inr bucketRaw)
               | None =>
                   g <- BucketStorageView_Get bucketKey ;;
                   match g with
                   | Err e =>
                       ret (inl (Some (Wrapf "failed to read packed storage value: " e)))
                   | Ok storageEntry =>
                       d <- match storageEntry with
                            | None =>
                                lb <- new_LockedBucket (mkBucket bucketKey ∅ None) ;;
                                ret (Ok lb)
                            | Some storageEntry => DecodeBucket storageEntry
                            end ;;
                       match d with
                       | Err e =>
                           ret (inl (Some
                             (Wrapf "error decoding existing storage entry for upsert: " e)))
                       | Ok bucket =>
                           bucketsCache_Insert cacheKey bucket ;;;
                           ret (inr bucket)
                       end
                   end
               end ;;
      match found with
      | inl early => ret early
      | inr bucket =>
          err <- upsert (Some bucket) (Some item) ;;
          match err with
          | Some e =>
              ret (Some (Wrapf "failed to update entry in packed storage entry: " e))
          | None => storeBucket bucket
          end
      end
  end.

Definition SetQueueMode (enabled : bool) : M unit :=
  if enabled then modify (with_queueMode 1) else modify (with_queueMode 0).

(** [multierror]: the errors appended so far; [ErrorOrNil] is [nil] when
    there are none. *)
Definition ErrorOrNil (errs : list error) : option (list error) :=
  match errs with
  | [] => None
  | _ => Some errs
  end.

(** [queuedBuckets.Range]: the callback runs once for every entry the map
    holds when the walk starts. *)
Fixpoint FlushQueue_range (entries : list (string * loc)) (err : list error)
  : M (list error) :=
  match entries with
  | [] => ret err
  | (key, value) :: rest =>
      lErr <- storeBucket value ;;
      let err := match lErr with
                 | Some e => (err ++ [e])%list
                 | None => err
                 end in
      modify (fun s => with_queuedBuckets (delete key (queuedBuckets s)) s) ;;;
      FlushQueue_range rest err
  end.

Definition FlushQueue : M (option (list error)) :=
  q <- gets queuedBuckets ;;
  errs <- FlushQueue_range (map_to_list q) [] ;;
  ret (ErrorOrNil errs).

End Packer.

(** ** Opening a packer *)

Section Open.
Context `{ext : Externals}.

(** [%d] of [fmt.Errorf]. *)
Definition sprintf_d (n : Z) : string :=
  DecimalString.NilZero.string_of_int (Z.to_int n).

(** [NewStoragePackerV2] receives a pointer to the caller's [Config], writes
    to it and keeps it in the packer; the second component of the result is
    that configuration object when the call returns.  Go's [%] on [int] is
    the truncated remainder [Z.rem]. *)
Definition NewStoragePackerV2 (config : Config) : Result StoragePackerV2 * Config :=
  match BucketStorageView config with
  | None => (Err "nil buckets view", config)
  | Some bucketView =>
  let config := with_BucketStorageView (Some (SubView bucketView "v2/")) config in
  match ConfigStorageView config with
  | None => (Err "nil config view", config)
  | Some configView =>
  let config :=
    if decide (BaseBucketBits config = 0)
    then with_BaseBucketBits defaultBaseBucketBits config else config in
  let needPersist := false in
  let '(entry, configView) := sv_Get configView "config" in
  let config := with_ConfigStorageView (Some configView) config in
  match entry with
  | Err e =>
      (Err (Wrapf "error checking for existing storagepacker config: " e), config)
  | Ok entry =>
  let decoded :=
    match entry with
    | Some entry =>
        match DecodeJSON_config (EntryValue entry) with
        | Err e => Err (Wrapf "error decoding existing storagepacker config: " e)
        | Ok existing => Ok (false, with_BaseBucketBits existing config)
        end
    | None => Ok (needPersist, config)
    end in
  match decoded with
  | Err e => (Err e, config)
  | Ok (needPersist, config) =>
  let config :=
    if decide (BucketShardBits config = 0)
    then with_BucketShardBits defaultBucketShardBits config else config in
  if decide (Z.rem (BaseBucketBits config) 4 <> 0) then
    (Err ("bucket base bits of " ++ sprintf_d (BaseBucketBits config)
          ++ " is not a multiple of four"), config)
  else if decide (Z.rem (BucketShardBits config) 4 <> 0) then
    (Err ("bucket shard count of " ++ sprintf_d (BucketShardBits config)
          ++ " is not a power of two"), config)
  else if decide (BaseBucketBits config < 4) then
    (Err "bucket base bits should be at least 4", config)
  else if decide (BucketShardBits config < 4) then
    (Err "bucket shard count should at least be 4", config)
  else
  let persisted :=
    if needPersist : bool then
      match StorageEntryJSON_config (BaseBucketBits config) with
      | Err e => (Some (Wrapf "error encoding storagepacker config: " e), config)
      | Ok value =>
          let '(err, configView) := sv_Put configView (mkStorageEntry "config" value) in
          let config := with_ConfigStorageView (Some configView) config in
          match err with
          | Some e => (Some (Wrapf "error storing storagepacker config: " e), config)
          | None => (None, config)
          end
      end
    else (None, config) in
  match persisted with
  | (Some e, config) => (Err e, config)
  | (None, config) => (Ok (mkPacker config ∅ 0 ∅ ∅), config)
  end
  end
  end
  end
  end.

End Open.

(** ** Sequences of calls

    A caller's session with the item operations and the queue switch, and
    what each call answered. *)
Inductive Call :=
| CallPutItem (item : option Item)
| CallDeleteItem (itemID : string)
| CallGetItem (itemID : string)
| CallSetQueueMode (enabled : bool)
| CallFlushQueue.

Inductive Answer :=
| AnsError (err : option error)
| AnsItem (r : Result (option Item))
| AnsDone
| AnsErrors (errs : option (list error)).

Section Sessions.
Context `{ext : Externals}.

Definition call (c : Call) : M Answer :=
  match c with
  | CallPutItem item => err <- PutItem item ;; ret (AnsError err)
  | CallDeleteItem itemID => err <- DeleteItem itemID ;; ret (AnsError err)
  | CallGetItem itemID => r <- GetItem itemID ;; ret (AnsItem r)
  | CallSetQueueMode enabled => SetQueueMode enabled ;;; ret AnsDone
  | CallFlushQueue => errs <- FlushQueue ;; ret (AnsErrors errs)
  end.

Fixpoint run (calls : list Call) : M (list Answer) :=
  match calls with
  | [] => ret []
  | c :: rest => a <- call c ;; answers <- run rest ;; ret (a :: answers)
  end.

End Sessions.

Definition succeeded (a : Answer) : bool :=
  match a with
  | AnsError None => true
  | _ => false
  end.

(** The payload the packer holds in memory for [itemID] after a session,
    if the item is live: a [PutItem] that returned [nil] makes the item
    live with its payload; a later [PutItem] call for a live item replaces
    the payload, also when it returns an error; a [DeleteItem] call for the
    id, whatever it returned, ends it.  This is not the payload of the last
    successful write (see [last_successful_write]). *)
Fixpoint last_written (itemID : string) (history : list (Call * Answer))
    (current : option (option Any)) : option (option Any) :=
  match history with
  | [] => current
  | (CallPutItem (Some item), a) :: rest =>
      if decide (ID item = itemID) then
        last_written itemID rest
          (if succeeded a then Some (Message item)
           else match current with
                | Some _ => Some (Message item)
                | None => None
                end)
      else last_written itemID rest current
  | (CallDeleteItem itemID', _) :: rest =>
      if decide (itemID' = itemID) then last_written itemID rest None
      else last_written itemID rest current
  | _ :: rest => last_written itemID rest current
  end.

(** ** State predicates used by the properties *)

Section Predicates.
Context `{ext : Externals}.

(** Every cache entry points to a bucket object whose key, in cache form,
    is the entry's key. *)
Definition cache_wf (s : StoragePackerV2) : Prop :=
  forall k l, bucketsCache s !! k = Some l ->
    exists b, objects s !! l = Some b /\ GetCacheKey (Key b) = k.

(** Every queued entry points to a bucket object and is filed under that
    bucket's key, as [storeBucket] files it. *)
Definition queue_wf (s : StoragePackerV2) : Prop :=
  forall k l, queuedBuckets s !! k = Some l ->
    exists b, objects s !! l = Some b /\ Key b = k.

(** The bucket the cache routes [itemID] to holds [payload] for it. *)
Definition cached_item (s : StoragePackerV2) (itemID : string)
  (payload : option Any) : Prop :=
  itemID <> "" /\
  exists k l b,
    LongestPrefix (bucketsCache s) (hexVal_of itemID) = Some (k, l) /\
    objects s !! l = Some b /\
    ItemMap b !! itemID = Some payload.

(** What the bucket view holds and which [put] calls it has seen. *)
Definition bucket_data (s : StoragePackerV2) : option (gmap string bytes) :=
  sv_data <$> BucketStorageView (config s).
Definition bucket_puts (s : StoragePackerV2) : option (list BackendOp) :=
  puts_of <$> BucketStorageView (config s).

(** The bytes [storeBucket] hands to the backend for a bucket. *)
Definition encoded (b : Bucket) : Result bytes :=
  match proto_Marshal b with
  | Err e => Err e
  | Ok marshaledBucket => compressutil_Compress marshaledBucket
  end.

(** What the bucket view stores under a view-relative key. *)
Definition persisted (s : StoragePackerV2) (key : string) : option bytes :=
  match BucketStorageView (config s) with
  | Some v => sv_data v !! (sv_prefix v ++ key)
  | None => None
  end.

(** The bytes [DecodeBucket] hands to [proto.Unmarshal]. *)
Definition decode_input (storageEntry : StorageEntry) : Result bytes :=
  match compressutil_Decompress (EntryValue storageEntry) with
  | Err e => Err e
  | Ok (uncompressedData, notCompressed) =>
      Ok (if notCompressed : bool then EntryValue storageEntry else uncompressedData)
  end.


(** Replacing the bucket view of a packer, as a call on the view does. *)
Definition with_view (v : StorageView) (s : StoragePackerV2) : StoragePackerV2 :=
  with_config (with_BucketStorageView (Some v) (config s)) s.

(** How [GetItem], [DeleteItem] and [PutItem] find the bucket of an item:
    the cached bucket on a hit; on a miss the entry read from the bucket
    view under the first [BaseBucketBits/4] digest characters, decoded and
    inserted into the cache. *)
Inductive Resolution :=
| ResBucket (l : loc)
| ResAbsent (bucketKey : string)
| ResFailed (e : error).

Inductive resolves (s : StoragePackerV2) (itemID : string)
  : StoragePackerV2 -> Resolution -> Prop :=
| resolves_cached k l b :
    LongestPrefix (bucketsCache s) (hexVal_of itemID) = Some (k, l) ->
    objects s !! l = Some b ->
    resolves s itemID s (ResBucket l)
| resolves_read_error ck v v' e :
    LongestPrefix (bucketsCache s) (hexVal_of itemID) = None ->
    go_slice (hexVal_of itemID) 0 (Z.quot (BaseBucketBits (config s)) 4) = Some ck ->
    BucketStorageView (config s) = Some v ->
    sv_Get v ck = (Err e, v') ->
    resolves s itemID (with_view v' s)
      (ResFailed (Wrapf "failed to read packed storage value: " e))
| resolves_absent ck v v' :
    LongestPrefix (bucketsCache s) (hexVal_of itemID) = None ->
    go_slice (hexVal_of itemID) 0 (Z.quot (BaseBucketBits (config s)) 4) = Some ck ->
    BucketStorageView (config s) = Some v ->
    sv_Get v ck = (Ok None, v') ->
    resolves s itemID (with_view v' s) (ResAbsent ck)
| resolves_decode_error ck v v' storageEntry e :
    LongestPrefix (bucketsCache s) (hexVal_of itemID) = None ->
    go_slice (hexVal_of itemID) 0 (Z.quot (BaseBucketBits (config s)) 4) = Some ck ->
    BucketStorageView (config s) = Some v ->
    sv_Get v ck = (Ok (Some storageEntry), v') ->
    DecodeBucket storageEntry (with_view v' s) = Some (Err e, with_view v' s) ->
    resolves s itemID (with_view v' s)
      (ResFailed (Wrapf "error decoding existing storage entry for upsert: " e))
| resolves_loaded ck v v' storageEntry l s2 :
    LongestPrefix (bucketsCache s) (hexVal_of itemID) = None ->
    go_slice (hexVal_of itemID) 0 (Z.quot (BaseBucketBits (config s)) 4) = Some ck ->
    BucketStorageView (config s) = Some v ->
    sv_Get v ck = (Ok (Some storageEntry), v') ->
    DecodeBucket storageEntry (with_view v' s) = Some (Ok l, s2) ->
    resolves s itemID (with_bucketsCache (<[ck := l]> (bucketsCache s2)) s2)
      (ResBucket l).

(** [PutItem] goes on with a new empty bucket where the others stop at an
    absent one. *)
Inductive prepares (s : StoragePackerV2) (itemID : string)
  : StoragePackerV2 -> loc -> Prop :=
| prepares_found s1 l :
    resolves s itemID s1 (ResBucket l) ->
    prepares s itemID s1 l
| prepares_created s0 ck l :
    resolves s itemID s0 (ResAbsent ck) ->
    objects s0 !! l = None ->
    prepares s itemID
      (with_bucketsCache (<[ck := l]> (bucketsCache s0))
         (with_objects (<[l := mkBucket ck ∅ None]> (objects s0)) s0)) l.

(** The packer after [upsert] on the bucket object [l]. *)
Definition upserted (l : loc) (b : Bucket) (item : Item) (s : StoragePackerV2)
  : StoragePackerV2 :=
  with_objects
    (<[l := with_ItemMap (<[ID item := Message item]> (ItemMap b)) b]> (objects s)) s.

(** The packer after [delete(bucket.ItemMap, itemID)] on the bucket object
    [l]. *)
Definition removed (l : loc) (b : Bucket) (itemID : string) (s : StoragePackerV2)
  : StoragePackerV2 :=
  with_objects (<[l := with_ItemMap (delete itemID (ItemMap b)) b]> (objects s)) s.

(** Two ways the bucket objects and the cache change while a bucket is
    looked up: not at all, or by one new object entered in the cache under a
    prefix of a digest that missed. *)
Definition same_memory (s s1 : StoragePackerV2) : Prop :=
  bucketsCache s1 = bucketsCache s /\ objects s1 = objects s.

Definition loaded_into (s : StoragePackerV2) (itemID : string) (l : loc)
  (s1 : StoragePackerV2) : Prop :=
  exists n b,
    LongestPrefix (bucketsCache s) (hexVal_of itemID) = None /\
    objects s !! l = None /\
    GetCacheKey (Key b) = str_take n (hexVal_of itemID) /\
    bucketsCache s1 = <[str_take n (hexVal_of itemID) := l]> (bucketsCache s) /\
    objects s1 = <[l := b]> (objects s).

(** What a lookup leaves alone. *)
Definition same_backend (s s1 : StoragePackerV2) : Prop :=
  queuedBuckets s1 = queuedBuckets s /\ queueMode s1 = queueMode s /\
  bucket_data s1 = bucket_data s /\ bucket_puts s1 = bucket_puts s.

(** What [storeBucket] does with a bucket object. *)
Inductive stores (s : StoragePackerV2) (l : loc)
  : option error -> StoragePackerV2 -> Prop :=
| stores_queued b :
    queueMode s = 1 ->
    objects s !! l = Some b ->
    stores s l None (with_queuedBuckets (<[Key b := l]> (queuedBuckets s)) s)
| stores_marshal_error b e :
    queueMode s <> 1 ->
    objects s !! l = Some b ->
    proto_Marshal b = Err e ->
    stores s l (Some (Wrapf "failed to marshal bucket: " e)) s
| stores_compress_error b marshaledBucket e :
    queueMode s <> 1 ->
    objects s !! l = Some b ->
    proto_Marshal b = Ok marshaledBucket ->
    compressutil_Compress marshaledBucket = Err e ->
    stores s l (Some (Wrapf "failed to compress packed bucket: " e)) s
| stores_put_error b data v v' e :
    queueMode s <> 1 ->
    objects s !! l = Some b ->
    encoded b = Ok data ->
    BucketStorageView (config s) = Some v ->
    sv_Put v (mkStorageEntry (Key b) data) = (Some e, v') ->
    stores s l (Some (Wrapf "failed to persist packed storage entry: " e))
      (with_view v' s)
| stores_put b data v v' :
    queueMode s <> 1 ->
    objects s !! l = Some b ->
    encoded b = Ok data ->
    BucketStorageView (config s) = Some v ->
    sv_Put v (mkStorageEntry (Key b) data) = (None, v') ->
    stores s l None (with_view v' s).

End Predicates.

(** ** A concrete environment for closed examples

    A small instance of the collaborators: a 32-byte digest that starts
    with the first byte of the id, a codec that writes the bucket key and
    the item ids separated by bars, a one-byte compression frame and a
    one-byte configuration record. *)
Module Demo.

Definition hash (itemID : string) : bytes :=
  match list_byte_of_string itemID with
  | [] => repeat Byte.x00 32
  | b :: _ => b :: repeat Byte.x00 31
  end.

Fixpoint split_bar (s cur : string) : list string :=
  match s with
  | "" => [cur]
  | String c s' =>
      if Ascii.eqb c "|"%char then cur :: split_bar s' ""
      else split_bar s' (cur ++ String c "")
  end.

Definition Marshal (b : Bucket) : Result bytes :=
  Ok (list_byte_of_string
        (String.concat "|" (Key b :: map fst (map_to_list (ItemMap b))))).

Definition Unmarshal (data : bytes) : Result Bucket :=
  match split_bar (string_of_list_byte data) "" with
  | k :: ids => Ok (mkBucket k (list_to_map (map (fun i => (i, None)) ids)) None)
  | [] => Err "empty record"
  end.

Definition Compress (data : bytes) : Result bytes := Ok (Byte.x01 :: data).

Definition Decompress (data : bytes) : Result (bytes * bool) :=
  match data with
  | Byte.x01 :: rest => Ok (rest, false)
  | _ => Ok ([], true)
  end.

Definition EncodeConfig (bits : Z) : Result bytes :=
  match Byte.of_N (Z.to_N bits) with
  | Some b => Ok [b]
  | None => Err "out of range"
  end.

Definition DecodeConfig (data : bytes) : Result Z :=
  match data with
  | [b] => Ok (Z.of_N (Byte.to_N b))
  | _ => Err "malformed"
  end.

#[global] Instance externals : Externals := {|
  Blake2b256Hash := hash;
  ErrValueTooLarge := "put failed due to value being too large";
  proto_Marshal := Marshal;
  proto_Unmarshal := Unmarshal;
  compressutil_Compress := Compress;
  compressutil_Decompress := Decompress;
  StorageEntryJSON_config := EncodeConfig;
  DecodeJSON_config := DecodeConfig
|}.

(** Backends: one that never fails, one whose every [put] is too large,
    one whose every [put] fails with an I/O error. *)
Definition reliable : list BackendOp -> BackendOp -> option error :=
  fun _ _ => None.
Definition too_small : list BackendOp -> BackendOp -> option error :=
  fun _ op => if is_put op then Some "put failed due to value being too large" else None.
Definition broken_disk : list BackendOp -> BackendOp -> option error :=
  fun _ op => if is_put op then Some "i/o timeout" else None.

Definition empty_view (fault : list BackendOp -> BackendOp -> option error)
  : StorageView := mkStorageView "" ∅ [] fault.

Definition fresh_config (fault : list BackendOp -> BackendOp -> option error)
  (base shard : Z) : Config :=
  mkConfig (Some (empty_view fault)) (Some (empty_view reliable)) base shard.

(** A packer over empty views, as [NewStoragePackerV2] builds it for base 8
    and shard 4. *)
Definition packer (fault : list BackendOp -> BackendOp -> option error)
  : StoragePackerV2 :=
  mkPacker
    (mkConfig (Some (mkStorageView "v2/" ∅ [] fault))
       (Some (mkStorageView "" ∅ [OpGet "config"] reliable)) 8 4)
    ∅ 0 ∅ ∅.

Definition alice : Item := mkItem "alice" (Some (mkAny "t" [Byte.x6f])).
(** A packer whose cache holds one bucket, with one item and an allocated
    (empty) children map. *)
Definition loaded (fault : list BackendOp -> BackendOp -> option error)
  (children : option (gmap string Bucket)) : StoragePackerV2 :=
  mkPacker
    (mkConfig (Some (mkStorageView "v2/" ∅ [] fault))
       (Some (mkStorageView "" ∅ [OpGet "config"] reliable)) 8 4)
    {["61" := 1%positive]} 0 ∅
    {[1%positive := mkBucket "61" {["alice" := Some (mkAny "t" [Byte.x6f])]} children]}.

(** The same bucket waiting in the queue, with queue mode switched off
    again. *)
Definition queued (fault : list BackendOp -> BackendOp -> option error)
  : StoragePackerV2 :=
  mkPacker
    (mkConfig (Some (mkStorageView "v2/" ∅ [] fault))
       (Some (mkStorageView "" ∅ [OpGet "config"] reliable)) 8 4)
    {["61" := 1%positive]} 0 {["61" := 1%positive]}
    {[1%positive := mkBucket "61" {["alice" := Some (mkAny "t" [Byte.x6f])]} None]}.

Definition alice' : Item := mkItem "alice" (Some (mkAny "t" [Byte.x74])).
Definition bob : Item := mkItem "bob" (Some (mkAny "t" [Byte.x62])).

(** A session: two writes of alice, the second failing at the backend,
    and a write and a delete of bob in between. *)
Definition flaky : list BackendOp -> BackendOp -> option error :=
  fun log op =>
    if is_put op && (5 <=? length log)%nat then Some "i/o timeout" else None.

Definition session : list Call :=
  [CallPutItem (Some alice); CallPutItem (Some bob); CallDeleteItem "bob";
   CallPutItem (Some alice')].

End Demo.

(** ** Further definitions: the bucket operations and restarts *)

(** Every bucket object of [s] is still there in [s1], under the same
    location and with the same key. *)
Definition keys_kept (s s1 : StoragePackerV2) : Prop :=
  forall l b, objects s !! l = Some b ->
    exists b', objects s1 !! l = Some b' /\ Key b' = Key b.

Section FurtherPredicates.
Context `{ext : Externals}.

(** Decoding the bytes stored for bucket [b] gives back its items. *)
Definition codec_round_trip (b : Bucket) : Prop :=
  forall data, encoded b = Ok data ->
    exists plain parsed,
      decode_input (mkStorageEntry (Key b) data) = Ok plain /\
      proto_Unmarshal plain = Ok parsed /\
      ItemMap parsed = ItemMap b.

(** The key of the base-level bucket of an item. *)
Definition base_key (s : StoragePackerV2) (itemID : string) : string :=
  str_take (Z.to_nat (Z.quot (BaseBucketBits (config s)) 4)) (hexVal_of itemID).

(** A packer on which the operations can run: well-formed cache and
    queue, a bucket view, and base bits within the 256 bits of the
    digest. *)
Definition ready (s : StoragePackerV2) : Prop :=
  cache_wf s /\ queue_wf s /\
  is_Some (BucketStorageView (config s)) /\
  0 <= BaseBucketBits (config s) <= 256.

End FurtherPredicates.

(** The whole caller API: the item operations and queue switch of [Call],
    and the bucket operations. *)
Inductive ApiCall :=
| ApiItem (c : Call)
| ApiGetBucket (key : string) (skipCache : bool)
| ApiPutBucket (bucket : option loc)
| ApiDeleteBucket (key : string)
| ApiDecodeBucket (storageEntry : StorageEntry).

Section Api.
Context `{ext : Externals}.

Definition api_call (c : ApiCall) : M unit :=
  match c with
  | ApiItem c => call c ;;; ret tt
  | ApiGetBucket key skipCache => GetBucket key skipCache ;;; ret tt
  | ApiPutBucket bucket => PutBucket bucket ;;; ret tt
  | ApiDeleteBucket key => DeleteBucket key ;;; ret tt
  | ApiDecodeBucket storageEntry => DecodeBucket storageEntry ;;; ret tt
  end.

Fixpoint api_run (calls : list ApiCall) : M unit :=
  match calls with
  | [] => ret tt
  | c :: rest => api_call c ;;; api_run rest
  end.

End Api.

(** The parameters [NewStoragePackerV2] goes on with when it finds no
    stored configuration: zero means the default. *)
Definition effective_base (c : Config) : Z :=
  if decide (BaseBucketBits c = 0) then defaultBaseBucketBits else BaseBucketBits c.
Definition effective_shard (c : Config) : Z :=
  if decide (BucketShardBits c = 0) then defaultBucketShardBits else BucketShardBits c.

(** The reading of "the last payload written" in which only calls that
    returned [nil] count: a [PutItem] that returned an error has written
    nothing, and a [DeleteItem] that returned an error has removed
    nothing. *)
Fixpoint last_successful_write (itemID : string) (history : list (Call * Answer))
    (current : option (option Any)) : option (option Any) :=
  match history with
  | [] => current
  | (CallPutItem (Some item), a) :: rest =>
      if decide (ID item = itemID) then
        last_successful_write itemID rest
          (if succeeded a then Some (Message item) else current)
      else last_successful_write itemID rest current
  | (CallDeleteItem itemID', a) :: rest =>
      if decide (itemID' = itemID) then
        last_successful_write itemID rest (if succeeded a then None else current)
      else last_successful_write itemID rest current
  | _ :: rest => last_successful_write itemID rest current
  end.

Section FlushTrace.
Context `{ext : Externals}.

(** One walk of [FlushQueue] over the queued entries: what each
    [storeBucket] call returned, in the order of the walk, each entry being
    deleted from the queue after its call. *)
Inductive flush_trace (s : StoragePackerV2)
  : list (string * loc) -> list (option error) -> StoragePackerV2 -> Prop :=
| flush_done : flush_trace s [] [] s
| flush_step key value rest lErr outcomes s1 s' :
    storeBucket value s = Some (lErr, s1) ->
    flush_trace (with_queuedBuckets (delete key (queuedBuckets s1)) s1)
      rest outcomes s' ->
    flush_trace s ((key, value) :: rest) (lErr :: outcomes) s'.

End FlushTrace.

(** * Properties *)

(** ** Strings and prefixes *)

Lemma str_take_length (n : nat) (s : string) :
  String.length (str_take n s) = Nat.min n (String.length s).
Proof.
  revert s; induction n as [|n IH]; intros [|c s]; simpl; auto.
Qed.

Lemma str_take_all (s : string) : str_take (String.length s) s = s.
Proof. induction s as [|c s IH]; simpl; congruence. Qed.

Lemma str_take_take (m n : nat) (s : string) :
  str_take m (str_take n s) = str_take (Nat.min m n) s.
Proof.
  revert n s; induction m as [|m IH]; intros [|n] [|c s]; simpl; auto.
  f_equal; apply IH.
Qed.

Lemma substring_0 (n : nat) (s : string) : String.substring 0 n s = str_take n s.
Proof.
  revert s; induction n as [|n IH]; intros [|c s]; simpl; auto.
  f_equal; apply IH.
Qed.

Lemma go_slice_0 (s : string) (hi : Z) (r : string) :
  go_slice s 0 hi = Some r ->
  r = str_take (Z.to_nat hi) s /\ (0 <= hi <= Z.of_nat (String.length s))%Z.
Proof.
  unfold go_slice; intros H; case_decide; [|discriminate].
  inversion H; subst; clear H.
  rewrite Z.sub_0_r; simpl; rewrite substring_0; split; [reflexivity|lia].
Qed.

Lemma go_slice_0_in_range (s : string) (hi : Z) :
  (0 <= hi <= Z.of_nat (String.length s))%Z ->
  go_slice s 0 hi = Some (str_take (Z.to_nat hi) s).
Proof.
  intros H; unfold go_slice; case_decide; [|lia].
  rewrite Z.sub_0_r; simpl; rewrite substring_0; reflexivity.
Qed.

Lemma strip_slashes_free (s : string) : slash_free s = true -> strip_slashes s = s.
Proof.
  induction s as [|c s IH]; simpl; [reflexivity|].
  intros [Hc Hs]%andb_prop. apply negb_true_iff in Hc. rewrite Hc.
  f_equal; auto.
Qed.

Lemma slash_free_take (n : nat) (s : string) :
  slash_free s = true -> slash_free (str_take n s) = true.
Proof.
  revert s; induction n as [|n IH]; intros [|c s]; simpl; auto.
  intros [Hc Hs]%andb_prop. rewrite Hc; simpl; auto.
Qed.

Lemma hex_digit_not_slash (n : N) : Ascii.eqb (hex_digit n) "/"%char = false.
Proof.
  destruct n as [|p]; [reflexivity|].
  do 4 (try destruct p as [p|p|]); reflexivity.
Qed.

Lemma hex_slash_free (src : bytes) : slash_free (hex_EncodeToString src) = true.
Proof.
  induction src as [|b src IH]; simpl; [reflexivity|].
  rewrite !hex_digit_not_slash; simpl; exact IH.
Qed.

Lemma hex_length (src : bytes) :
  String.length (hex_EncodeToString src) = (2 * length src)%nat.
Proof. induction src as [|b src IH]; simpl; lia. Qed.

(** ** Longest-prefix lookup *)

Section LongestPrefixFacts.
Context {V : Type}.
Implicit Types (t : gmap string V) (s k : string) (v : V).

Lemma LongestPrefix_upto_Some t s n k v :
  LongestPrefix_upto t s n = Some (k, v) ->
  t !! k = Some v /\
  exists m, (m <= n)%nat /\ k = str_take m s /\
    forall m', (m < m' <= n)%nat -> t !! str_take m' s = None.
Proof.
  induction n as [|n IH]; cbn [LongestPrefix_upto].
  - destruct (t !! str_take 0 s) as [v'|] eqn:E; [|discriminate].
    intros H; inversion H; subst; clear H; split; auto.
    exists 0%nat. split; [lia|]. split; [reflexivity|]. intros; lia.
  - destruct (t !! str_take (S n) s) as [v'|] eqn:E.
    + intros H; inversion H; subst; clear H; split; auto.
      exists (S n). split; [lia|]. split; [reflexivity|]. intros; lia.
    + intros H. destruct (IH H) as (Hk & m & Hm & -> & Hgap).
      split; auto. exists m. split; [lia|]. split; [reflexivity|].
      intros m' Hm'. destruct (decide (m' = S n)) as [->|]; auto.
      apply Hgap; lia.
Qed.

Lemma LongestPrefix_upto_None t s n :
  LongestPrefix_upto t s n = None ->
  forall m, (m <= n)%nat -> t !! str_take m s = None.
Proof.
  induction n as [|n IH]; cbn [LongestPrefix_upto].
  - destruct (t !! str_take 0 s) eqn:E; [discriminate|].
    intros _ m Hm. replace m with 0%nat by lia. exact E.
  - destruct (t !! str_take (S n) s) eqn:E; [discriminate|].
    intros H m Hm. destruct (decide (m = S n)) as [->|]; auto.
    apply IH; auto; lia.
Qed.

Lemma LongestPrefix_upto_intro t s n m v :
  (m <= n)%nat ->
  t !! str_take m s = Some v ->
  (forall m', (m < m' <= n)%nat -> t !! str_take m' s = None) ->
  LongestPrefix_upto t s n = Some (str_take m s, v).
Proof.
  induction n as [|n IH]; intros Hm Hv Hgap; cbn [LongestPrefix_upto].
  - replace m with 0%nat in * by lia. rewrite Hv. reflexivity.
  - destruct (decide (m = S n)) as [->|Hne].
    + rewrite Hv; reflexivity.
    + rewrite (Hgap (S n)) by lia. apply IH; [lia|auto|].
      intros; apply Hgap; lia.
Qed.

Lemma str_take_beyond (m : nat) (s : string) :
  (String.length s <= m)%nat -> str_take m s = s.
Proof.
  revert s; induction m as [|m IH]; intros [|c s]; simpl; auto; try lia.
  intros H. f_equal. apply IH. lia.
Qed.

(** A miss means that no prefix of the query is stored. *)
Lemma LongestPrefix_None t s m :
  LongestPrefix t s = None -> t !! str_take m s = None.
Proof.
  intros H.
  destruct (le_lt_dec m (String.length s)) as [Hle|Hgt].
  - eapply LongestPrefix_upto_None; eauto.
  - rewrite str_take_beyond by lia.
    rewrite <- (str_take_all s).
    eapply LongestPrefix_upto_None; eauto.
Qed.

Lemma LongestPrefix_Some t s k v :
  LongestPrefix t s = Some (k, v) ->
  t !! k = Some v /\
  exists m, (m <= String.length s)%nat /\ k = str_take m s /\
    forall m', (m < m' <= String.length s)%nat -> t !! str_take m' s = None.
Proof. apply LongestPrefix_upto_Some. Qed.

(** A stored key is its own longest prefix. *)
Lemma LongestPrefix_self t k v :
  t !! k = Some v -> LongestPrefix t k = Some (k, v).
Proof.
  intros H. unfold LongestPrefix.
  rewrite <- (str_take_all k) at 3.
  apply LongestPrefix_upto_intro; [lia| |intros; lia].
  rewrite str_take_all; exact H.
Qed.

(** A miss on a string is a miss on each of its prefixes. *)
Lemma LongestPrefix_None_take t s n :
  LongestPrefix t s = None -> LongestPrefix t (str_take n s) = None.
Proof.
  intros H.
  destruct (LongestPrefix t (str_take n s)) as [[k v]|] eqn:E; [|reflexivity].
  apply LongestPrefix_Some in E as (Hk & m & _ & -> & _).
  rewrite str_take_take in Hk.
  rewrite (LongestPrefix_None _ _ _ H) in Hk. discriminate.
Qed.

(** Inserting a prefix of a string that missed makes it the match. *)
Lemma LongestPrefix_insert_miss t s n v :
  LongestPrefix t s = None ->
  LongestPrefix (<[str_take n s := v]> t) s = Some (str_take n s, v).
Proof.
  intros H.
  set (m := Nat.min n (String.length s)).
  assert (Hk : str_take n s = str_take m s).
  { unfold m. destruct (le_lt_dec n (String.length s)).
    - rewrite Nat.min_l by lia. reflexivity.
    - rewrite Nat.min_r by lia. rewrite !str_take_beyond by lia. reflexivity. }
  rewrite Hk. apply LongestPrefix_upto_intro.
  - unfold m; lia.
  - apply lookup_insert_eq.
  - intros m' Hm'. rewrite lookup_insert_ne.
    + eapply LongestPrefix_None; eauto.
    + intros Heq. apply (f_equal String.length) in Heq.
      rewrite !str_take_length in Heq. unfold m in *. lia.
Qed.

(** Inserting a prefix of a string that missed keeps every other hit. *)
Lemma LongestPrefix_insert_other t s s' n k v v' :
  LongestPrefix t s' = None ->
  LongestPrefix t s = Some (k, v) ->
  LongestPrefix (<[str_take n s' := v']> t) s = Some (k, v).
Proof.
  intros Hmiss Hhit.
  apply LongestPrefix_Some in Hhit as (Hk & m & Hm & -> & Hgap).
  apply LongestPrefix_upto_intro; auto.
  - rewrite lookup_insert_ne; auto.
    intros Heq. rewrite <- Heq in Hk.
    rewrite (LongestPrefix_None _ _ _ Hmiss) in Hk. discriminate.
  - intros m' Hm'. rewrite lookup_insert_ne; auto.
    intros Heq.
    assert (Hpre : str_take m s = str_take (Nat.min m n) s').
    { rewrite <- str_take_take, Heq, str_take_take. f_equal. lia. }
    rewrite Hpre in Hk.
    rewrite (LongestPrefix_None _ _ _ Hmiss) in Hk. discriminate.
Qed.

End LongestPrefixFacts.

(** ** Running packer computations *)

Lemma bind_Some {A B} (m : M A) (k : A -> M B) (s : StoragePackerV2)
    (r : B * StoragePackerV2) :
  bind m k s = Some r <-> exists a s1, m s = Some (a, s1) /\ k a s1 = Some r.
Proof.
  unfold bind; split.
  - destruct (m s) as [[a s1]|]; [eauto|discriminate].
  - intros (a & s1 & -> & H); exact H.
Qed.

Lemma bind_run {A B} (m : M A) (k : A -> M B) (s s1 : StoragePackerV2) (a : A) :
  m s = Some (a, s1) -> bind m k s = k a s1.
Proof. unfold bind; intros ->; reflexivity. Qed.

(** Splitting one [bind] in a hypothesis [H : (x <- m ;; k) s = Some r]. *)
Tactic Notation "bind_inv" hyp(H) "as" ident(a) ident(s) ident(Hm) :=
  apply bind_Some in H; destruct H as (a & s & Hm & H).

Ltac prim_unfold :=
  unfold deref, assign, new_LockedBucket,
    bucketsCache_Insert, bucketsCache_Delete, bucketsCache_LongestPrefix,
    BucketStorageView_Get, BucketStorageView_Put, BucketStorageView_Delete in *;
  unfold ret, gets, modify, panic in *; cbv beta in *.

Section Routing.
Context `{ext : Externals}.

Lemma hexVal_slash_free (itemID : string) : slash_free (hexVal_of itemID) = true.
Proof. apply hex_slash_free. Qed.

Lemma GetCacheKey_hex_take (itemID : string) (n : nat) :
  GetCacheKey (str_take n (hexVal_of itemID)) = str_take n (hexVal_of itemID).
Proof.
  apply strip_slashes_free, slash_free_take, hexVal_slash_free.
Qed.

Lemma BucketStorageKeyForItemID_inv (itemID : string) (s s' : StoragePackerV2)
    (key : string) :
  BucketStorageKeyForItemID itemID s = Some (key, s') ->
  s' = s /\
  match LongestPrefix (bucketsCache s) (hexVal_of itemID) with
  | Some (_, l) => exists b, objects s !! l = Some b /\ key = Key b
  | None =>
      go_slice (hexVal_of itemID) 0 (Z.quot (BaseBucketBits (config s)) 4)
      = Some key
  end.
Proof.
  unfold BucketStorageKeyForItemID, bind. prim_unfold.
  destruct (LongestPrefix (bucketsCache s) (hexVal_of itemID)) as [[k l]|] eqn:E.
  - destruct (objects s !! l) as [b|]; cbv beta iota; [|discriminate].
    intros H; inversion H; subst; eauto.
  - destruct (go_slice _ _ _) as [ck|]; cbv beta iota; [|discriminate].
    rewrite E. intros H; inversion H; subst; auto.
Qed.

Lemma BucketStorageKeyForItemID_hit (itemID : string) (s : StoragePackerV2)
    (k : string) (l : loc) (b : Bucket) :
  LongestPrefix (bucketsCache s) (hexVal_of itemID) = Some (k, l) ->
  objects s !! l = Some b ->
  BucketStorageKeyForItemID itemID s = Some (Key b, s).
Proof.
  intros Hhit Hb. unfold BucketStorageKeyForItemID, bind. prim_unfold.
  rewrite Hhit, Hb. reflexivity.
Qed.

Lemma BucketStorageKeyForItemID_miss (itemID : string) (s : StoragePackerV2)
    (ck : string) :
  LongestPrefix (bucketsCache s) (hexVal_of itemID) = None ->
  go_slice (hexVal_of itemID) 0 (Z.quot (BaseBucketBits (config s)) 4) = Some ck ->
  BucketStorageKeyForItemID itemID s = Some (ck, s).
Proof.
  intros Hmiss Hslice. unfold BucketStorageKeyForItemID, bind. prim_unfold.
  rewrite Hmiss, Hslice, Hmiss. reflexivity.
Qed.

(** C4.  For every item id whose digest has the 32 bytes of the hash, on a
    packer whose cache entries point to bucket objects and whose base bits
    lie within the digest, [BucketStorageKeyForItemID] returns without
    changing the packer (so neither the backend nor the cache gains a
    bucket); the digest has 64 hex characters; on a longest-prefix hit the
    result is the matched bucket's [Key]; on a miss it is the first
    [BaseBucketBits/4] characters of the digest, which depends on the id
    and the base bits only. *)
Theorem BucketStorageKeyForItemID_spec (s : StoragePackerV2) (itemID : string) :
  length (Blake2b256Hash itemID) = 32%nat ->
  cache_wf s ->
  0 <= BaseBucketBits (config s) <= 256 ->
  exists key,
    BucketStorageKeyForItemID itemID s = Some (key, s) /\
    String.length (hexVal_of itemID) = 64%nat /\
    match LongestPrefix (bucketsCache s) (hexVal_of itemID) with
    | Some (_, l) => exists b, objects s !! l = Some b /\ key = Key b
    | None =>
        key = str_take (Z.to_nat (BaseBucketBits (config s) / 4)) (hexVal_of itemID)
    end.
Proof.
  intros Hlen Hwf Hbits.
  assert (H64 : String.length (hexVal_of itemID) = 64%nat).
  { unfold hexVal_of. rewrite hex_length, Hlen. reflexivity. }
  destruct (LongestPrefix (bucketsCache s) (hexVal_of itemID)) as [[k l]|] eqn:E.
  - destruct (LongestPrefix_Some _ _ _ _ E) as (Hk & _).
    destruct (Hwf _ _ Hk) as (b & Hb & _).
    exists (Key b). split; [|split; [exact H64|eauto]].
    eapply BucketStorageKeyForItemID_hit; eauto.
  - exists (str_take (Z.to_nat (BaseBucketBits (config s) / 4)) (hexVal_of itemID)).
    split; [|split; [exact H64|reflexivity]].
    apply BucketStorageKeyForItemID_miss; [exact E|].
    rewrite Z.quot_div_nonneg by lia.
    apply go_slice_0_in_range. rewrite H64.
    split; [apply Z.div_pos; lia|].
    apply Z.div_le_upper_bound; lia.
Qed.

Lemma empty_cache_wf (s : StoragePackerV2) : bucketsCache s = ∅ -> cache_wf s.
Proof. intros He k l H. rewrite He, lookup_empty in H. discriminate. Qed.

Lemma empty_queue_wf (s : StoragePackerV2) : queuedBuckets s = ∅ -> queue_wf s.
Proof. intros He k l H. rewrite He, lookup_empty in H. discriminate. Qed.

End Routing.

Lemma BucketStorageKeyForItemID_spec_witness :
  exists key,
    BucketStorageKeyForItemID "alice" (Demo.packer Demo.reliable)
    = Some (key, Demo.packer Demo.reliable) /\
    String.length (hexVal_of "alice") = 64%nat /\
    key = "61".
Proof.
  destruct (BucketStorageKeyForItemID_spec (Demo.packer Demo.reliable) "alice")
    as (key & Hrun & Hlen & Hkey).
  - reflexivity.
  - apply empty_cache_wf. reflexivity.
  - simpl. lia.
  - exists key. split; [exact Hrun|]. split; [exact Hlen|].
    vm_compute in Hkey. exact Hkey.
Defined.

(** ** Decoding a stored bucket *)

Section Decode.
Context `{ext : Externals}.

Lemma fresh_unallocated (o : gmap loc Bucket) : o !! fresh (dom o) = None.
Proof. apply not_elem_of_dom, is_fresh. Qed.

Lemma new_LockedBucket_inv (b : Bucket) (s s' : StoragePackerV2) (l : loc) :
  new_LockedBucket b s = Some (l, s') ->
  objects s !! l = None /\ s' = with_objects (<[l := b]> (objects s)) s.
Proof.
  unfold new_LockedBucket. intros H; inversion H; subst.
  split; [apply fresh_unallocated|reflexivity].
Qed.

Lemma DecodeBucket_inv (storageEntry : StorageEntry) (s s' : StoragePackerV2)
    (r : Result loc) :
  DecodeBucket storageEntry s = Some (r, s') ->
  match r with
  | Err _ => s' = s
  | Ok l =>
      exists data bucket,
        decode_input storageEntry = Ok data /\
        proto_Unmarshal data = Ok bucket /\
        objects s !! l = None /\
        s' = with_objects (<[l := with_Key (EntryKey storageEntry) bucket]> (objects s)) s
  end.
Proof.
  unfold DecodeBucket, decode_input.
  destruct (compressutil_Decompress _) as [[data nc]|e].
  2:{ intros H; inversion H; subst; reflexivity. }
  destruct (proto_Unmarshal _) as [bucket|e] eqn:Hu.
  2:{ intros H; inversion H; subst; reflexivity. }
  unfold bind. prim_unfold. simpl.
  rewrite lookup_insert_eq. intros H; inversion H; subst; clear H.
  eexists _, bucket. split; [reflexivity|]. split; [exact Hu|].
  split; [apply fresh_unallocated|].
  unfold with_objects; simpl. rewrite insert_insert_eq. reflexivity.
Qed.

Lemma DecodeBucket_total (storageEntry : StorageEntry) (s : StoragePackerV2) :
  exists r s', DecodeBucket storageEntry s = Some (r, s').
Proof.
  unfold DecodeBucket.
  destruct (compressutil_Decompress _) as [[data nc]|e]; [|eexists _, _; reflexivity].
  destruct (proto_Unmarshal _) as [bucket|e]; [|eexists _, _; reflexivity].
  unfold bind. prim_unfold. simpl. rewrite lookup_insert_eq.
  eexists _, _; reflexivity.
Qed.

(** C9.  Whenever [DecodeBucket] returns a bucket for a storage entry, that
    bucket is a new object equal to the record parsed from the entry's
    bytes except for its [Key], which is the entry's key whatever key the
    bytes carried. *)
Theorem DecodeBucket_key (storageEntry : StorageEntry) (s s' : StoragePackerV2)
    (lb : loc) :
  DecodeBucket storageEntry s = Some (Ok lb, s') ->
  exists data parsed b,
    decode_input storageEntry = Ok data /\
    proto_Unmarshal data = Ok parsed /\
    objects s' !! lb = Some b /\
    Key b = EntryKey storageEntry /\
    ItemMap b = ItemMap parsed /\
    Buckets b = Buckets parsed.
Proof.
  intros H. apply DecodeBucket_inv in H as (data & parsed & Hd & Hu & _ & ->).
  exists data, parsed, (with_Key (EntryKey storageEntry) parsed).
  repeat split; auto. simpl. apply lookup_insert_eq.
Qed.

End Decode.

Lemma DecodeBucket_key_witness :
  exists s' lb b,
    DecodeBucket
      (mkStorageEntry "61" (Byte.x01 :: list_byte_of_string "stale|alice"))
      (Demo.packer Demo.reliable) = Some (Ok lb, s') /\
    proto_Unmarshal (list_byte_of_string "stale|alice")
    = Ok (mkBucket "stale" {["alice" := None]} None) /\
    objects s' !! lb = Some b /\
    Key b = "61".
Proof.
  destruct (DecodeBucket_total
              (mkStorageEntry "61" (Byte.x01 :: list_byte_of_string "stale|alice"))
              (Demo.packer Demo.reliable)) as (r & s' & Hrun).
  destruct r as [lb|e]; [|vm_compute in Hrun; discriminate].
  destruct (DecodeBucket_key _ _ _ _ Hrun) as (data & parsed & b & _ & _ & Hb & Hk & _).
  exists s', lb, b. split; [exact Hrun|]. split; [reflexivity|]. split; assumption.
Defined.

(** ** Splitting and the "value too large" error *)

(** C1.  [shardBucket] as written, on a bucket with key ["61"], one item
    and an allocated children map, with 4 shard bits: it returns with six
    children (the bound [2^4] is an exclusive or) labelled ["0"] to ["5"],
    each with an empty key and no items, and the parent still holds its
    item; on a bucket whose children map is [nil] it panics. *)
Theorem shardBucket_as_written :
  match shardBucket 1%positive (Demo.loaded Demo.reliable (Some ∅)) with
  | Some (err, s') =>
      err = None /\
      objects s' !! 1%positive =
        Some (mkBucket "61" {["alice" := Some (mkAny "t" [Byte.x6f])]}
                (Some (list_to_map
                   (map (fun label => (label, mkBucket "" ∅ None))
                      ["0"; "1"; "2"; "3"; "4"; "5"])))) /\
      bucketsCache s' = bucketsCache (Demo.loaded Demo.reliable (Some ∅)) /\
      bucket_puts s' = Some []
  | None => False
  end /\
  shardBucket 1%positive (Demo.loaded Demo.reliable None) = None.
Proof. vm_compute. repeat split; reflexivity. Qed.

(** C2.  On a backend that answers every [put] with the "value too large"
    error, [PutItem] returns that error (wrapped) to its caller and splits
    nothing: the bucket stays whole in memory and nothing is stored;
    [DeleteItem] of the item does the same.  [PutBucket] on the same
    backend does catch the error and calls [shardBucket]. *)
Theorem PutItem_returns_too_large :
  match PutItem (Some Demo.alice) (Demo.packer Demo.too_small) with
  | Some (err, s') =>
      err = Some "failed to persist packed storage entry: put failed due to value being too large" /\
      bucketsCache s' !! "61" = Some 1%positive /\
      objects s' !! 1%positive =
        Some (mkBucket "61" {["alice" := Message Demo.alice]} None) /\
      persisted s' "61" = None /\
      match DeleteItem "alice" s' with
      | Some (err', s'') =>
          err' = Some "failed to persist packed storage entry: put failed due to value being too large" /\
          objects s'' !! 1%positive = Some (mkBucket "61" ∅ None)
      | None => False
      end
  | None => False
  end /\
  match PutBucket (Some 1%positive) (Demo.loaded Demo.too_small (Some ∅)) with
  | Some (err, s') =>
      err = None /\
      (exists b children,
         objects s' !! 1%positive = Some b /\ Buckets b = Some children /\
         size children = 6%nat) /\
      persisted s' "61" = None
  | None => False
  end.
Proof.
  vm_compute. repeat split; try reflexivity.
  eexists _, _. repeat split; reflexivity.
Qed.

(** ** Opening a packer *)

Section OpenFacts.
Context `{ext : Externals}.

Lemma puts_of_get (v : StorageView) (k : string) :
  puts_of (sv_called (OpGet k) v) = puts_of v.
Proof.
  unfold puts_of, sv_called; simpl.
  rewrite List.filter_app; simpl. apply app_nil_r.
Qed.

Lemma sv_Get_inv (v v' : StorageView) (key : string)
    (r : Result (option StorageEntry)) :
  sv_Get v key = (r, v') ->
  v' = sv_called (OpGet (sv_prefix v ++ key)) v /\
  match r with
  | Ok entry => entry = mkStorageEntry key <$> sv_data v !! (sv_prefix v ++ key)
  | Err _ => True
  end.
Proof.
  unfold sv_Get. destruct (sv_fault _ _ _); intros H; inversion H; subst; auto.
Qed.

(** No path through [NewStoragePackerV2] writes to the config view: the flag
    [needPersist] is declared false and only ever assigned false. *)
Lemma NewStoragePackerV2_config_view (config config' : Config)
    (r : Result StoragePackerV2) (cv : StorageView) :
  ConfigStorageView config = Some cv ->
  NewStoragePackerV2 config = (r, config') ->
  ConfigStorageView config' = Some cv \/
  ConfigStorageView config' = Some (sv_called (OpGet (sv_prefix cv ++ "config")) cv).
Proof.
  intros Hcv. unfold NewStoragePackerV2.
  destruct (BucketStorageView config) as [bv|].
  2:{ intros H; inversion H; subst; auto. }
  simpl. rewrite Hcv.
  destruct (sv_Get cv "config") as [entry cv'] eqn:Hget.
  apply sv_Get_inv in Hget as [-> _].
  destruct entry as [[entry|]|e]; simpl.
  - destruct (DecodeJSON_config _); simpl;
      repeat (case_decide; simpl); intros Hr; inversion Hr; subst; auto.
  - repeat (case_decide; simpl); intros Hr; inversion Hr; subst; auto.
  - intros Hr; inversion Hr; subst; auto.
Qed.

End OpenFacts.

(** C6.  Opening a packer with base 8 and shard 4 against an empty config
    store succeeds and leaves the store empty: no [put] was made and the
    key ["config"] is absent.  A second open against that store asking for
    base 16 therefore gets 16. *)
Theorem NewStoragePackerV2_never_persists :
  match NewStoragePackerV2 (Demo.fresh_config Demo.reliable 8 4) with
  | (Ok p, config') =>
      BaseBucketBits (config p) = 8 /\
      match ConfigStorageView config' with
      | Some configView =>
          sv_data configView !! "config" = None /\
          puts_of configView = [] /\
          match NewStoragePackerV2
                  (mkConfig (Some (Demo.empty_view Demo.reliable))
                     (Some configView) 16 4) with
          | (Ok p', _) => BaseBucketBits (config p') = 16
          | _ => False
          end
      | None => False
      end
  | _ => False
  end.
Proof. vm_compute. repeat split; reflexivity. Qed.

(** ** Storing a bucket *)

Section Store.
Context `{ext : Externals}.

Lemma storeBucket_stores (l : loc) (s s' : StoragePackerV2) (r : option error) :
  storeBucket l s = Some (r, s') -> stores s l r s'.
Proof.
  unfold storeBucket, bind. prim_unfold.
  destruct (objects s !! l) as [b|] eqn:Hb; [|discriminate].
  case_decide as Hq.
  - intros H; inversion H; subst. eapply stores_queued; eauto.
  - destruct (proto_Marshal b) as [m|e] eqn:Hm.
    2:{ intros H; inversion H; subst. eapply stores_marshal_error; eauto. }
    destruct (compressutil_Compress m) as [c|e] eqn:Hc.
    2:{ intros H; inversion H; subst. eapply stores_compress_error; eauto. }
    destruct (BucketStorageView (config s)) as [v|] eqn:Hv; [|discriminate].
    destruct (sv_Put v _) as [[e|] v'] eqn:Hp;
      intros H; inversion H; subst.
    + eapply stores_put_error; eauto. unfold encoded. rewrite Hm. exact Hc.
    + eapply stores_put; eauto. unfold encoded. rewrite Hm. exact Hc.
Qed.

Lemma storeBucket_queued (l : loc) (s : StoragePackerV2) (b : Bucket) :
  queueMode s = 1 ->
  objects s !! l = Some b ->
  storeBucket l s
  = Some (None, with_queuedBuckets (<[Key b := l]> (queuedBuckets s)) s).
Proof.
  intros Hq Hb. unfold storeBucket, bind. prim_unfold.
  rewrite Hb. case_decide; [reflexivity|contradiction].
Qed.

Lemma puts_of_other (v : StorageView) (op : BackendOp) :
  is_put op = false -> puts_of (sv_called op v) = puts_of v.
Proof.
  intros H. unfold puts_of, sv_called; simpl.
  rewrite List.filter_app; simpl. rewrite H. apply app_nil_r.
Qed.

Lemma sv_Put_inv (v v' : StorageView) (entry : StorageEntry) (r : option error) :
  sv_Put v entry = (r, v') ->
  sv_prefix v' = sv_prefix v /\
  sv_fault v' = sv_fault v /\
  sv_data v' =
    match r with
    | None => <[sv_prefix v ++ EntryKey entry := EntryValue entry]> (sv_data v)
    | Some _ => sv_data v
    end.
Proof.
  unfold sv_Put. destruct (sv_fault _ _ _); intros H; inversion H; subst; auto.
Qed.

(** [storeBucket] touches neither the bucket objects nor the cache. *)
Lemma stores_memory (s s' : StoragePackerV2) (l : loc) (r : option error) :
  stores s l r s' ->
  objects s' = objects s /\ bucketsCache s' = bucketsCache s /\
  queueMode s' = queueMode s /\
  BaseBucketBits (config s') = BaseBucketBits (config s).
Proof. destruct 1; auto. Qed.

(** In queue mode [storeBucket] leaves the whole configuration, the bucket
    view included, as it was. *)
Lemma stores_queue_mode (s s' : StoragePackerV2) (l : loc) (r : option error) :
  stores s l r s' ->
  queueMode s = 1 ->
  r = None /\ config s' = config s /\
  exists b, objects s !! l = Some b /\
    queuedBuckets s' = <[Key b := l]> (queuedBuckets s).
Proof. destruct 1; intros Hq; try contradiction. eauto. Qed.

End Store.

(** ** Flushing the queue *)

Section Flush.
Context `{ext : Externals}.

Lemma append_inj_l (p x y : string) : (p ++ x)%string = (p ++ y)%string -> x = y.
Proof.
  induction p as [|c p IH]; simpl; intros H; [exact H|].
  injection H; auto.
Qed.

Lemma FlushQueue_range_step (k : string) (l : loc) (rest : list (string * loc))
    (errs errs' : list error) (s s' : StoragePackerV2) :
  FlushQueue_range ((k, l) :: rest) errs s = Some (errs', s') ->
  exists lErr s1,
    stores s l lErr s1 /\
    FlushQueue_range rest
      (match lErr with Some e => errs ++ [e] | None => errs end)
      (with_queuedBuckets (delete k (queuedBuckets s1)) s1)
    = Some (errs', s').
Proof.
  cbn [FlushQueue_range]. intros H. bind_inv H as lErr s1 Hm.
  apply storeBucket_stores in Hm.
  exists lErr, s1. split; [exact Hm|]. exact H.
Qed.

Lemma FlushQueue_range_memory (entries : list (string * loc))
    (errs errs' : list error) (s s' : StoragePackerV2) :
  FlushQueue_range entries errs s = Some (errs', s') ->
  objects s' = objects s /\ bucketsCache s' = bucketsCache s /\
  queueMode s' = queueMode s /\
  (length errs <= length errs')%nat.
Proof.
  revert errs s. induction entries as [|[k l] rest IH]; intros errs s H.
  - inversion H; subst; auto.
  - apply FlushQueue_range_step in H as (lErr & s1 & Hst & H).
    apply stores_memory in Hst as (Ho & Hc & Hq & _).
    apply IH in H as (Ho' & Hc' & Hq' & Hlen). simpl in *.
    repeat split; try congruence.
    destruct lErr; [rewrite length_app in Hlen; simpl in Hlen|]; lia.
Qed.

(** Every visited entry filed under its bucket's key is gone afterwards,
    whether or not storing it failed and whatever the queue mode. *)
Lemma FlushQueue_range_queue (entries : list (string * loc))
    (errs errs' : list error) (s s' : StoragePackerV2) :
  (forall k l b, (k, l) ∈ entries -> objects s !! l = Some b -> Key b = k) ->
  FlushQueue_range entries errs s = Some (errs', s') ->
  forall k', queuedBuckets s' !! k' =
             if decide (k' ∈ entries.*1) then None else queuedBuckets s !! k'.
Proof.
  revert errs s. induction entries as [|[k l] rest IH]; intros errs s Hwf H k'.
  - inversion H; subst. rewrite decide_False; [reflexivity|]. simpl. set_solver.
  - apply FlushQueue_range_step in H as (lErr & s1 & Hst & H).
    assert (Hq1 : delete k (queuedBuckets s1) = delete k (queuedBuckets s)).
    { destruct Hst as [b Hq Hb| | | |]; simpl; auto.
      rewrite (Hwf k l b) by (auto; set_solver).
      apply delete_insert_eq. }
    pose proof (stores_memory _ _ _ _ Hst) as (Ho & _).
    assert (Hwf' : forall k0 l0 b0, (k0, l0) ∈ rest ->
              objects (with_queuedBuckets (delete k (queuedBuckets s1)) s1) !! l0
              = Some b0 -> Key b0 = k0).
    { simpl. intros k0 l0 b0 Hin Hb0. rewrite Ho in Hb0.
      eapply Hwf; eauto. set_solver. }
    rewrite (IH _ _ Hwf' H k'). simpl. rewrite Hq1.
    destruct (decide (k' = k)) as [->|Hne].
    + rewrite lookup_delete_eq.
      repeat case_decide; try reflexivity; exfalso; set_solver.
    + rewrite lookup_delete_ne by auto.
      repeat case_decide; try reflexivity; exfalso; set_solver.
Qed.

Lemma FlushQueue_inv (s s' : StoragePackerV2) (r : option (list error)) :
  FlushQueue s = Some (r, s') ->
  exists errs,
    FlushQueue_range (map_to_list (queuedBuckets s)) [] s = Some (errs, s') /\
    r = ErrorOrNil errs.
Proof.
  unfold FlushQueue. intros H. bind_inv H as q s1 Hm. unfold gets in Hm.
  inversion Hm; subst; clear Hm. bind_inv H as errs s2 Hm.
  unfold ret in H. inversion H; subst. eauto.
Qed.

Lemma FlushQueue_empty (s : StoragePackerV2) :
  queuedBuckets s = ∅ -> FlushQueue s = Some (None, s).
Proof.
  intros He. unfold FlushQueue, bind, gets. rewrite He, map_to_list_empty.
  reflexivity.
Qed.

(** Whatever [FlushQueue] returns, the queue is empty afterwards. *)
Lemma FlushQueue_empties (s s' : StoragePackerV2) (r : option (list error)) :
  queue_wf s ->
  FlushQueue s = Some (r, s') ->
  queuedBuckets s' = ∅.
Proof.
  intros Hwf H. apply FlushQueue_inv in H as (errs & Hrange & ->).
  assert (Hfiled : forall k l b, (k, l) ∈ map_to_list (queuedBuckets s) ->
            objects s !! l = Some b -> Key b = k).
  { intros k l b Hin Hb. apply elem_of_map_to_list in Hin.
    destruct (Hwf _ _ Hin) as (b' & Hb' & Hk). congruence. }
  apply map_empty. intros k'.
  rewrite (FlushQueue_range_queue _ _ _ _ _ Hfiled Hrange k').
  case_decide as Hk; [reflexivity|].
  destruct (queuedBuckets s !! k') as [l|] eqn:E; [|reflexivity].
  exfalso. apply Hk. apply list_elem_of_fmap. exists (k', l). split; [reflexivity|].
  apply elem_of_map_to_list. exact E.
Qed.

(** In queue mode the walk of [FlushQueue] collects no error and leaves the
    configuration, the bucket view included, as it was. *)
Lemma FlushQueue_range_queue_mode (entries : list (string * loc))
    (errs errs' : list error) (s s' : StoragePackerV2) :
  queueMode s = 1 ->
  FlushQueue_range entries errs s = Some (errs', s') ->
  errs' = errs /\ config s' = config s.
Proof.
  revert errs s. induction entries as [|[k l] rest IH]; intros errs s Hq H.
  - inversion H; auto.
  - apply FlushQueue_range_step in H as (lErr & s1 & Hst & H).
    destruct Hst as [b _ Hb| | | |]; try congruence.
    apply IH in H as [-> Hcfg]; [|exact Hq]. auto.
Qed.

(** The errors [FlushQueue] collects are the failures of its [storeBucket]
    calls, all of them, in the order of the walk. *)
Lemma FlushQueue_range_trace (entries : list (string * loc))
    (errs errs' : list error) (s s' : StoragePackerV2) :
  FlushQueue_range entries errs s = Some (errs', s') ->
  exists outcomes,
    flush_trace s entries outcomes s' /\
    errs' = (errs ++ omap id outcomes)%list.
Proof.
  revert errs s. induction entries as [|[k l] rest IH]; intros errs s H.
  - inversion H; subst. exists []. split; [constructor|].
    simpl. rewrite app_nil_r. reflexivity.
  - cbn [FlushQueue_range] in H. bind_inv H as lErr s1 Hst.
    unfold bind at 1, modify in H.
    apply IH in H as (outcomes & Htrace & ->).
    exists (lErr :: outcomes). split; [econstructor; eauto|].
    destruct lErr as [e|]; simpl; [rewrite <- app_assoc|]; reflexivity.
Qed.

Lemma flush_trace_length (s s' : StoragePackerV2) (entries : list (string * loc))
    (outcomes : list (option error)) :
  flush_trace s entries outcomes s' -> length outcomes = length entries.
Proof. induction 1; simpl; auto. Qed.

Lemma ErrorOrNil_failures (outcomes : list (option error)) :
  (ErrorOrNil (omap id outcomes) = None <-> forall o, o ∈ outcomes -> o = None) /\
  (forall e, Some e ∈ outcomes ->
     exists errs, ErrorOrNil (omap id outcomes) = Some errs /\ e ∈ errs).
Proof.
  split; [split|].
  - intros H o Ho. destruct o as [e|]; [|reflexivity].
    assert (He : e ∈ omap id outcomes) by (apply list_elem_of_omap; exists (Some e); auto).
    destruct (omap id outcomes); [inversion He|discriminate].
  - intros H. destruct (omap id outcomes) as [|e errs] eqn:E; [reflexivity|].
    assert (He : e ∈ omap id outcomes) by (rewrite E; left).
    apply list_elem_of_omap in He as (o & Ho & Hid).
    rewrite (H o Ho) in Hid. discriminate.
  - intros e He.
    assert (He' : e ∈ omap id outcomes) by (apply list_elem_of_omap; exists (Some e); auto).
    destruct (omap id outcomes) as [|e0 errs] eqn:E; [inversion He'|].
    exists (e0 :: errs). split; [reflexivity|exact He'].
Qed.

(** C10.  From a packer whose queued entries are filed under their
    buckets' keys, whatever [FlushQueue] returns, the queue is empty
    afterwards (an entry whose [storeBucket] failed is dropped like the
    others), and a second [FlushQueue] called right after returns [nil] and
    changes nothing.  The returned error is the aggregate of the failures:
    [storeBucket] was called once for every queued entry, and the call
    returns exactly the list of the errors those calls returned, in the
    order of the walk; so it returns [nil] only when every [storeBucket]
    returned [nil], and every failure is in the returned error. *)
Theorem FlushQueue_drops_every_entry (s s' : StoragePackerV2)
    (r : option (list error)) :
  queue_wf s ->
  FlushQueue s = Some (r, s') ->
  queuedBuckets s' = ∅ /\
  (forall errs, r = Some errs -> errs <> []) /\
  FlushQueue s' = Some (None, s') /\
  exists outcomes,
    flush_trace s (map_to_list (queuedBuckets s)) outcomes s' /\
    length outcomes = size (queuedBuckets s) /\
    r = ErrorOrNil (omap id outcomes) /\
    (r = None <-> forall o, o ∈ outcomes -> o = None) /\
    (forall e, Some e ∈ outcomes -> exists errs, r = Some errs /\ e ∈ errs).
Proof.
  intros Hwf H.
  pose proof (FlushQueue_empties _ _ _ Hwf H) as Hempty.
  apply FlushQueue_inv in H as (errs & Hrange & ->).
  split; [exact Hempty|]. split; [|split].
  - intros errs0. destruct errs; simpl; congruence.
  - apply FlushQueue_empty. exact Hempty.
  - apply FlushQueue_range_trace in Hrange as (outcomes & Htrace & ->).
    simpl. exists outcomes. split; [exact Htrace|]. split.
    + rewrite (flush_trace_length _ _ _ _ Htrace). apply length_map_to_list.
    + split; [reflexivity|]. apply ErrorOrNil_failures.
Qed.

End Flush.

Lemma Demo_queued_wf (fault : list BackendOp -> BackendOp -> option error) :
  queue_wf (Demo.queued fault).
Proof.
  intros k l H. simpl in H. apply lookup_singleton_Some in H as [<- <-].
  eexists. split; reflexivity.
Qed.

Lemma FlushQueue_drops_every_entry_witness :
  exists errs s',
    FlushQueue (Demo.queued Demo.broken_disk) = Some (Some errs, s') /\
    errs = ["failed to persist packed storage entry: i/o timeout"] /\
    persisted s' "61" = None /\
    queuedBuckets s' = ∅ /\
    FlushQueue s' = Some (None, s').
Proof.
  destruct (FlushQueue (Demo.queued Demo.broken_disk)) as [[r s']|] eqn:E.
  2:{ vm_compute in E. discriminate. }
  destruct (FlushQueue_drops_every_entry _ _ _ (Demo_queued_wf _) E)
    as (Hq & _ & Hagain & _).
  vm_compute in E. inversion E; subst r s'; clear E.
  eexists _, _. split; [reflexivity|]. split; [reflexivity|].
  split; [reflexivity|]. split; [exact Hq|exact Hagain].
Defined.

Section FlushPersists.
Context `{ext : Externals}.

Lemma stores_persisted_other (s s' : StoragePackerV2) (l : loc)
    (r : option error) (x : string) :
  stores s l r s' ->
  (forall b, objects s !! l = Some b -> Key b <> x) ->
  persisted s' x = persisted s x.
Proof.
  intros Hst Hne.
  destruct Hst as [b Hq Hb|b e Hq Hb Hm|b m e Hq Hb Hm Hc
                  |b data v v' e Hq Hb He Hv Hp|b data v v' Hq Hb He Hv Hp];
    try reflexivity.
  - apply sv_Put_inv in Hp as (Hpre & _ & Hdata).
    unfold persisted; simpl. rewrite Hv, Hpre, Hdata. reflexivity.
  - apply sv_Put_inv in Hp as (Hpre & _ & Hdata).
    unfold persisted; simpl. rewrite Hv, Hpre, Hdata. simpl.
    apply lookup_insert_ne. intros Heq. apply append_inj_l in Heq.
    exact (Hne b Hb Heq).
Qed.

Lemma stores_persisted (s s' : StoragePackerV2) (l : loc) (b : Bucket) :
  stores s l None s' ->
  queueMode s <> 1 ->
  objects s !! l = Some b ->
  exists data, encoded b = Ok data /\ persisted s' (Key b) = Some data.
Proof.
  intros Hst Hq Hb. inversion Hst as [b' Hq' Hb'| | | |b' data v v' _ Hb' He Hv Hp];
    subst; [contradiction|].
  assert (b' = b) by congruence; subst b'.
  exists data. split; [exact He|].
  apply sv_Put_inv in Hp as (Hpre & _ & Hdata).
  unfold persisted; simpl. rewrite Hpre, Hdata. simpl. apply lookup_insert_eq.
Qed.

Lemma FlushQueue_range_persisted_other (entries : list (string * loc))
    (errs errs' : list error) (s s' : StoragePackerV2) (x : string) :
  (forall k l b, (k, l) ∈ entries -> objects s !! l = Some b -> Key b = k) ->
  FlushQueue_range entries errs s = Some (errs', s') ->
  x ∉ entries.*1 ->
  persisted s' x = persisted s x.
Proof.
  revert errs s. induction entries as [|[k l] rest IH]; intros errs s Hwf H Hx.
  - inversion H; subst; reflexivity.
  - apply FlushQueue_range_step in H as (lErr & s1 & Hst & H).
    pose proof (stores_memory _ _ _ _ Hst) as (Ho & _).
    assert (Hwf' : forall k1 l1 b1, (k1, l1) ∈ rest ->
              objects (with_queuedBuckets (delete k (queuedBuckets s1)) s1) !! l1
              = Some b1 -> Key b1 = k1).
    { simpl. intros k1 l1 b1 Hin1 Hb1. rewrite Ho in Hb1.
      eapply Hwf; eauto. set_solver. }
    rewrite (IH _ _ Hwf' H) by set_solver.
    change (persisted s1 x = persisted s x).
    eapply stores_persisted_other; [exact Hst|].
    intros b Hb Hk. rewrite (Hwf k l b) in Hk by (auto; set_solver).
    subst x. set_solver.
Qed.

(** With queue mode off, a walk that adds no error has stored every
    entry's bucket, as it is in memory, under the bucket's key. *)
Lemma FlushQueue_range_persisted (entries : list (string * loc))
    (errs errs' : list error) (s s' : StoragePackerV2) :
  queueMode s <> 1 ->
  NoDup entries.*1 ->
  (forall k l b, (k, l) ∈ entries -> objects s !! l = Some b -> Key b = k) ->
  FlushQueue_range entries errs s = Some (errs', s') ->
  length errs' = length errs ->
  forall k l b, (k, l) ∈ entries -> objects s !! l = Some b ->
    exists data, encoded b = Ok data /\ persisted s' k = Some data.
Proof.
  revert errs s. induction entries as [|[k l] rest IH];
    intros errs s Hq Hnd Hwf H Hlen k0 l0 b0 Hin Hb0.
  - set_solver.
  - apply FlushQueue_range_step in H as (lErr & s1 & Hst & H).
    pose proof (stores_memory _ _ _ _ Hst) as (Ho & _ & Hq1 & _).
    pose proof (FlushQueue_range_memory _ _ _ _ _ H) as (_ & _ & _ & Hle).
    destruct lErr as [e|].
    { rewrite length_app in Hle; simpl in Hle. lia. }
    assert (Hwf' : forall k1 l1 b1, (k1, l1) ∈ rest ->
              objects (with_queuedBuckets (delete k (queuedBuckets s1)) s1) !! l1
              = Some b1 -> Key b1 = k1).
    { simpl. intros k1 l1 b1 Hin1 Hb1. rewrite Ho in Hb1.
      eapply Hwf; eauto. set_solver. }
    simpl in Hnd. apply NoDup_cons in Hnd as [Hk Hnd].
    apply elem_of_cons in Hin as [Heq|Hin].
    + inversion Heq; subst k0 l0; clear Heq.
      destruct (stores_persisted _ _ _ _ Hst Hq Hb0) as (data & He & Hp).
      exists data. split; [exact He|].
      rewrite (FlushQueue_range_persisted_other _ _ _ _ _ k Hwf' H Hk).
      rewrite (Hwf k l b0) in Hp by (auto; set_solver). exact Hp.
    + eapply (IH _ _ _ Hnd Hwf' H Hlen); eauto.
      simpl. rewrite Ho. exact Hb0.
  Unshelve. simpl. congruence.
Qed.

(** A successful [FlushQueue] with queue mode off leaves every queued
    bucket, as it is in memory, in the bucket view. *)
Lemma FlushQueue_persists (s s' : StoragePackerV2) :
  queueMode s <> 1 ->
  queue_wf s ->
  FlushQueue s = Some (None, s') ->
  forall k l b, queuedBuckets s !! k = Some l -> objects s !! l = Some b ->
    exists data, encoded b = Ok data /\ persisted s' (Key b) = Some data.
Proof.
  intros Hq Hwf H k l b Hk Hb.
  apply FlushQueue_inv in H as (errs & Hrange & Hr).
  destruct errs; [|discriminate].
  destruct (Hwf _ _ Hk) as (b' & Hb' & Hkey).
  assert (b' = b) by congruence; subst b'. rewrite Hkey.
  eapply FlushQueue_range_persisted; eauto.
  - apply NoDup_fst_map_to_list.
  - intros k0 l0 b0 Hin Hb0. apply elem_of_map_to_list in Hin.
    destruct (Hwf _ _ Hin) as (b1 & Hb1 & Hk1). congruence.
  - apply elem_of_map_to_list. exact Hk.
Qed.

End FlushPersists.

(** ** The item operations, step by step *)

Ltac prim_inv H :=
  cbv beta iota delta [ret gets modify panic assign bucketsCache_Insert
    bucketsCache_Delete bucketsCache_LongestPrefix] in H;
  try (inversion H; subst; clear H).

Section ItemOps.
Context `{ext : Externals}.

Lemma BucketStorageView_Get_inv (key : string) (s s' : StoragePackerV2)
    (r : Result (option StorageEntry)) :
  BucketStorageView_Get key s = Some (r, s') ->
  exists v v', BucketStorageView (config s) = Some v /\
               sv_Get v key = (r, v') /\ s' = with_view v' s.
Proof.
  unfold BucketStorageView_Get.
  destruct (BucketStorageView (config s)) as [v|]; [|discriminate].
  destruct (sv_Get v key) as [r' v'] eqn:E.
  intros H; inversion H; subst. eauto.
Qed.

(** The lookup with which the three item operations start, on a packer
    with a well-formed cache: on a hit the second lookup, by the found
    bucket's cache key, returns that same bucket; on a miss the second
    lookup, by the digest prefix, misses too. *)
Lemma lookup_twice (itemID : string) (s s1 : StoragePackerV2) (bucketKey : string) :
  cache_wf s ->
  BucketStorageKeyForItemID itemID s = Some (bucketKey, s1) ->
  s1 = s /\
  ((exists k l b,
      LongestPrefix (bucketsCache s) (hexVal_of itemID) = Some (k, l) /\
      objects s !! l = Some b /\ bucketKey = Key b /\
      LongestPrefix (bucketsCache s) (GetCacheKey bucketKey) = Some (k, l)) \/
   (LongestPrefix (bucketsCache s) (hexVal_of itemID) = None /\
    go_slice (hexVal_of itemID) 0 (Z.quot (BaseBucketBits (config s)) 4)
    = Some bucketKey /\
    GetCacheKey bucketKey = bucketKey /\
    LongestPrefix (bucketsCache s) (GetCacheKey bucketKey) = None)).
Proof.
  intros Hwf H. apply BucketStorageKeyForItemID_inv in H as [-> Hkey].
  split; [reflexivity|].
  destruct (LongestPrefix (bucketsCache s) (hexVal_of itemID)) as [[k l]|] eqn:Hlp.
  - left. destruct Hkey as (b & Hb & ->).
    pose proof (LongestPrefix_Some _ _ _ _ Hlp) as (Hk & _).
    destruct (Hwf _ _ Hk) as (b' & Hb' & Hck).
    assert (b' = b) by congruence; subst b'.
    exists k, l, b. repeat split; auto.
    rewrite Hck. apply LongestPrefix_self. exact Hk.
  - right. pose proof (go_slice_0 _ _ _ Hkey) as [-> _].
    rewrite GetCacheKey_hex_take.
    repeat split; auto. apply LongestPrefix_None_take. exact Hlp.
Qed.

Lemma size_zero_lookup {A} (m : gmap string A) (k : string) :
  size m = 0%nat -> m !! k = None.
Proof. intros H. apply map_size_empty_iff in H. subst. apply lookup_empty. Qed.

Lemma GetItem_tail (itemID : string) (s s' : StoragePackerV2) (l : loc)
    (b : Bucket) (r : Result (option Item)) :
  objects s !! l = Some b ->
  (b0 <- deref l ;;
   if decide (size (ItemMap b0) = 0%nat) then ret (Ok None)
   else match ItemMap b0 !! itemID with
        | Some item => ret (Ok (Some (mkItem itemID item)))
        | None => ret (Ok None)
        end) s = Some (r, s') ->
  s' = s /\ r = Ok (mkItem itemID <$> ItemMap b !! itemID).
Proof.
  intros Hb Hrun. unfold bind, deref in Hrun. rewrite Hb in Hrun.
  case_decide as Hsz.
  - prim_inv Hrun. rewrite (size_zero_lookup _ _ Hsz). auto.
  - destruct (ItemMap b !! itemID); prim_inv Hrun; auto.
Qed.

Lemma GetItem_inv (itemID : string) (s s' : StoragePackerV2)
    (r : Result (option Item)) :
  itemID <> "" ->
  cache_wf s ->
  GetItem itemID s = Some (r, s') ->
  exists res,
    resolves s itemID s' res /\
    match res with
    | ResFailed e => r = Err e
    | ResAbsent _ => r = Ok None
    | ResBucket l =>
        exists b, objects s' !! l = Some b /\
                  r = Ok (mkItem itemID <$> ItemMap b !! itemID)
    end.
Proof.
  intros Hid Hwf H. unfold GetItem in H.
  rewrite decide_False in H by exact Hid.
  bind_inv H as bucketKey s1 Hk.
  apply (lookup_twice _ _ _ _ Hwf) in Hk as [-> Hlook].
  bind_inv H as hit s2 Hl. prim_inv Hl.
  bind_inv H as found s3 Hf.
  destruct Hlook as [(k & l & b & Hlp & Hb & -> & Hlp2)|(Hlp & Hsl & Hck & Hlp2)];
    rewrite Hlp2 in Hf.
  - prim_inv Hf.
    destruct (GetItem_tail _ _ _ _ _ _ Hb H) as [-> ->].
    exists (ResBucket l). split; [eapply resolves_cached; eauto|eauto].
  - rewrite Hck in Hf. bind_inv Hf as g s4 Hg.
    apply BucketStorageView_Get_inv in Hg as (v & v' & Hv & Hget & ->).
    destruct g as [[storageEntry|]|e].
    + bind_inv Hf as d s5 Hd. destruct d as [l|e].
      * pose proof (DecodeBucket_inv _ _ _ _ Hd) as (data & parsed & _ & _ & _ & Hs5).
        bind_inv Hf as u s6 Hi. prim_inv Hi. prim_inv Hf.
        eapply GetItem_tail in H as [-> ->]; [|simpl; apply lookup_insert_eq].
        exists (ResBucket l).
        split; [exact (resolves_loaded _ _ _ _ _ _ _ _ Hlp Hsl Hv Hget Hd)|].
        eexists. split; [simpl; apply lookup_insert_eq|reflexivity].
      * pose proof (DecodeBucket_inv _ _ _ _ Hd) as ->. prim_inv Hf. prim_inv H.
        eexists (ResFailed _). split; [eapply resolves_decode_error; eauto|reflexivity].
    + prim_inv Hf. prim_inv H.
      exists (ResAbsent bucketKey). split; [eapply resolves_absent; eauto|reflexivity].
    + prim_inv Hf. prim_inv H.
      eexists (ResFailed _). split; [eapply resolves_read_error; eauto|reflexivity].
Qed.

Lemma DeleteItem_tail (itemID : string) (s s' : StoragePackerV2) (l : loc)
    (b : Bucket) (r : option error) :
  objects s !! l = Some b ->
  (b0 <- deref l ;;
   if decide (size (ItemMap b0) = 0%nat) then ret None
   else match ItemMap b0 !! itemID with
        | None => ret None
        | Some _ =>
            assign l (with_ItemMap (delete itemID (ItemMap b0)) b0) ;;;
            storeBucket l
        end) s = Some (r, s') ->
  match ItemMap b !! itemID with
  | None => r = None /\ s' = s
  | Some _ => stores (removed l b itemID s) l r s'
  end.
Proof.
  intros Hb Hrun. unfold bind, deref in Hrun. rewrite Hb in Hrun.
  case_decide as Hsz.
  - prim_inv Hrun. rewrite (size_zero_lookup _ _ Hsz). auto.
  - destruct (ItemMap b !! itemID); [|prim_inv Hrun; auto].
    prim_inv Hrun. apply storeBucket_stores. assumption.
Qed.

Lemma DeleteItem_inv (itemID : string) (s s' : StoragePackerV2)
    (r : option error) :
  itemID <> "" ->
  cache_wf s ->
  DeleteItem itemID s = Some (r, s') ->
  exists s1 res,
    resolves s itemID s1 res /\
    match res with
    | ResFailed e => r = Some e /\ s' = s1
    | ResAbsent _ => r = None /\ s' = s1
    | ResBucket l =>
        exists b, objects s1 !! l = Some b /\
          match ItemMap b !! itemID with
          | None => r = None /\ s' = s1
          | Some _ => stores (removed l b itemID s1) l r s'
          end
    end.
Proof.
  intros Hid Hwf H. unfold DeleteItem in H.
  rewrite decide_False in H by exact Hid.
  bind_inv H as bucketKey s1 Hk.
  apply (lookup_twice _ _ _ _ Hwf) in Hk as [-> Hlook].
  bind_inv H as hit s2 Hl. prim_inv Hl.
  bind_inv H as found s3 Hf.
  destruct Hlook as [(k & l & b & Hlp & Hb & -> & Hlp2)|(Hlp & Hsl & Hck & Hlp2)];
    rewrite Hlp2 in Hf.
  - prim_inv Hf.
    pose proof (DeleteItem_tail _ _ _ _ _ _ Hb H) as Htail.
    eexists _, (ResBucket l). split; [eapply resolves_cached; eauto|eauto].
  - rewrite Hck in Hf. bind_inv Hf as g s4 Hg.
    apply BucketStorageView_Get_inv in Hg as (v & v' & Hv & Hget & ->).
    destruct g as [[storageEntry|]|e].
    + bind_inv Hf as d s5 Hd. destruct d as [l|e].
      * pose proof (DecodeBucket_inv _ _ _ _ Hd) as (data & parsed & _ & _ & _ & Hs5).
        bind_inv Hf as u s6 Hi. prim_inv Hi. prim_inv Hf.
        eapply DeleteItem_tail in H; [|simpl; apply lookup_insert_eq].
        eexists _, (ResBucket l).
        split; [exact (resolves_loaded _ _ _ _ _ _ _ _ Hlp Hsl Hv Hget Hd)|].
        eexists. split; [simpl; apply lookup_insert_eq|exact H].
      * pose proof (DecodeBucket_inv _ _ _ _ Hd) as ->. prim_inv Hf. prim_inv H.
        eexists _, (ResFailed _).
        split; [eapply resolves_decode_error; eauto|auto].
    + prim_inv Hf. prim_inv H.
      eexists _, (ResAbsent bucketKey).
      split; [eapply resolves_absent; eauto|auto].
    + prim_inv Hf. prim_inv H.
      eexists _, (ResFailed _).
      split; [eapply resolves_read_error; eauto|auto].
Qed.

Lemma PutItem_tail (item : Item) (s s' : StoragePackerV2) (l : loc)
    (b : Bucket) (r : option error) :
  ID item <> "" ->
  objects s !! l = Some b ->
  (err <- upsert (Some l) (Some item) ;;
   match err with
   | Some e =>
       ret (Some (Wrapf "failed to update entry in packed storage entry: " e))
   | None => storeBucket l
   end) s = Some (r, s') ->
  stores (upserted l b item s) l r s'.
Proof.
  intros Hid Hb Hrun. unfold upsert in Hrun.
  rewrite decide_False in Hrun by exact Hid.
  unfold bind, deref in Hrun. rewrite Hb in Hrun.
  prim_inv Hrun. apply storeBucket_stores. assumption.
Qed.

Lemma PutItem_inv (item : Item) (s s' : StoragePackerV2) (r : option error) :
  ID item <> "" ->
  cache_wf s ->
  PutItem (Some item) s = Some (r, s') ->
  (exists e, resolves s (ID item) s' (ResFailed e) /\ r = Some e) \/
  (exists s1 l b,
     prepares s (ID item) s1 l /\ objects s1 !! l = Some b /\
     stores (upserted l b item s1) l r s').
Proof.
  intros Hid Hwf H. unfold PutItem in H.
  rewrite decide_False in H by exact Hid.
  bind_inv H as bucketKey s1 Hk.
  apply (lookup_twice _ _ _ _ Hwf) in Hk as [-> Hlook].
  bind_inv H as hit s2 Hl. prim_inv Hl.
  bind_inv H as found s3 Hf.
  destruct Hlook as [(k & l & b & Hlp & Hb & -> & Hlp2)|(Hlp & Hsl & Hck & Hlp2)];
    rewrite Hlp2 in Hf.
  - prim_inv Hf. right.
    pose proof (PutItem_tail _ _ _ _ _ _ Hid Hb H) as Htail.
    eexists _, l, b. split; [|split; [exact Hb|exact Htail]].
    apply prepares_found. eapply resolves_cached; eauto.
  - rewrite Hck in Hf. bind_inv Hf as g s4 Hg.
    apply BucketStorageView_Get_inv in Hg as (v & v' & Hv & Hget & ->).
    destruct g as [[storageEntry|]|e].
    + bind_inv Hf as d s5 Hd. destruct d as [l|e].
      * pose proof (DecodeBucket_inv _ _ _ _ Hd) as (data & parsed & _ & _ & _ & Hs5).
        bind_inv Hf as u s6 Hi. prim_inv Hi. prim_inv Hf. right.
        eapply (PutItem_tail _ _ _ _ _ _ Hid) in H; [|simpl; apply lookup_insert_eq].
        eexists _, l, _. split; [|split; [|exact H]].
        -- apply prepares_found.
           exact (resolves_loaded _ _ _ _ _ _ _ _ Hlp Hsl Hv Hget Hd).
        -- simpl; apply lookup_insert_eq.
      * pose proof (DecodeBucket_inv _ _ _ _ Hd) as ->. prim_inv Hf. prim_inv H.
        left. eexists. split; [eapply resolves_decode_error; eauto|auto].
    + bind_inv Hf as d s5 Hd. bind_inv Hd as l s6 Hn.
      apply new_LockedBucket_inv in Hn as [Hfresh ->]. prim_inv Hd.
      bind_inv Hf as u s7 Hi. prim_inv Hi. prim_inv Hf. right.
      eapply (PutItem_tail _ _ _ _ _ _ Hid) in H; [|simpl; apply lookup_insert_eq].
      eexists _, l, _. split; [|split; [|exact H]].
      -- exact (prepares_created _ _ _ _ _
                  (resolves_absent _ _ _ _ _ Hlp Hsl Hv Hget) Hfresh).
      -- simpl; apply lookup_insert_eq.
    + prim_inv Hf. prim_inv H.
      left. eexists. split; [eapply resolves_read_error; eauto|auto].
Qed.

End ItemOps.

(** ** What the steps preserve *)

Section Preservation.
Context `{ext : Externals}.

Lemma sv_Get_same (v v' : StorageView) (key : string)
    (r : Result (option StorageEntry)) :
  sv_Get v key = (r, v') ->
  sv_data v' = sv_data v /\ puts_of v' = puts_of v /\ sv_prefix v' = sv_prefix v.
Proof.
  intros H. apply sv_Get_inv in H as [-> _].
  split; [reflexivity|]. split; [apply puts_of_other|]; reflexivity.
Qed.

Lemma with_view_get_same_backend (s : StoragePackerV2) (v v' : StorageView)
    (key : string) (r : Result (option StorageEntry)) :
  BucketStorageView (config s) = Some v ->
  sv_Get v key = (r, v') ->
  same_backend s (with_view v' s).
Proof.
  intros Hv Hget. apply sv_Get_same in Hget as (Hd & Hp & _).
  unfold same_backend, bucket_data, bucket_puts; simpl. rewrite Hv; simpl.
  repeat split; congruence.
Qed.

Lemma resolves_summary (s s1 : StoragePackerV2) (itemID : string)
    (res : Resolution) :
  resolves s itemID s1 res ->
  same_backend s s1 /\
  match res with
  | ResBucket l =>
      (same_memory s s1 /\
       exists k b, LongestPrefix (bucketsCache s) (hexVal_of itemID) = Some (k, l)
                   /\ objects s !! l = Some b) \/
      loaded_into s itemID l s1
  | ResAbsent ck =>
      same_memory s s1 /\
      LongestPrefix (bucketsCache s) (hexVal_of itemID) = None /\
      exists n, ck = str_take n (hexVal_of itemID)
  | ResFailed _ =>
      same_memory s s1 /\
      LongestPrefix (bucketsCache s) (hexVal_of itemID) = None
  end.
Proof.
  destruct 1 as [k l b Hlp Hb|ck v v' e Hlp Hsl Hv Hget|ck v v' Hlp Hsl Hv Hget
                |ck v v' se e Hlp Hsl Hv Hget Hd|ck v v' se l s2 Hlp Hsl Hv Hget Hd].
  - split; [repeat split|]. left. split; [split; reflexivity|eauto].
  - split; [eapply with_view_get_same_backend; eauto|].
    split; [split; reflexivity|exact Hlp].
  - split; [eapply with_view_get_same_backend; eauto|].
    split; [split; reflexivity|]. split; [exact Hlp|].
    apply go_slice_0 in Hsl as [-> _]. eauto.
  - split; [eapply with_view_get_same_backend; eauto|].
    split; [split; reflexivity|exact Hlp].
  - apply DecodeBucket_inv in Hd as (data & parsed & _ & _ & Hfresh & ->).
    split; [exact (with_view_get_same_backend _ _ _ _ _ Hv Hget)|].
    right. apply go_slice_0 in Hsl as [-> _].
    exists (Z.to_nat (Z.quot (BaseBucketBits (config s)) 4)),
      (with_Key (EntryKey se) parsed).
    repeat split; auto. simpl.
    apply sv_Get_inv in Hget as [_ Hentry].
    destruct (sv_data v !! _); inversion Hentry; subst; simpl.
    apply GetCacheKey_hex_take.
Qed.

Lemma prepares_summary (s s1 : StoragePackerV2) (itemID : string) (l : loc) :
  prepares s itemID s1 l ->
  same_backend s s1 /\
  ((same_memory s s1 /\
    exists k b, LongestPrefix (bucketsCache s) (hexVal_of itemID) = Some (k, l)
                /\ objects s !! l = Some b) \/
   loaded_into s itemID l s1).
Proof.
  destruct 1 as [s1 l Hres|s0 ck l Hres Hfresh].
  - apply resolves_summary in Hres. exact Hres.
  - apply resolves_summary in Hres as (Hback & [Hcache Hobj] & Hlp & n & ->).
    split; [exact Hback|]. right.
    exists n, (mkBucket (str_take n (hexVal_of itemID)) ∅ None).
    rewrite Hobj in Hfresh. simpl. rewrite Hcache, Hobj.
    repeat split; auto. apply GetCacheKey_hex_take.
Qed.

(** *** The cache invariant *)

Lemma same_memory_cache_wf (s s1 : StoragePackerV2) :
  same_memory s s1 -> cache_wf s -> cache_wf s1.
Proof. intros [Hc Ho] Hwf k l. rewrite Hc, Ho. apply Hwf. Qed.

Lemma loaded_into_cache_wf (s s1 : StoragePackerV2) (itemID : string) (l : loc) :
  loaded_into s itemID l s1 -> cache_wf s -> cache_wf s1.
Proof.
  intros (n & b & Hlp & Hfresh & Hkey & Hc & Ho) Hwf k l0. rewrite Hc, Ho.
  destruct (decide (k = str_take n (hexVal_of itemID))) as [->|Hne].
  - rewrite lookup_insert_eq. intros [= <-].
    exists b. rewrite lookup_insert_eq. auto.
  - rewrite lookup_insert_ne by auto. intros Hk.
    destruct (Hwf _ _ Hk) as (b0 & Hb0 & Hck).
    exists b0. split; [|exact Hck].
    rewrite lookup_insert_ne; [exact Hb0|congruence].
Qed.

(** Replacing a bucket object by one with the same key. *)
Lemma rekeyed_cache_wf (s s1 : StoragePackerV2) (l : loc) (b b' : Bucket) :
  objects s !! l = Some b ->
  Key b' = Key b ->
  bucketsCache s1 = bucketsCache s ->
  objects s1 = <[l := b']> (objects s) ->
  cache_wf s -> cache_wf s1.
Proof.
  intros Hb Hkey Hc Ho Hwf k l0. rewrite Hc, Ho. intros Hk.
  destruct (Hwf _ _ Hk) as (b0 & Hb0 & Hck).
  destruct (decide (l0 = l)) as [->|Hne].
  - exists b'. rewrite lookup_insert_eq. split; [reflexivity|]. congruence.
  - exists b0. rewrite lookup_insert_ne by auto. auto.
Qed.

(** *** Items held in memory *)

Lemma same_memory_cached_item (s s1 : StoragePackerV2) (itemID : string)
    (m : option Any) :
  same_memory s s1 -> cached_item s itemID m -> cached_item s1 itemID m.
Proof. intros [Hc Ho]. unfold cached_item. rewrite Hc, Ho. auto. Qed.

Lemma loaded_into_cached_item (s s1 : StoragePackerV2) (itemID itemID' : string)
    (l : loc) (m : option Any) :
  loaded_into s itemID' l s1 ->
  cached_item s itemID m -> cached_item s1 itemID m.
Proof.
  intros (n & b & Hlp & Hfresh & Hkey & Hc & Ho) (Hid & k & l0 & b0 & Hhit & Hb0 & Hm).
  split; [exact Hid|]. exists k, l0, b0. rewrite Hc, Ho.
  split; [|split; [|exact Hm]].
  - eapply LongestPrefix_insert_other; eauto.
  - rewrite lookup_insert_ne; [exact Hb0|congruence].
Qed.

Lemma loaded_into_routes (s s1 : StoragePackerV2) (itemID : string) (l : loc) :
  loaded_into s itemID l s1 ->
  exists k b, LongestPrefix (bucketsCache s1) (hexVal_of itemID) = Some (k, l) /\
              objects s1 !! l = Some b.
Proof.
  intros (n & b & Hlp & Hfresh & Hkey & Hc & Ho).
  exists (str_take n (hexVal_of itemID)), b. rewrite Hc, Ho.
  split; [apply LongestPrefix_insert_miss; exact Hlp|apply lookup_insert_eq].
Qed.

(** Changing the payloads of one bucket at ids other than [itemID]. *)
Lemma edited_cached_item (s s1 : StoragePackerV2) (l : loc) (b b' : Bucket)
    (itemID : string) (m : option Any) :
  objects s !! l = Some b ->
  ItemMap b' !! itemID = ItemMap b !! itemID ->
  bucketsCache s1 = bucketsCache s ->
  objects s1 = <[l := b']> (objects s) ->
  cached_item s itemID m -> cached_item s1 itemID m.
Proof.
  intros Hb Hsame Hc Ho (Hid & k & l0 & b0 & Hhit & Hb0 & Hm).
  split; [exact Hid|]. rewrite Hc, Ho.
  destruct (decide (l0 = l)) as [->|Hne].
  - exists k, l, b'. rewrite lookup_insert_eq. repeat split; auto. congruence.
  - exists k, l0, b0. rewrite lookup_insert_ne by auto. auto.
Qed.

Lemma stores_same_memory (s s' : StoragePackerV2) (l : loc) (r : option error) :
  stores s l r s' -> same_memory s s'.
Proof. intros H. apply stores_memory in H as (Ho & Hc & _). split; auto. Qed.

Lemma prepares_routes (s s1 : StoragePackerV2) (itemID : string) (l : loc) :
  prepares s itemID s1 l ->
  exists k b, LongestPrefix (bucketsCache s1) (hexVal_of itemID) = Some (k, l) /\
              objects s1 !! l = Some b.
Proof.
  intros H. apply prepares_summary in H as (_ & [([Hc Ho] & k & b & Hlp & Hb)|Hl]).
  - exists k, b. rewrite Hc, Ho. auto.
  - eapply loaded_into_routes; eauto.
Qed.

Lemma prepares_cache_wf (s s1 : StoragePackerV2) (itemID : string) (l : loc) :
  prepares s itemID s1 l -> cache_wf s -> cache_wf s1.
Proof.
  intros H. apply prepares_summary in H as (_ & [(Hsame & _)|Hl]).
  - apply same_memory_cache_wf; auto.
  - eapply loaded_into_cache_wf; eauto.
Qed.

Lemma prepares_cached_item (s s1 : StoragePackerV2) (itemID itemID' : string)
    (l : loc) (m : option Any) :
  prepares s itemID' s1 l -> cached_item s itemID m -> cached_item s1 itemID m.
Proof.
  intros H. apply prepares_summary in H as (_ & [(Hsame & _)|Hl]).
  - apply same_memory_cached_item; auto.
  - eapply loaded_into_cached_item; eauto.
Qed.

Lemma resolves_cache_wf (s s1 : StoragePackerV2) (itemID : string)
    (res : Resolution) :
  resolves s itemID s1 res -> cache_wf s -> cache_wf s1.
Proof.
  intros H. apply resolves_summary in H as (_ & H).
  destruct res as [l|ck|e].
  - destruct H as [(Hsame & _)|Hl];
      [apply same_memory_cache_wf; auto|eapply loaded_into_cache_wf; eauto].
  - destruct H as (Hsame & _). apply same_memory_cache_wf; auto.
  - destruct H as (Hsame & _). apply same_memory_cache_wf; auto.
Qed.

Lemma resolves_cached_item (s s1 : StoragePackerV2) (itemID itemID' : string)
    (res : Resolution) (m : option Any) :
  resolves s itemID' s1 res -> cached_item s itemID m -> cached_item s1 itemID m.
Proof.
  intros H. apply resolves_summary in H as (_ & H).
  destruct res as [l|ck|e].
  - destruct H as [(Hsame & _)|Hl];
      [apply same_memory_cached_item; auto|eapply loaded_into_cached_item; eauto].
  - destruct H as (Hsame & _). apply same_memory_cached_item; auto.
  - destruct H as (Hsame & _). apply same_memory_cached_item; auto.
Qed.

End Preservation.

(** ** The item operations and the items held in memory *)

Section ItemMemory.
Context `{ext : Externals}.

Lemma upserted_cache_wf (s : StoragePackerV2) (l : loc) (b : Bucket) (item : Item) :
  objects s !! l = Some b -> cache_wf s -> cache_wf (upserted l b item s).
Proof.
  intros Hb.
  apply (rekeyed_cache_wf s _ l b
           (with_ItemMap (<[ID item := Message item]> (ItemMap b)) b));
    auto; reflexivity.
Qed.

Lemma removed_cache_wf (s : StoragePackerV2) (l : loc) (b : Bucket) (itemID : string) :
  objects s !! l = Some b -> cache_wf s -> cache_wf (removed l b itemID s).
Proof.
  intros Hb.
  apply (rekeyed_cache_wf s _ l b (with_ItemMap (delete itemID (ItemMap b)) b));
    auto; reflexivity.
Qed.

(** Once [PutItem] has reached its bucket, the item is in memory whatever
    [storeBucket] answers. *)
Lemma prepared_put_cached (s s1 s' : StoragePackerV2) (item : Item) (l : loc)
    (b : Bucket) (r : option error) :
  ID item <> "" ->
  prepares s (ID item) s1 l ->
  objects s1 !! l = Some b ->
  stores (upserted l b item s1) l r s' ->
  cached_item s' (ID item) (Message item).
Proof.
  intros Hid Hprep Hb Hst.
  eapply same_memory_cached_item; [exact (stores_same_memory _ _ _ _ Hst)|].
  destruct (prepares_routes _ _ _ _ Hprep) as (k & b0 & Hroute & Hb0).
  split; [exact Hid|]. eexists k, l, _. split; [exact Hroute|].
  split; [simpl; apply lookup_insert_eq|]. simpl. apply lookup_insert_eq.
Qed.

Lemma PutItem_memory (item : option Item) (s s' : StoragePackerV2)
    (r : option error) :
  cache_wf s ->
  PutItem item s = Some (r, s') ->
  cache_wf s' /\
  (forall itemID m,
     (forall it, item = Some it -> ID it <> itemID) ->
     cached_item s itemID m -> cached_item s' itemID m) /\
  (forall it,
     item = Some it ->
     r = None \/ (exists m0, cached_item s (ID it) m0) ->
     cached_item s' (ID it) (Message it)).
Proof.
  intros Hwf H. destruct item as [it|].
  2:{ prim_inv H. split; [auto|]. split; [auto|]. intros it [=]. }
  destruct (decide (ID it = "")) as [Hempty|Hid].
  { unfold PutItem in H. rewrite decide_True in H by exact Hempty. prim_inv H.
    split; [auto|]. split; [auto|].
    intros it' [= <-] [[=]|(m0 & Hno & _)]. contradiction. }
  apply (PutItem_inv _ _ _ _ Hid Hwf) in H
    as [(e & Hres & ->)|(s1 & l & b & Hprep & Hb & Hst)].
  - pose proof (resolves_summary _ _ _ _ Hres) as (_ & Hsame & Hmiss).
    split; [eapply same_memory_cache_wf; eauto|]. split.
    + intros; eapply same_memory_cached_item; eauto.
    + intros it' [= <-] [[=]|(m0 & _ & k & l & b & Hhit & _)]. congruence.
  - pose proof (stores_same_memory _ _ _ _ Hst) as Hsame.
    split; [|split].
    + eapply same_memory_cache_wf; [exact Hsame|].
      apply upserted_cache_wf; [exact Hb|].
      eapply prepares_cache_wf; eauto.
    + intros itemID m Hother Hitem.
      eapply same_memory_cached_item; [exact Hsame|].
      eapply (edited_cached_item s1 _ l b
                (with_ItemMap (<[ID it := Message it]> (ItemMap b)) b));
        [exact Hb| |reflexivity|reflexivity|].
      * simpl. apply lookup_insert_ne. apply Hother. reflexivity.
      * eapply prepares_cached_item; eauto.
    + intros it' [= <-] _.
      eapply same_memory_cached_item; [exact Hsame|].
      destruct (prepares_routes _ _ _ _ Hprep) as (k & b0 & Hroute & Hb0).
      split; [exact Hid|]. eexists k, l, _. split; [exact Hroute|].
      split; [simpl; apply lookup_insert_eq|]. simpl. apply lookup_insert_eq.
Qed.

Lemma DeleteItem_memory (itemID' : string) (s s' : StoragePackerV2)
    (r : option error) :
  cache_wf s ->
  DeleteItem itemID' s = Some (r, s') ->
  cache_wf s' /\
  (forall itemID m, itemID <> itemID' ->
     cached_item s itemID m -> cached_item s' itemID m).
Proof.
  intros Hwf H.
  destruct (decide (itemID' = "")) as [Hempty|Hid].
  { unfold DeleteItem in H. rewrite decide_True in H by exact Hempty. prim_inv H.
    auto. }
  apply (DeleteItem_inv _ _ _ _ Hid Hwf) in H as (s1 & res & Hres & H).
  pose proof (resolves_cache_wf _ _ _ _ Hres Hwf) as Hwf1.
  assert (Hframe : forall itemID m, cached_item s itemID m -> cached_item s1 itemID m).
  { intros; eapply resolves_cached_item; eauto. }
  destruct res as [l|ck|e]; [|destruct H as [-> ->]; auto ..].
  destruct H as (b & Hb & H).
  destruct (ItemMap b !! itemID') eqn:Hlook; [|destruct H as [-> ->]; auto].
  pose proof (stores_same_memory _ _ _ _ H) as Hsame.
  split.
  - eapply same_memory_cache_wf; [exact Hsame|].
    apply removed_cache_wf; auto.
  - intros itemID m Hne Hitem.
    eapply same_memory_cached_item; [exact Hsame|].
    eapply (edited_cached_item s1 _ l b
              (with_ItemMap (delete itemID' (ItemMap b)) b));
      [exact Hb| |reflexivity|reflexivity|auto].
    simpl. apply lookup_delete_ne. congruence.
Qed.

Lemma GetItem_memory (itemID' : string) (s s' : StoragePackerV2)
    (r : Result (option Item)) :
  cache_wf s ->
  GetItem itemID' s = Some (r, s') ->
  cache_wf s' /\
  (forall itemID m, cached_item s itemID m -> cached_item s' itemID m).
Proof.
  intros Hwf H.
  destruct (decide (itemID' = "")) as [Hempty|Hid].
  { unfold GetItem in H. rewrite decide_True in H by exact Hempty. prim_inv H.
    auto. }
  apply (GetItem_inv _ _ _ _ Hid Hwf) in H as (res & Hres & _).
  split; [eapply resolves_cache_wf; eauto|].
  intros; eapply resolves_cached_item; eauto.
Qed.

(** An item held in memory is what [GetItem] returns, without any call on
    the backend. *)
Lemma GetItem_cached (itemID : string) (s : StoragePackerV2) (m : option Any) :
  cache_wf s ->
  cached_item s itemID m ->
  GetItem itemID s = Some (Ok (Some (mkItem itemID m)), s).
Proof.
  intros Hwf (Hid & k & l & b & Hhit & Hb & Hm).
  pose proof (LongestPrefix_Some _ _ _ _ Hhit) as (Hk & _).
  destruct (Hwf _ _ Hk) as (b' & Hb' & Hck).
  assert (b' = b) by congruence; subst b'.
  unfold GetItem. rewrite decide_False by exact Hid.
  rewrite (bind_run _ _ _ _ _ (BucketStorageKeyForItemID_hit _ _ _ _ _ Hhit Hb)).
  rewrite Hck. unfold bind. prim_unfold.
  rewrite (LongestPrefix_self _ _ _ Hk), Hb.
  rewrite decide_False.
  - rewrite Hm. reflexivity.
  - intros Hsz. rewrite (size_zero_lookup _ _ Hsz) in Hm. discriminate.
Qed.

Lemma FlushQueue_same_memory (s s' : StoragePackerV2) (r : option (list error)) :
  FlushQueue s = Some (r, s') -> same_memory s s'.
Proof.
  intros H. apply FlushQueue_inv in H as (errs & H & _).
  apply FlushQueue_range_memory in H as (Ho & Hc & _). split; auto.
Qed.

(** The lookup of an item's bucket is a function of the packer. *)
Lemma resolves_functional (s s1 s2 : StoragePackerV2) (itemID : string)
    (res1 res2 : Resolution) :
  resolves s itemID s1 res1 -> resolves s itemID s2 res2 ->
  s1 = s2 /\ res1 = res2.
Proof.
  intros H1 H2.
  destruct H1 as [k l b Hlp Hb|ck v v' e Hlp Hsl Hv Hget|ck v v' Hlp Hsl Hv Hget
                 |ck v v' se e Hlp Hsl Hv Hget Hd|ck v v' se l s3 Hlp Hsl Hv Hget Hd];
  destruct H2 as [k2 l2 b2 Hlp2 Hb2|ck2 v2 v2' e2 Hlp2 Hsl2 Hv2 Hget2
                 |ck2 v2 v2' Hlp2 Hsl2 Hv2 Hget2
                 |ck2 v2 v2' se2 e2 Hlp2 Hsl2 Hv2 Hget2 Hd2
                 |ck2 v2 v2' se2 l2 s4 Hlp2 Hsl2 Hv2 Hget2 Hd2];
    try congruence;
    try (assert (ck2 = ck) by congruence; subst ck2;
         assert (v2 = v) by congruence; subst v2;
         rewrite Hget in Hget2; inversion Hget2; subst;
         try (rewrite Hd in Hd2; inversion Hd2; subst); auto).
  split; [reflexivity|]. congruence.
Qed.

(** An item that [GetItem] returns is in the bucket that any other item
    operation from the same packer resolves to. *)
Lemma GetItem_found_inv (itemID : string) (s s0 : StoragePackerV2) (it : Item) :
  cache_wf s ->
  GetItem itemID s = Some (Ok (Some it), s0) ->
  itemID <> "" /\
  exists l b m,
    resolves s itemID s0 (ResBucket l) /\
    objects s0 !! l = Some b /\ ItemMap b !! itemID = Some m.
Proof.
  intros Hwf H.
  assert (Hid : itemID <> "").
  { intros ->. inversion H. }
  split; [exact Hid|].
  apply (GetItem_inv _ _ _ _ Hid Hwf) in H as (res & Hres & Hr).
  destruct res as [l|ck|e]; try discriminate.
  destruct Hr as (b & Hb & Hr).
  destruct (ItemMap b !! itemID) as [m|] eqn:Hm; [|discriminate].
  exists l, b, m. auto.
Qed.

(** What [DeleteItem] leaves of an item that was there: whatever
    [storeBucket] answered, the routed bucket is in memory without it. *)
Lemma DeleteItem_found (itemID : string) (s s0 s1 : StoragePackerV2) (it : Item)
    (r1 : option error) :
  cache_wf s ->
  GetItem itemID s = Some (Ok (Some it), s0) ->
  DeleteItem itemID s = Some (r1, s1) ->
  itemID <> "" /\ cache_wf s1 /\
  exists k l b,
    resolves s itemID s0 (ResBucket l) /\
    objects s0 !! l = Some b /\
    stores (removed l b itemID s0) l r1 s1 /\
    LongestPrefix (bucketsCache s1) (hexVal_of itemID) = Some (k, l) /\
    objects s1 !! l = Some (with_ItemMap (delete itemID (ItemMap b)) b).
Proof.
  intros Hwf Hget Hdel.
  destruct (GetItem_found_inv _ _ _ _ Hwf Hget) as (Hid & l & b & m & Hres & Hb & Hm).
  split; [exact Hid|].
  apply (DeleteItem_inv _ _ _ _ Hid Hwf) in Hdel as (s0' & res & Hres' & Hdel).
  destruct (resolves_functional _ _ _ _ _ _ Hres' Hres) as [-> ->].
  destruct Hdel as (b' & Hb' & Hdel).
  assert (b' = b) by congruence; subst b'. rewrite Hm in Hdel.
  pose proof (stores_same_memory _ _ _ _ Hdel) as [Hc Ho].
  destruct (prepares_routes _ _ _ _ (prepares_found _ _ _ _ Hres)) as (k & b0 & Hroute & _).
  split.
  - eapply same_memory_cache_wf; [split; eassumption|].
    apply removed_cache_wf; [exact Hb|]. eapply resolves_cache_wf; eauto.
  - exists k, l, b. split; [exact Hres|]. split; [exact Hb|]. split; [exact Hdel|].
    split; [rewrite Hc; exact Hroute|].
    rewrite Ho. simpl. apply lookup_insert_eq.
Qed.

End ItemMemory.

(** ** Round trip through a session *)

Section RoundTrip.
Context `{ext : Externals}.

Lemma call_memory (c : Call) (a : Answer) (s s' : StoragePackerV2)
    (itemID : string) (current : option (option Any)) :
  cache_wf s ->
  call c s = Some (a, s') ->
  (forall m, current = Some m -> cached_item s itemID m) ->
  cache_wf s' /\
  (forall m, last_written itemID [(c, a)] current = Some m ->
             cached_item s' itemID m).
Proof.
  intros Hwf H Hcur. destruct c as [item|itemID'|itemID'|enabled|]; simpl in H.
  - bind_inv H as err s1 Hput. prim_inv H.
    destruct (PutItem_memory _ _ _ _ Hwf Hput) as (Hwf' & Hframe & Hown).
    split; [exact Hwf'|]. intros m. simpl.
    destruct item as [it|]; [|intros ->; apply Hframe; auto; intros it [=]].
    case_decide as Hid.
    + subst itemID. destruct err as [e|]; simpl.
      * destruct current as [m0|]; [|discriminate].
        intros [= <-]. apply Hown; [reflexivity|]. right. eauto.
      * intros [= <-]. apply Hown; auto.
    + intros ->. apply Hframe; auto. intros it' [= <-]. exact Hid.
  - bind_inv H as err s1 Hdel. prim_inv H.
    destruct (DeleteItem_memory _ _ _ _ Hwf Hdel) as (Hwf' & Hframe).
    split; [exact Hwf'|]. intros m. simpl.
    case_decide as Hid; [discriminate|].
    intros ->. apply Hframe; auto.
  - bind_inv H as r s1 Hget. prim_inv H.
    destruct (GetItem_memory _ _ _ _ Hwf Hget) as (Hwf' & Hframe).
    split; [exact Hwf'|]. intros m. simpl. intros ->. apply Hframe; auto.
  - bind_inv H as u s1 Hset. prim_inv H.
    assert (Hsame : same_memory s s') by (destruct enabled; prim_inv Hset; split; reflexivity).
    split; [eapply same_memory_cache_wf; eauto|].
    intros m. simpl. intros ->. eapply same_memory_cached_item; eauto.
  - bind_inv H as errs s1 Hflush. prim_inv H.
    pose proof (FlushQueue_same_memory _ _ _ Hflush) as Hsame.
    split; [eapply same_memory_cache_wf; eauto|].
    intros m. simpl. intros ->. eapply same_memory_cached_item; eauto.
Qed.

Lemma last_written_cons (itemID : string) (c : Call) (a : Answer)
    (rest : list (Call * Answer)) (current : option (option Any)) :
  last_written itemID ((c, a) :: rest) current
  = last_written itemID rest (last_written itemID [(c, a)] current).
Proof.
  destruct c as [[it|]|itemID'| | |]; simpl; try reflexivity;
    case_decide; reflexivity.
Qed.

Lemma run_memory (calls : list Call) (answers : list Answer)
    (s s' : StoragePackerV2) (itemID : string) (current : option (option Any)) :
  cache_wf s ->
  run calls s = Some (answers, s') ->
  (forall m, current = Some m -> cached_item s itemID m) ->
  cache_wf s' /\
  (forall m, last_written itemID (zip calls answers) current = Some m ->
             cached_item s' itemID m).
Proof.
  revert answers s current.
  induction calls as [|c rest IH]; intros answers s current Hwf H Hcur.
  - prim_inv H. auto.
  - cbn [run] in H. bind_inv H as a s1 Hcall. bind_inv H as answers' s2 Hrest.
    prim_inv H.
    destruct (call_memory _ _ _ _ itemID current Hwf Hcall Hcur) as (Hwf1 & Hcur1).
    destruct (IH _ _ (last_written itemID [(c, a)] current) Hwf1 Hrest Hcur1)
      as (Hwf2 & Hfin).
    split; [exact Hwf2|]. intros m Hm. apply Hfin.
    change (zip (c :: rest) (a :: answers')) with ((c, a) :: zip rest answers') in Hm.
    rewrite last_written_cons in Hm. exact Hm.
Qed.

(** C5 (amended).  Take any session of [PutItem], [DeleteItem], [GetItem],
    [SetQueueMode] and [FlushQueue] calls on a packer with a well-formed
    cache (a newly opened packer is one), whatever the backend does.  If
    for some id a [PutItem] returned [nil] and no [DeleteItem] was called
    for that id afterwards, then [GetItem] of the id at the end of the
    session returns an item with that id and the payload of the last
    [PutItem] call made for it. *)
Theorem GetItem_returns_last_written (s s' : StoragePackerV2)
    (calls : list Call) (answers : list Answer) (itemID : string)
    (payload : option Any) :
  cache_wf s ->
  run calls s = Some (answers, s') ->
  last_written itemID (zip calls answers) None = Some payload ->
  GetItem itemID s' = Some (Ok (Some (mkItem itemID payload)), s').
Proof.
  intros Hwf Hrun Hlast.
  destruct (run_memory _ _ _ _ itemID None Hwf Hrun) as (Hwf' & Hfin);
    [discriminate|].
  apply GetItem_cached; auto.
Qed.

End RoundTrip.

Lemma GetItem_returns_last_written_witness :
  exists answers s',
    run Demo.session (Demo.packer Demo.flaky) = Some (answers, s') /\
    answers =
      [AnsError None; AnsError None; AnsError None;
       AnsError (Some "failed to persist packed storage entry: i/o timeout")] /\
    GetItem "alice" s' = Some (Ok (Some Demo.alice'), s').
Proof.
  destruct (run Demo.session (Demo.packer Demo.flaky)) as [[answers s']|] eqn:E;
    [|vm_compute in E; discriminate].
  assert (Hans : answers =
      [AnsError None; AnsError None; AnsError None;
       AnsError (Some "failed to persist packed storage entry: i/o timeout")])
    by (vm_compute in E; inversion E; reflexivity).
  exists answers, s'. split; [reflexivity|]. split; [exact Hans|].
  apply (GetItem_returns_last_written (Demo.packer Demo.flaky) s'
           Demo.session answers "alice" (Message Demo.alice')).
  - apply empty_cache_wf. reflexivity.
  - exact E.
  - rewrite Hans. reflexivity.
Defined.

(** C5, as stated, fails.  In the session below only the first write of
    alice returned [nil]; the second returned the backend's error, so the
    last payload written by a successful [PutItem] is the first one, and no
    [DeleteItem] was called for alice; yet [GetItem] returns the payload of
    the failed call, which is in memory and was never stored.  Likewise a
    [DeleteItem] that returned an error has removed the item from memory:
    with no successful [DeleteItem], [GetItem] reports the item absent. *)
Lemma GetItem_returns_unstored_payload :
  match run Demo.session (Demo.packer Demo.flaky) with
  | Some (answers, s') =>
      answers =
        [AnsError None; AnsError None; AnsError None;
         AnsError (Some "failed to persist packed storage entry: i/o timeout")] /\
      last_successful_write "alice" (zip Demo.session answers) None
      = Some (Message Demo.alice) /\
      GetItem "alice" s' = Some (Ok (Some Demo.alice'), s') /\
      Message Demo.alice' <> Message Demo.alice
  | None => False
  end /\
  match run [CallPutItem (Some Demo.alice); CallDeleteItem "alice"]
          (Demo.packer
             (fun log op =>
                if is_put op && (2 <=? length log)%nat
                then Some "i/o timeout" else None)) with
  | Some (answers, s') =>
      answers =
        [AnsError None;
         AnsError (Some "failed to persist packed storage entry: i/o timeout")] /\
      last_successful_write "alice"
        (zip [CallPutItem (Some Demo.alice); CallDeleteItem "alice"] answers) None
      = Some (Message Demo.alice) /\
      GetItem "alice" s' = Some (Ok None, s')
  | None => False
  end.
Proof.
  split; vm_compute; repeat split; try reflexivity. discriminate.
Qed.

(** ** A failed write and the index *)

Section FailedPut.
Context `{ext : Externals}.

Lemma same_backend_trans (s s1 s2 : StoragePackerV2) :
  same_backend s s1 -> same_backend s1 s2 -> same_backend s s2.
Proof.
  intros (Hq & Hm & Hd & Hp) (Hq' & Hm' & Hd' & Hp').
  repeat split; congruence.
Qed.

(** C3 (amended).  When [PutItem] returns the error of a failed backend
    [put], the bucket view holds what it held before, and the index is not
    rolled back: the bucket the item routes to is in the cache and holds
    the item's payload; the cache is the one from before the call if it
    already routed the item's digest to a bucket, and otherwise it has
    gained one entry, made before the [put], for the bucket read or created
    by the call. *)
Theorem PutItem_failed_put (s s' : StoragePackerV2) (item : Item) (e : error) :
  cache_wf s ->
  PutItem (Some item) s
  = Some (Some (Wrapf "failed to persist packed storage entry: " e), s') ->
  bucket_data s' = bucket_data s /\
  cached_item s' (ID item) (Message item) /\
  (LongestPrefix (bucketsCache s) (hexVal_of (ID item)) <> None ->
   bucketsCache s' = bucketsCache s) /\
  (LongestPrefix (bucketsCache s) (hexVal_of (ID item)) = None ->
   exists k l, bucketsCache s !! k = None /\ objects s !! l = None /\
               bucketsCache s' = <[k := l]> (bucketsCache s)).
Proof.
  intros Hwf H.
  assert (Hid : ID item <> "").
  { intros Hempty. unfold PutItem in H.
    rewrite decide_True in H by exact Hempty. prim_inv H. }
  apply (PutItem_inv _ _ _ _ Hid Hwf) in H
    as [(e' & Hres & He')|(s1 & l & b & Hprep & Hb & Hst)].
  { exfalso. inversion Hres; subst; inversion He'. }
  pose proof (prepared_put_cached _ _ _ _ _ _ _ Hid Hprep Hb Hst) as Hown.
  inversion Hst as [b0 Hq Hb0 Hr|b0 e0 Hq Hb0 Hm Hr|b0 m0 e0 Hq Hb0 Hm Hc Hr
                   |b0 data v v' e0 Hq Hb0 He Hv Hp Hr|b0 data v v' Hq Hb0 He Hv Hp Hr];
    subst; try discriminate.
  apply sv_Put_inv in Hp as (_ & _ & Hdata).
  pose proof (prepares_summary _ _ _ _ Hprep) as ((_ & _ & Hback & _) & Hmem).
  split; [|split; [exact Hown|split]].
  - rewrite <- Hback. unfold bucket_data; simpl. simpl in Hv. rewrite Hv. simpl.
    congruence.
  - intros Hhit. destruct Hmem as [([Hc _] & _)|(n & b1 & Hmiss & _)].
    + exact Hc.
    + contradiction.
  - intros Hmiss. destruct Hmem as [(_ & k & b1 & Hhit & _)|(n & b1 & _ & Hfresh & _ & Hc & _)].
    + congruence.
    + exists (str_take n (hexVal_of (ID item))), l.
      split; [apply LongestPrefix_None; exact Hmiss|]. split; [exact Hfresh|exact Hc].
Qed.

End FailedPut.

Lemma PutItem_failed_put_witness :
  exists s',
    PutItem (Some Demo.alice) (Demo.packer Demo.broken_disk)
    = Some (Some "failed to persist packed storage entry: i/o timeout", s') /\
    bucket_data s' = Some ∅ /\
    cached_item s' "alice" (Message Demo.alice) /\
    exists k l, bucketsCache s' = <[k := l]> ∅.
Proof.
  destruct (PutItem (Some Demo.alice) (Demo.packer Demo.broken_disk))
    as [[r s']|] eqn:E; [|vm_compute in E; discriminate].
  assert (Hr : r = Some (Wrapf "failed to persist packed storage entry: " "i/o timeout"))
    by (vm_compute in E; inversion E; reflexivity).
  subst r. exists s'. split; [reflexivity|].
  destruct (PutItem_failed_put (Demo.packer Demo.broken_disk) s' Demo.alice
              "i/o timeout") as (Hdata & Hitem & _ & Hnew).
  - apply empty_cache_wf. reflexivity.
  - exact E.
  - split; [exact Hdata|]. split; [exact Hitem|].
    destruct Hnew as (k & l & _ & _ & Hc); [reflexivity|].
    exists k, l. exact Hc.
Defined.

(** C3, as stated, fails: on a new packer whose backend rejects the [put]
    with an I/O error, [PutItem] returns the error, nothing is stored, and
    yet the index has gained the entry ["61"] for a bucket that holds the
    item, so the next [GetItem] returns a payload the backend never got. *)
Lemma PutItem_failed_put_changes_index :
  match PutItem (Some Demo.alice) (Demo.packer Demo.broken_disk) with
  | Some (err, s') =>
      err = Some "failed to persist packed storage entry: i/o timeout" /\
      persisted s' "61" = None /\
      bucketsCache (Demo.packer Demo.broken_disk) !! "61" = None /\
      bucketsCache s' !! "61" = Some 1%positive /\
      bucketsCache s' <> bucketsCache (Demo.packer Demo.broken_disk) /\
      GetItem "alice" s' = Some (Ok (Some Demo.alice), s')
  | None => False
  end.
Proof.
  vm_compute. repeat split; try reflexivity. discriminate.
Qed.

(** ** Queue mode *)

Section QueueMode.
Context `{ext : Externals}.

Lemma same_config_backend (s s' : StoragePackerV2) :
  config s' = config s ->
  bucket_data s' = bucket_data s /\ bucket_puts s' = bucket_puts s.
Proof. intros H. unfold bucket_data, bucket_puts. rewrite H. auto. Qed.

Lemma PutItem_queue_mode (item : option Item) (s s' : StoragePackerV2)
    (r : option error) :
  queueMode s = 1 ->
  cache_wf s ->
  PutItem item s = Some (r, s') ->
  bucket_data s' = bucket_data s /\ bucket_puts s' = bucket_puts s /\
  (r = None ->
   exists it l b,
     item = Some it /\ queuedBuckets s' !! Key b = Some l /\
     objects s' !! l = Some b /\ ItemMap b !! ID it = Some (Message it)).
Proof.
  intros Hq Hwf H.
  destruct item as [it|];
    [|prim_inv H; split; [|split]; auto; discriminate].
  destruct (decide (ID it = "")) as [Hempty|Hid].
  { unfold PutItem in H. rewrite decide_True in H by exact Hempty. prim_inv H.
    split; [|split]; auto; discriminate. }
  apply (PutItem_inv _ _ _ _ Hid Hwf) in H
    as [(e & Hres & ->)|(s1 & l & b & Hprep & Hb & Hst)].
  - apply resolves_summary in Hres as ((_ & _ & Hd & Hp) & _).
    split; [exact Hd|]. split; [exact Hp|discriminate].
  - apply prepares_summary in Hprep as ((Hqb & Hqm & Hd & Hp) & _).
    pose proof (stores_memory _ _ _ _ Hst) as (Ho & _).
    apply stores_queue_mode in Hst as (-> & Hcfg & b' & Hb' & Hqueue);
      [|simpl; congruence].
    apply same_config_backend in Hcfg as [Hd' Hp'].
    split; [rewrite Hd'; exact Hd|]. split; [rewrite Hp'; exact Hp|].
    intros _. exists it, l, b'. split; [reflexivity|].
    split; [rewrite Hqueue; apply lookup_insert_eq|].
    split; [rewrite Ho; exact Hb'|].
    simpl in Hb'. rewrite lookup_insert_eq in Hb'. inversion Hb'; subst; simpl.
    apply lookup_insert_eq.
Qed.

Lemma DeleteItem_queue_mode (itemID : string) (s s' : StoragePackerV2)
    (r : option error) :
  queueMode s = 1 ->
  cache_wf s ->
  DeleteItem itemID s = Some (r, s') ->
  bucket_data s' = bucket_data s /\ bucket_puts s' = bucket_puts s.
Proof.
  intros Hq Hwf H.
  destruct (decide (itemID = "")) as [Hempty|Hid].
  { unfold DeleteItem in H. rewrite decide_True in H by exact Hempty. prim_inv H.
    auto. }
  apply (DeleteItem_inv _ _ _ _ Hid Hwf) in H as (s1 & res & Hres & H).
  apply resolves_summary in Hres as ((Hqb & Hqm & Hd & Hp) & _).
  destruct res as [l|ck|e]; [|destruct H as [-> ->]; auto ..].
  destruct H as (b & Hb & H).
  destruct (ItemMap b !! itemID); [|destruct H as [-> ->]; auto].
  apply stores_queue_mode in H as (_ & Hcfg & _); [|simpl; congruence].
  apply same_config_backend in Hcfg as [Hd' Hp'].
  split; [rewrite Hd'; exact Hd|rewrite Hp'; exact Hp].
Qed.

Lemma DeleteItem_queued (itemID : string) (s s0 s' : StoragePackerV2) (it : Item)
    (r : option error) :
  queueMode s = 1 ->
  cache_wf s ->
  GetItem itemID s = Some (Ok (Some it), s0) ->
  DeleteItem itemID s = Some (r, s') ->
  r = None /\
  exists l b,
    queuedBuckets s' !! Key b = Some l /\ objects s' !! l = Some b /\
    ItemMap b !! itemID = None.
Proof.
  intros Hq Hwf Hget Hdel.
  destruct (DeleteItem_found _ _ _ _ _ _ Hwf Hget Hdel)
    as (Hid & _ & k & l & b & Hres & Hb & Hst & _ & Hb1).
  apply resolves_summary in Hres as ((_ & Hq0 & _) & _).
  apply stores_queue_mode in Hst as (-> & _ & b2 & Hb2 & Hqueue);
    [|simpl; congruence].
  simpl in Hb2. rewrite lookup_insert_eq in Hb2. inversion Hb2; subst b2; clear Hb2.
  split; [reflexivity|].
  exists l, (with_ItemMap (delete itemID (ItemMap b)) b).
  split; [rewrite Hqueue; apply lookup_insert_eq|].
  split; [exact Hb1|]. simpl. apply lookup_delete_eq.
Qed.

(** C7.  While queue mode is on, [storeBucket] files the bucket under its
    key in the queue and returns [nil] leaving the bucket view untouched,
    and so [PutItem] and [DeleteItem] make no [put] and change nothing in
    the view; a [PutItem] that returns [nil] has left its bucket, with the
    item in it, in the queue, and a [DeleteItem] of an item that [GetItem]
    returns (from memory or from the backend) returns [nil] and has left
    the bucket, without the item, in the queue.  A [FlushQueue] that runs
    with queue mode off and returns [nil] empties the queue and leaves, for
    every bucket that was queued, the encoding of the bucket as it is in
    memory under the bucket's key in the view.  But a [FlushQueue] that
    runs while queue mode is still on persists nothing: [storeBucket]
    queues each bucket again, the walk deletes it, the call returns [nil]
    with the queue empty and the view as it was, so every queued write is
    dropped. *)
Theorem queue_mode_then_flush (s : StoragePackerV2) :
  (queueMode s = 1 ->
   (forall l b, objects s !! l = Some b ->
      storeBucket l s
      = Some (None, with_queuedBuckets (<[Key b := l]> (queuedBuckets s)) s)) /\
   (cache_wf s ->
    (forall item r s', PutItem item s = Some (r, s') ->
       bucket_data s' = bucket_data s /\ bucket_puts s' = bucket_puts s /\
       (r = None ->
        exists it l b,
          item = Some it /\ queuedBuckets s' !! Key b = Some l /\
          objects s' !! l = Some b /\ ItemMap b !! ID it = Some (Message it))) /\
    (forall itemID r s', DeleteItem itemID s = Some (r, s') ->
       bucket_data s' = bucket_data s /\ bucket_puts s' = bucket_puts s /\
       (forall it s0, GetItem itemID s = Some (Ok (Some it), s0) ->
          r = None /\
          exists l b,
            queuedBuckets s' !! Key b = Some l /\ objects s' !! l = Some b /\
            ItemMap b !! itemID = None))) /\
   (queue_wf s ->
    forall r s', FlushQueue s = Some (r, s') ->
      r = None /\ queuedBuckets s' = ∅ /\ objects s' = objects s /\
      bucket_data s' = bucket_data s /\ bucket_puts s' = bucket_puts s)) /\
  (queueMode s <> 1 ->
   queue_wf s ->
   forall s', FlushQueue s = Some (None, s') ->
     queuedBuckets s' = ∅ /\
     forall k l b, queuedBuckets s !! k = Some l -> objects s !! l = Some b ->
       exists data, encoded b = Ok data /\ persisted s' (Key b) = Some data).
Proof.
  split.
  - intros Hq. split; [intros l b Hb; apply storeBucket_queued; auto|]. split.
    + intros Hwf. split.
      * intros item r s' H. eapply PutItem_queue_mode; eauto.
      * intros itemID r s' H.
        destruct (DeleteItem_queue_mode _ _ _ _ Hq Hwf H) as [Hd Hp].
        split; [exact Hd|]. split; [exact Hp|].
        intros it s0 Hget. eapply DeleteItem_queued; eauto.
    + intros Hqwf r s' H.
      pose proof (FlushQueue_empties _ _ _ Hqwf H) as Hempty.
      apply FlushQueue_inv in H as (errs & Hrange & ->).
      pose proof (FlushQueue_range_memory _ _ _ _ _ Hrange) as (Ho & _).
      destruct (FlushQueue_range_queue_mode _ _ _ _ _ Hq Hrange) as [-> Hcfg].
      apply same_config_backend in Hcfg as [Hd Hp].
      repeat split; auto.
  - intros Hq Hwf s' H. split.
    + eapply FlushQueue_empties; eauto.
    + intros k l b Hk Hb. eapply FlushQueue_persists; eauto.
Qed.

End QueueMode.

(** ** Deleting an item that is not there *)

Section DeleteAbsent.
Context `{ext : Externals}.

Lemma DeleteItem_cached_absent (itemID : string) (s : StoragePackerV2)
    (k : string) (l : loc) (b : Bucket) :
  itemID <> "" ->
  cache_wf s ->
  LongestPrefix (bucketsCache s) (hexVal_of itemID) = Some (k, l) ->
  objects s !! l = Some b ->
  ItemMap b !! itemID = None ->
  DeleteItem itemID s = Some (None, s).
Proof.
  intros Hid Hwf Hhit Hb Hlook.
  pose proof (LongestPrefix_Some _ _ _ _ Hhit) as (Hk & _).
  destruct (Hwf _ _ Hk) as (b' & Hb' & Hck).
  assert (b' = b) by congruence; subst b'.
  unfold DeleteItem. rewrite decide_False by exact Hid.
  rewrite (bind_run _ _ _ _ _ (BucketStorageKeyForItemID_hit _ _ _ _ _ Hhit Hb)).
  rewrite Hck. unfold bind. prim_unfold.
  rewrite (LongestPrefix_self _ _ _ Hk), Hb.
  case_decide; [reflexivity|]. rewrite Hlook. reflexivity.
Qed.

Lemma BucketStorageView_Get_run (key : string) (s : StoragePackerV2)
    (v v' : StorageView) (r : Result (option StorageEntry)) :
  BucketStorageView (config s) = Some v ->
  sv_Get v key = (r, v') ->
  BucketStorageView_Get key s = Some (r, with_view v' s).
Proof.
  intros Hv Hget. unfold BucketStorageView_Get. rewrite Hv, Hget. reflexivity.
Qed.

(** The first steps of [DeleteItem] on a digest the cache does not know. *)
Lemma DeleteItem_miss (itemID : string) (s : StoragePackerV2) (ck : string)
    (v v' : StorageView) (g : Result (option StorageEntry)) :
  itemID <> "" ->
  LongestPrefix (bucketsCache s) (hexVal_of itemID) = None ->
  go_slice (hexVal_of itemID) 0 (Z.quot (BaseBucketBits (config s)) 4) = Some ck ->
  BucketStorageView (config s) = Some v ->
  sv_Get v ck = (g, v') ->
  DeleteItem itemID s =
  match g with
  | Err e => Some (Some (Wrapf "failed to read packed storage value: " e), with_view v' s)
  | Ok None => Some (None, with_view v' s)
  | Ok (Some storageEntry) =>
      (d <- DecodeBucket storageEntry ;;
       found <- match d with
                | Err e =>
                    ret (inl (Some
                      (Wrapf "error decoding existing storage entry for upsert: " e)))
                | Ok bucket => bucketsCache_Insert ck bucket ;;; ret (inr bucket)
                end ;;
       match found with
       | inl early => ret early
       | inr bucket =>
           b <- deref bucket ;;
           if decide (size (ItemMap b) = 0%nat) then ret None else
           match ItemMap b !! itemID with
           | None => ret None
           | Some _ =>
               assign bucket (with_ItemMap (delete itemID (ItemMap b)) b) ;;;
               storeBucket bucket
           end
       end) (with_view v' s)
  end.
Proof.
  intros Hid Hmiss Hsl Hv Hget.
  unfold DeleteItem. rewrite decide_False by exact Hid.
  rewrite (bind_run _ _ _ _ _ (BucketStorageKeyForItemID_miss _ _ _ Hmiss Hsl)).
  pose proof (go_slice_0 _ _ _ Hsl) as [Hck _].
  assert (Hcache : GetCacheKey ck = ck) by (rewrite Hck; apply GetCacheKey_hex_take).
  rewrite Hcache.
  assert (Hmiss2 : LongestPrefix (bucketsCache s) ck = None)
    by (rewrite Hck; apply LongestPrefix_None_take; exact Hmiss).
  unfold bind at 1. unfold bucketsCache_LongestPrefix at 1, gets at 1.
  rewrite Hmiss2. unfold bind at 1. unfold bind at 1.
  rewrite (BucketStorageView_Get_run _ _ _ _ _ Hv Hget).
  destruct g as [[storageEntry|]|e]; try reflexivity.
  unfold bind. destruct (DecodeBucket storageEntry (with_view v' s)) as [[[l|e] s2]|];
    reflexivity.
Qed.

Lemma GetItem_cached_absent (itemID : string) (s : StoragePackerV2)
    (k : string) (l : loc) (b : Bucket) :
  itemID <> "" ->
  cache_wf s ->
  LongestPrefix (bucketsCache s) (hexVal_of itemID) = Some (k, l) ->
  objects s !! l = Some b ->
  ItemMap b !! itemID = None ->
  GetItem itemID s = Some (Ok None, s).
Proof.
  intros Hid Hwf Hhit Hb Hlook.
  pose proof (LongestPrefix_Some _ _ _ _ Hhit) as (Hk & _).
  destruct (Hwf _ _ Hk) as (b' & Hb' & Hck).
  assert (b' = b) by congruence; subst b'.
  unfold GetItem. rewrite decide_False by exact Hid.
  rewrite (bind_run _ _ _ _ _ (BucketStorageKeyForItemID_hit _ _ _ _ _ Hhit Hb)).
  rewrite Hck. unfold bind. prim_unfold.
  rewrite (LongestPrefix_self _ _ _ Hk), Hb.
  case_decide; [reflexivity|]. rewrite Hlook. reflexivity.
Qed.

Lemma fmap_mkItem_None (itemID : string) (o : option (option Any)) :
  @Ok (option Item) None = Ok (mkItem itemID <$> o) -> o = None.
Proof. destruct o; simpl; [discriminate|reflexivity]. Qed.

(** A [DeleteItem] of an item that was there, from memory or read from the
    backend, leaves nothing for a second one to do. *)
Lemma DeleteItem_found_twice (itemID : string) (s s0 s1 : StoragePackerV2)
    (it : Item) (r1 : option error) :
  cache_wf s ->
  GetItem itemID s = Some (Ok (Some it), s0) ->
  DeleteItem itemID s = Some (r1, s1) ->
  DeleteItem itemID s1 = Some (None, s1) /\
  GetItem itemID s1 = Some (Ok None, s1).
Proof.
  intros Hwf Hget Hdel.
  destruct (DeleteItem_found _ _ _ _ _ _ Hwf Hget Hdel)
    as (Hid & Hwf1 & k & l & b & _ & _ & _ & Hroute & Hb1).
  split.
  - eapply DeleteItem_cached_absent; eauto. simpl. apply lookup_delete_eq.
  - eapply GetItem_cached_absent; eauto. simpl. apply lookup_delete_eq.
Qed.

(** After a [DeleteItem] that returned [nil], a second one writes nothing
    and changes nothing in memory; it returns [nil] unless it has to read
    the backend again (no bucket was found the first time) and that read
    fails. *)
Lemma DeleteItem_nil_twice (itemID : string) (s s1 s2 : StoragePackerV2)
    (r2 : option error) :
  itemID <> "" ->
  cache_wf s ->
  DeleteItem itemID s = Some (None, s1) ->
  DeleteItem itemID s1 = Some (r2, s2) ->
  same_backend s1 s2 /\ same_memory s1 s2 /\
  (r2 = None \/
   (LongestPrefix (bucketsCache s1) (hexVal_of itemID) = None /\
    exists e, r2 = Some (Wrapf "failed to read packed storage value: " e))).
Proof.
  intros Hid Hwf H1 H2.
  apply (DeleteItem_inv _ _ _ _ Hid Hwf) in H1 as (s0 & res & Hres & H1).
  assert (Hhit : forall k l b,
            cache_wf s1 ->
            LongestPrefix (bucketsCache s1) (hexVal_of itemID) = Some (k, l) ->
            objects s1 !! l = Some b -> ItemMap b !! itemID = None ->
            same_backend s1 s2 /\ same_memory s1 s2 /\
            (r2 = None \/
             (LongestPrefix (bucketsCache s1) (hexVal_of itemID) = None /\
              exists e, r2 = Some (Wrapf "failed to read packed storage value: " e)))).
  { intros k l b Hwf1 Hroute Hb Hm.
    rewrite (DeleteItem_cached_absent _ _ _ _ _ Hid Hwf1 Hroute Hb Hm) in H2.
    inversion H2; subst. repeat split; auto. }
  pose proof (resolves_cache_wf _ _ _ _ Hres Hwf) as Hwf0.
  destruct res as [l|ck|e].
  - destruct (prepares_routes _ _ _ _ (prepares_found _ _ _ _ Hres))
      as (k & b0 & Hroute & _).
    destruct H1 as (b & Hb & H1).
    destruct (ItemMap b !! itemID) as [m|] eqn:Hm.
    + pose proof (stores_same_memory _ _ _ _ H1) as [Hc Ho].
      eapply (Hhit k l).
      * eapply same_memory_cache_wf; [split; eassumption|].
        apply removed_cache_wf; auto.
      * rewrite Hc. exact Hroute.
      * rewrite Ho. simpl. apply lookup_insert_eq.
      * simpl. apply lookup_delete_eq.
    + destruct H1 as [_ ->]. eapply (Hhit k l); eauto.
  - destruct H1 as [_ ->].
    apply (DeleteItem_inv _ _ _ _ Hid Hwf0) in H2 as (s3 & res2 & Hres2 & H2).
    pose proof (resolves_summary _ _ _ _ Hres) as (_ & [Hc Ho] & Hmiss & _).
    assert (Hmiss0 : LongestPrefix (bucketsCache s0) (hexVal_of itemID) = None)
      by (rewrite Hc; exact Hmiss).
    pose proof (resolves_summary _ _ _ _ Hres2) as (Hback & Hmem).
    inversion Hres; subst.
    match goal with
    | Hg : sv_Get ?v ck = (Ok None, ?v') |- _ =>
        apply sv_Get_inv in Hg as [Hv' Hnone]
    end.
    destruct res2 as [l2|ck2|e2].
    + exfalso.
      inversion Hres2; subst; try congruence.
      match goal with
      | Hg : sv_Get ?v ?k = (Ok (Some _), _) |- _ =>
          apply sv_Get_inv in Hg as [_ Hsome]
      end.
      simpl in *.
      match goal with
      | Hv2 : Some _ = Some _ |- _ => inversion Hv2; subst; clear Hv2
      end.
      simpl in *.
      match goal with
      | Hs1 : go_slice _ _ _ = Some ck, Hs2 : go_slice _ _ _ = Some ?ck2 |- _ =>
          rewrite Hs1 in Hs2; inversion Hs2; subst; clear Hs2
      end.
      destruct (sv_data _ !! _); simpl in *; discriminate.
    + destruct H2 as [-> ->]. destruct Hmem as (Hsame & _). auto.
    + destruct H2 as [-> ->]. destruct Hmem as (Hsame & _).
      split; [exact Hback|]. split; [exact Hsame|]. right.
      split; [exact Hmiss0|].
      inversion Hres2; subst; [eauto|].
      exfalso.
      match goal with
      | Hg : sv_Get ?v ?k = (Ok (Some _), _) |- _ =>
          apply sv_Get_inv in Hg as [_ Hsome]
      end.
      simpl in *.
      match goal with
      | Hv2 : Some _ = Some _ |- _ => inversion Hv2; subst; clear Hv2
      end.
      simpl in *.
      match goal with
      | Hs1 : go_slice _ _ _ = Some ck, Hs2 : go_slice _ _ _ = Some ?ck2 |- _ =>
          rewrite Hs1 in Hs2; inversion Hs2; subst; clear Hs2
      end.
      destruct (sv_data _ !! _); simpl in *; discriminate.
  - destruct H1 as [[=] _].
Qed.

(** C8.  For a non-empty id on a packer with a well-formed cache:
    [DeleteItem] of an id that the cached bucket it routes to does not
    contain (an empty bucket included) returns [nil] and changes nothing at
    all; more generally, whenever [GetItem] reports the id absent,
    [DeleteItem] returns [nil] in the same final state, with no [put] made
    and the bucket view's contents unchanged.  Deleting twice: after any
    [DeleteItem] of an id held in memory, and after any [DeleteItem] of an
    id that [GetItem] returns at all (so also one stored in the backend
    whose bucket is not loaded yet), the item is gone from its bucket, a
    second [DeleteItem] of the id returns [nil] and changes nothing, and
    [GetItem] reports the id absent; and after every [DeleteItem] that
    returned [nil], a second one makes no [put] and changes neither the
    stored data nor the queue nor anything in memory, and returns [nil]
    unless no bucket was found the first time and its read of the backend
    fails. *)
Theorem DeleteItem_absent_noop (s : StoragePackerV2) (itemID : string) :
  itemID <> "" ->
  cache_wf s ->
  (forall k l b,
     LongestPrefix (bucketsCache s) (hexVal_of itemID) = Some (k, l) ->
     objects s !! l = Some b ->
     ItemMap b !! itemID = None ->
     DeleteItem itemID s = Some (None, s)) /\
  (forall s1,
     GetItem itemID s = Some (Ok None, s1) ->
     DeleteItem itemID s = Some (None, s1) /\
     bucket_data s1 = bucket_data s /\ bucket_puts s1 = bucket_puts s) /\
  (forall m r1 s1,
     cached_item s itemID m ->
     DeleteItem itemID s = Some (r1, s1) ->
     DeleteItem itemID s1 = Some (None, s1) /\
     GetItem itemID s1 = Some (Ok None, s1)) /\
  (forall it s0 r1 s1,
     GetItem itemID s = Some (Ok (Some it), s0) ->
     DeleteItem itemID s = Some (r1, s1) ->
     DeleteItem itemID s1 = Some (None, s1) /\
     GetItem itemID s1 = Some (Ok None, s1)) /\
  (forall s1 r2 s2,
     DeleteItem itemID s = Some (None, s1) ->
     DeleteItem itemID s1 = Some (r2, s2) ->
     same_backend s1 s2 /\ same_memory s1 s2 /\
     (r2 = None \/
      (LongestPrefix (bucketsCache s1) (hexVal_of itemID) = None /\
       exists e, r2 = Some (Wrapf "failed to read packed storage value: " e)))).
Proof.
  intros Hid Hwf. split; [|split; [|split; [|split]]].
  - intros k l b Hhit Hb Hlook. eapply DeleteItem_cached_absent; eauto.
  - intros s1 Hget.
    apply (GetItem_inv _ _ _ _ Hid Hwf) in Hget as (res & Hres & Hr).
    pose proof (resolves_summary _ _ _ _ Hres) as ((_ & _ & Hd & Hp) & _).
    split; [|split; assumption].
    destruct Hres as [k l b Hlp Hb|ck v v' e Hlp Hsl Hv Hg|ck v v' Hlp Hsl Hv Hg
                     |ck v v' se e Hlp Hsl Hv Hg Hdec|ck v v' se l s2 Hlp Hsl Hv Hg Hdec];
      try discriminate.
    + destruct Hr as (b' & Hb' & Hr). apply fmap_mkItem_None in Hr.
      assert (b' = b) by congruence; subst b'.
      eapply DeleteItem_cached_absent; eauto.
    + rewrite (DeleteItem_miss _ _ _ _ _ _ Hid Hlp Hsl Hv Hg). reflexivity.
    + destruct Hr as (b' & Hb' & Hr). apply fmap_mkItem_None in Hr.
      rewrite (DeleteItem_miss _ _ _ _ _ _ Hid Hlp Hsl Hv Hg).
      rewrite (bind_run _ _ _ _ _ Hdec).
      unfold bind. prim_unfold. rewrite Hb'.
      case_decide; [reflexivity|]. rewrite Hr. reflexivity.
  - intros m r1 s1 (_ & k & l & b & Hhit & Hb & Hm) Hdel.
    apply (DeleteItem_inv _ _ _ _ Hid Hwf) in Hdel as (s0 & res & Hres & Hdel).
    destruct Hres as [k' l' b' Hlp Hb'|ck v v' e Hlp Hsl Hv Hg|ck v v' Hlp Hsl Hv Hg
                     |ck v v' se e Hlp Hsl Hv Hg Hdec|ck v v' se l' s2 Hlp Hsl Hv Hg Hdec];
      try congruence.
    assert (l' = l) by congruence; subst l'.
    destruct Hdel as (b0 & Hb0 & Hdel).
    assert (b0 = b) by congruence; subst b0. rewrite Hm in Hdel.
    pose proof (stores_same_memory _ _ _ _ Hdel) as [Hc Ho].
    assert (Hwf1 : cache_wf s1).
    { eapply same_memory_cache_wf; [split; eassumption|].
      apply removed_cache_wf; auto. }
    assert (Hhit1 : LongestPrefix (bucketsCache s1) (hexVal_of itemID) = Some (k, l)).
    { rewrite Hc. exact Hhit. }
    assert (Hb1 : objects s1 !! l
                  = Some (with_ItemMap (delete itemID (ItemMap b)) b)).
    { rewrite Ho. simpl. apply lookup_insert_eq. }
    split.
    + eapply DeleteItem_cached_absent; eauto. simpl. apply lookup_delete_eq.
    + eapply GetItem_cached_absent; eauto. simpl. apply lookup_delete_eq.
  - intros it s0 r1 s1 Hget Hdel. eapply DeleteItem_found_twice; eauto.
  - intros s1 r2 s2 H1 H2. eapply DeleteItem_nil_twice; eauto.
Qed.

End DeleteAbsent.

Lemma Demo_loaded_wf (fault : list BackendOp -> BackendOp -> option error)
    (children : option (gmap string Bucket)) :
  cache_wf (Demo.loaded fault children).
Proof.
  intros k l H. simpl in H. apply lookup_singleton_Some in H as [<- <-].
  eexists. split; reflexivity.
Qed.

Lemma DeleteItem_absent_noop_witness :
  (exists s1,
     DeleteItem "bob" (Demo.loaded Demo.reliable None) = Some (None, s1) /\
     bucket_puts s1 = Some []) /\
  (exists r1 s1,
     DeleteItem "alice" (Demo.loaded Demo.reliable None) = Some (r1, s1) /\
     DeleteItem "alice" s1 = Some (None, s1)) /\
  (exists r1 s1,
     DeleteItem "carol"
       (mkPacker
          (mkConfig
             (Some (mkStorageView "v2/"
                      {["v2/63" := Byte.x01 :: list_byte_of_string "63|carol"]}
                      [] Demo.reliable)) None 8 4) ∅ 0 ∅ ∅)
     = Some (r1, s1) /\
     DeleteItem "carol" s1 = Some (None, s1) /\
     GetItem "carol" s1 = Some (Ok None, s1)).
Proof.
  split; [|split].
  - destruct (DeleteItem_absent_noop (Demo.loaded Demo.reliable None) "bob")
      as (_ & Habsent & _); [discriminate|apply Demo_loaded_wf|].
    destruct (GetItem "bob" (Demo.loaded Demo.reliable None)) as [[r s1]|] eqn:E;
      [|vm_compute in E; discriminate].
    assert (Hr : r = Ok None) by (vm_compute in E; inversion E; reflexivity).
    subst r. destruct (Habsent s1 eq_refl) as (Hdel & _ & Hputs).
    exists s1. split; [exact Hdel|]. rewrite Hputs. reflexivity.
  - destruct (DeleteItem_absent_noop (Demo.loaded Demo.reliable None) "alice")
      as (_ & _ & Htwice & _); [discriminate|apply Demo_loaded_wf|].
    destruct (DeleteItem "alice" (Demo.loaded Demo.reliable None))
      as [[r1 s1]|] eqn:E; [|vm_compute in E; discriminate].
    exists r1, s1. split; [reflexivity|].
    eapply (Htwice (Some (mkAny "t" [Byte.x6f])) r1 s1); [|reflexivity].
    split; [discriminate|]. exists "61", 1%positive. eexists.
    split; [vm_compute; reflexivity|]. split; reflexivity.
  - destruct (GetItem "carol"
                (mkPacker
                   (mkConfig
                      (Some (mkStorageView "v2/"
                               {["v2/63" := Byte.x01 :: list_byte_of_string "63|carol"]}
                               [] Demo.reliable)) None 8 4) ∅ 0 ∅ ∅))
      as [[g s0]|] eqn:EG; [|vm_compute in EG; discriminate].
    assert (Hg : g = Ok (Some (mkItem "carol" None)))
      by (vm_compute in EG; inversion EG; reflexivity).
    subst g.
    destruct (DeleteItem "carol"
                (mkPacker
                   (mkConfig
                      (Some (mkStorageView "v2/"
                               {["v2/63" := Byte.x01 :: list_byte_of_string "63|carol"]}
                               [] Demo.reliable)) None 8 4) ∅ 0 ∅ ∅))
      as [[r1 s1]|] eqn:ED; [|vm_compute in ED; discriminate].
    destruct (DeleteItem_absent_noop
                (mkPacker
                   (mkConfig
                      (Some (mkStorageView "v2/"
                               {["v2/63" := Byte.x01 :: list_byte_of_string "63|carol"]}
                               [] Demo.reliable)) None 8 4) ∅ 0 ∅ ∅) "carol")
      as (_ & _ & _ & Hstored & _);
      [discriminate|apply empty_cache_wf; reflexivity|].
    destruct (Hstored _ _ _ _ EG ED) as [Hdel Hget].
    exists r1, s1. split; [reflexivity|]. split; [exact Hdel|exact Hget].
Defined.

(** ** Queue mode: closed examples *)

Lemma queue_mode_then_flush_witness :
  (exists s1,
     PutItem (Some Demo.alice) (with_queueMode 1 (Demo.packer Demo.reliable))
     = Some (None, s1) /\
     bucket_puts s1 = Some []) /\
  (exists s1 l b,
     DeleteItem "alice" (with_queueMode 1 (Demo.loaded Demo.reliable None))
     = Some (None, s1) /\
     queuedBuckets s1 !! Key b = Some l /\ objects s1 !! l = Some b /\
     ItemMap b !! "alice" = None /\
     bucket_puts s1 = Some []) /\
  (exists s2,
     FlushQueue (with_queueMode 1 (Demo.queued Demo.reliable)) = Some (None, s2) /\
     queuedBuckets s2 = ∅ /\
     bucket_data s2 = Some ∅) /\
  (exists s2 data,
     FlushQueue (Demo.queued Demo.reliable) = Some (None, s2) /\
     queuedBuckets s2 = ∅ /\
     persisted s2 "61" = Some data).
Proof.
  split; [|split; [|split]].
  - destruct (queue_mode_then_flush (with_queueMode 1 (Demo.packer Demo.reliable)))
      as [Hon _].
    destruct (Hon eq_refl) as (_ & Hitems & _).
    destruct Hitems as (Hput & _); [apply empty_cache_wf; reflexivity|].
    destruct (PutItem (Some Demo.alice) (with_queueMode 1 (Demo.packer Demo.reliable)))
      as [[r s1]|] eqn:E; [|vm_compute in E; discriminate].
    assert (Hr : r = None) by (vm_compute in E; inversion E; reflexivity).
    subst r. exists s1. split; [reflexivity|].
    destruct (Hput _ _ _ E) as (_ & Hputs & _). rewrite Hputs. reflexivity.
  - destruct (queue_mode_then_flush
                (with_queueMode 1 (Demo.loaded Demo.reliable None))) as [Hon _].
    destruct (Hon eq_refl) as (_ & Hitems & _).
    destruct Hitems as (_ & Hdel); [exact (Demo_loaded_wf Demo.reliable None)|].
    destruct (DeleteItem "alice" (with_queueMode 1 (Demo.loaded Demo.reliable None)))
      as [[r s1]|] eqn:E; [|vm_compute in E; discriminate].
    destruct (Hdel _ _ _ E) as (_ & Hputs & Hqueued).
    destruct (Hqueued Demo.alice (with_queueMode 1 (Demo.loaded Demo.reliable None)))
      as (-> & l & b & Hq & Hb & Hm); [vm_compute; reflexivity|].
    exists s1, l, b. split; [reflexivity|]. split; [exact Hq|].
    split; [exact Hb|]. split; [exact Hm|]. rewrite Hputs. reflexivity.
  - destruct (queue_mode_then_flush
                (with_queueMode 1 (Demo.queued Demo.reliable))) as [Hon _].
    destruct (Hon eq_refl) as (_ & _ & Hflush).
    destruct (FlushQueue (with_queueMode 1 (Demo.queued Demo.reliable)))
      as [[r s2]|] eqn:E; [|vm_compute in E; discriminate].
    destruct (Hflush (Demo_queued_wf Demo.reliable) _ _ eq_refl)
      as (-> & Hq & _ & Hd & _).
    exists s2. split; [reflexivity|]. split; [exact Hq|]. rewrite Hd. reflexivity.
  - destruct (queue_mode_then_flush (Demo.queued Demo.reliable)) as [_ Hoff].
    destruct (FlushQueue (Demo.queued Demo.reliable)) as [[r s2]|] eqn:E;
      [|vm_compute in E; discriminate].
    assert (Hr : r = None) by (vm_compute in E; inversion E; reflexivity).
    subst r.
    destruct (Hoff ltac:(discriminate) (Demo_queued_wf _) s2 eq_refl) as (Hq & Hall).
    destruct (Hall "61" 1%positive _ eq_refl eq_refl) as (data & _ & Hp).
    exists s2, data. split; [reflexivity|]. split; [exact Hq|exact Hp].
Defined.

(** C7, as stated, fails: with queue mode still on, [FlushQueue] after a
    [PutItem] returns [nil] and empties the queue, yet no [put] was made and
    the bucket, which is in memory with the item, is not in the view. *)
Lemma FlushQueue_in_queue_mode_persists_nothing :
  match run [CallSetQueueMode true; CallPutItem (Some Demo.alice); CallFlushQueue]
          (Demo.packer Demo.reliable) with
  | Some (answers, s') =>
      answers = [AnsDone; AnsError None; AnsErrors None] /\
      queueMode s' = 1 /\
      queuedBuckets s' = ∅ /\
      persisted s' "61" = None /\
      bucket_puts s' = Some [] /\
      GetItem "alice" s' = Some (Ok (Some Demo.alice), s')
  | None => False
  end.
Proof. vm_compute. repeat split; reflexivity. Qed.

(** * Further properties of the packer *)

(** ** The two invariants under every operation *)

Section Wellformed.
Context `{ext : Externals}.

Lemma keys_kept_refl (s : StoragePackerV2) : keys_kept s s.
Proof. intros l b Hb. eauto. Qed.

Lemma keys_kept_trans (s s1 s2 : StoragePackerV2) :
  keys_kept s s1 -> keys_kept s1 s2 -> keys_kept s s2.
Proof.
  intros H1 H2 l b Hb. destruct (H1 _ _ Hb) as (b1 & Hb1 & Hk1).
  destruct (H2 _ _ Hb1) as (b2 & Hb2 & Hk2). exists b2. split; [auto|congruence].
Qed.

Lemma keys_kept_same (s s1 : StoragePackerV2) :
  objects s1 = objects s -> keys_kept s s1.
Proof. intros Ho l b Hb. rewrite Ho. eauto. Qed.

Lemma keys_kept_alloc (s s1 : StoragePackerV2) (l : loc) (b : Bucket) :
  objects s !! l = None ->
  objects s1 = <[l := b]> (objects s) ->
  keys_kept s s1.
Proof.
  intros Hfresh Ho l0 b0 Hb0. exists b0. rewrite Ho.
  rewrite lookup_insert_ne by congruence. auto.
Qed.

Lemma keys_kept_edit (s s1 : StoragePackerV2) (l : loc) (b b' : Bucket) :
  objects s !! l = Some b ->
  Key b' = Key b ->
  objects s1 = <[l := b']> (objects s) ->
  keys_kept s s1.
Proof.
  intros Hb Hk Ho l0 b0 Hb0. rewrite Ho.
  destruct (decide (l0 = l)) as [->|Hne].
  - exists b'. rewrite lookup_insert_eq. split; [reflexivity|congruence].
  - exists b0. rewrite lookup_insert_ne by auto. auto.
Qed.

Lemma keys_kept_cache_wf (s s1 : StoragePackerV2) :
  bucketsCache s1 = bucketsCache s -> keys_kept s s1 -> cache_wf s -> cache_wf s1.
Proof.
  intros Hc Hkept Hwf k l Hk. rewrite Hc in Hk.
  destruct (Hwf _ _ Hk) as (b & Hb & Hck).
  destruct (Hkept _ _ Hb) as (b' & Hb' & Hkey).
  exists b'. split; [exact Hb'|congruence].
Qed.

Lemma keys_kept_queue_wf (s s1 : StoragePackerV2) :
  queuedBuckets s1 = queuedBuckets s -> keys_kept s s1 -> queue_wf s -> queue_wf s1.
Proof.
  intros Hq Hkept Hwf k l Hk. rewrite Hq in Hk.
  destruct (Hwf _ _ Hk) as (b & Hb & Hkb).
  destruct (Hkept _ _ Hb) as (b' & Hb' & Hkey).
  exists b'. split; [exact Hb'|congruence].
Qed.

Lemma cache_wf_insert (s s1 : StoragePackerV2) (k : string) (l : loc) (b : Bucket) :
  bucketsCache s1 = <[k := l]> (bucketsCache s) ->
  keys_kept s s1 ->
  objects s1 !! l = Some b ->
  GetCacheKey (Key b) = k ->
  cache_wf s -> cache_wf s1.
Proof.
  intros Hc Hkept Hb Hck Hwf k0 l0. rewrite Hc.
  destruct (decide (k0 = k)) as [->|Hne].
  - rewrite lookup_insert_eq. intros [= <-]. eauto.
  - rewrite lookup_insert_ne by auto. intros Hk.
    destruct (Hwf _ _ Hk) as (b0 & Hb0 & Hck0).
    destruct (Hkept _ _ Hb0) as (b' & Hb' & Hkey).
    exists b'. split; [exact Hb'|congruence].
Qed.

Lemma cache_wf_delete (s s1 : StoragePackerV2) (k : string) :
  bucketsCache s1 = delete k (bucketsCache s) ->
  keys_kept s s1 ->
  cache_wf s -> cache_wf s1.
Proof.
  intros Hc Hkept Hwf k0 l0. rewrite Hc. intros Hk.
  apply lookup_delete_Some in Hk as [_ Hk].
  destruct (Hwf _ _ Hk) as (b0 & Hb0 & Hck0).
  destruct (Hkept _ _ Hb0) as (b' & Hb' & Hkey).
  exists b'. split; [exact Hb'|congruence].
Qed.

Lemma stores_queue_wf (s s' : StoragePackerV2) (l : loc) (r : option error) :
  stores s l r s' -> queue_wf s -> queue_wf s'.
Proof.
  intros Hst Hwf.
  destruct Hst as [b Hq Hb| | | |]; try exact Hwf.
  intros k l0. simpl.
  destruct (decide (k = Key b)) as [->|Hne].
  - rewrite lookup_insert_eq. intros [= <-]. eauto.
  - rewrite lookup_insert_ne by auto. apply Hwf.
Qed.

Lemma resolves_keys_kept (s s1 : StoragePackerV2) (itemID : string)
    (res : Resolution) :
  resolves s itemID s1 res -> keys_kept s s1.
Proof.
  intros H. apply resolves_summary in H as (_ & H).
  destruct res as [l|ck|e].
  - destruct H as [([_ Ho] & _)|(n & b & _ & Hfresh & _ & _ & Ho)].
    + apply keys_kept_same; auto.
    + eapply keys_kept_alloc; eauto.
  - destruct H as ([_ Ho] & _). apply keys_kept_same; auto.
  - destruct H as ([_ Ho] & _). apply keys_kept_same; auto.
Qed.

Lemma prepares_keys_kept (s s1 : StoragePackerV2) (itemID : string) (l : loc) :
  prepares s itemID s1 l -> keys_kept s s1.
Proof.
  intros H. apply prepares_summary in H
    as (_ & [([_ Ho] & _)|(n & b & _ & Hfresh & _ & _ & Ho)]).
  - apply keys_kept_same; auto.
  - eapply keys_kept_alloc; eauto.
Qed.

Lemma PutItem_queue_wf (item : option Item) (s s' : StoragePackerV2)
    (r : option error) :
  cache_wf s -> queue_wf s ->
  PutItem item s = Some (r, s') ->
  queue_wf s'.
Proof.
  intros Hwf Hqwf H. destruct item as [it|]; [|prim_inv H; auto].
  destruct (decide (ID it = "")) as [Hempty|Hid].
  { unfold PutItem in H. rewrite decide_True in H by exact Hempty. prim_inv H.
    auto. }
  apply (PutItem_inv _ _ _ _ Hid Hwf) in H
    as [(e & Hres & ->)|(s1 & l & b & Hprep & Hb & Hst)].
  - pose proof (resolves_summary _ _ _ _ Hres) as ((Hq & _) & _).
    eapply keys_kept_queue_wf; [exact Hq| |exact Hqwf].
    eapply resolves_keys_kept; eauto.
  - eapply stores_queue_wf; [exact Hst|].
    pose proof (prepares_summary _ _ _ _ Hprep) as ((Hq & _) & _).
    apply (keys_kept_queue_wf s); [exact Hq| |exact Hqwf].
    eapply keys_kept_trans; [eapply prepares_keys_kept; eauto|].
    eapply (keys_kept_edit s1 _ l b); [exact Hb| |reflexivity]. reflexivity.
Qed.

Lemma DeleteItem_queue_wf (itemID : string) (s s' : StoragePackerV2)
    (r : option error) :
  cache_wf s -> queue_wf s ->
  DeleteItem itemID s = Some (r, s') ->
  queue_wf s'.
Proof.
  intros Hwf Hqwf H.
  destruct (decide (itemID = "")) as [Hempty|Hid].
  { unfold DeleteItem in H. rewrite decide_True in H by exact Hempty. prim_inv H.
    auto. }
  apply (DeleteItem_inv _ _ _ _ Hid Hwf) in H as (s1 & res & Hres & H).
  pose proof (resolves_summary _ _ _ _ Hres) as ((Hq & _) & _).
  assert (Hqwf1 : queue_wf s1).
  { eapply keys_kept_queue_wf; [exact Hq| |exact Hqwf].
    eapply resolves_keys_kept; eauto. }
  destruct res as [l|ck|e]; [|destruct H as [-> ->]; auto ..].
  destruct H as (b & Hb & H).
  destruct (ItemMap b !! itemID); [|destruct H as [-> ->]; auto].
  eapply stores_queue_wf; [exact H|].
  apply (keys_kept_queue_wf s1); [reflexivity| |exact Hqwf1].
  eapply (keys_kept_edit s1 _ l b); [exact Hb| |reflexivity]. reflexivity.
Qed.

Lemma GetItem_queue_wf (itemID : string) (s s' : StoragePackerV2)
    (r : Result (option Item)) :
  cache_wf s -> queue_wf s ->
  GetItem itemID s = Some (r, s') ->
  queue_wf s'.
Proof.
  intros Hwf Hqwf H.
  destruct (decide (itemID = "")) as [Hempty|Hid].
  { unfold GetItem in H. rewrite decide_True in H by exact Hempty. prim_inv H.
    auto. }
  apply (GetItem_inv _ _ _ _ Hid Hwf) in H as (res & Hres & _).
  pose proof (resolves_summary _ _ _ _ Hres) as ((Hq & _) & _).
  eapply keys_kept_queue_wf; [exact Hq| |exact Hqwf].
  eapply resolves_keys_kept; eauto.
Qed.

End Wellformed.

(** ** Writes that reach the backend *)

Section WriteThrough.
Context `{ext : Externals}.

Lemma PutItem_nonempty_id (item : Item) (s s' : StoragePackerV2) :
  PutItem (Some item) s = Some (None, s') -> ID item <> "".
Proof.
  intros H Hempty. unfold PutItem in H.
  rewrite decide_True in H by exact Hempty. prim_inv H.
Qed.

Lemma PutItem_persists_bucket (s s' : StoragePackerV2) (item : Item) :
  cache_wf s ->
  queueMode s <> 1 ->
  PutItem (Some item) s = Some (None, s') ->
  exists k l b data,
    LongestPrefix (bucketsCache s') (hexVal_of (ID item)) = Some (k, l) /\
    objects s' !! l = Some b /\
    ItemMap b !! ID item = Some (Message item) /\
    encoded b = Ok data /\
    persisted s' (Key b) = Some data.
Proof.
  intros Hwf Hq H.
  pose proof (PutItem_nonempty_id _ _ _ H) as Hid.
  apply (PutItem_inv _ _ _ _ Hid Hwf) in H
    as [(e & _ & [=])|(s1 & l & b & Hprep & Hb & Hst)].
  pose proof (stores_same_memory _ _ _ _ Hst) as [Hc Ho].
  destruct (prepares_routes _ _ _ _ Hprep) as (k & b0 & Hroute & _).
  pose proof (prepares_summary _ _ _ _ Hprep) as ((_ & Hqm & _) & _).
  set (b' := with_ItemMap (<[ID item := Message item]> (ItemMap b)) b).
  assert (Hb' : objects (upserted l b item s1) !! l = Some b')
    by (simpl; apply lookup_insert_eq).
  destruct (stores_persisted _ _ _ b' Hst) as (data & He & Hp);
    [simpl; congruence|exact Hb'|].
  exists k, l, b', data. rewrite Hc, Ho.
  repeat split; auto. simpl. apply lookup_insert_eq.
Qed.

(** X1.  Outside queue mode, a [PutItem] that returns [nil] has stored, under
    the key of the bucket the item now routes to, the encoding of that
    bucket as it is in memory, the item in it. *)
Theorem PutItem_persists (s s' : StoragePackerV2) (item : Item) :
  cache_wf s ->
  queueMode s <> 1 ->
  PutItem (Some item) s = Some (None, s') ->
  exists k l b data,
    LongestPrefix (bucketsCache s') (hexVal_of (ID item)) = Some (k, l) /\
    objects s' !! l = Some b /\
    ItemMap b !! ID item = Some (Message item) /\
    encoded b = Ok data /\
    persisted s' (Key b) = Some data.
Proof. apply PutItem_persists_bucket. Qed.

(** X2.  Outside queue mode, a [DeleteItem] that returns [nil] for an item
    held in memory has stored the encoding of the bucket without the item
    under the bucket's key. *)
Theorem DeleteItem_persists (s s' : StoragePackerV2) (itemID : string)
    (m : option Any) :
  cache_wf s ->
  queueMode s <> 1 ->
  cached_item s itemID m ->
  DeleteItem itemID s = Some (None, s') ->
  exists k l b data,
    LongestPrefix (bucketsCache s') (hexVal_of itemID) = Some (k, l) /\
    objects s' !! l = Some b /\
    ItemMap b !! itemID = None /\
    encoded b = Ok data /\
    persisted s' (Key b) = Some data.
Proof.
  intros Hwf Hq (Hid & k & l & b & Hhit & Hb & Hm) H.
  apply (DeleteItem_inv _ _ _ _ Hid Hwf) in H as (s0 & res & Hres & H).
  destruct Hres as [k' l' b' Hlp Hb'|ck v v' e Hlp Hsl Hv Hg|ck v v' Hlp Hsl Hv Hg
                   |ck v v' se e Hlp Hsl Hv Hg Hdec|ck v v' se l' s2 Hlp Hsl Hv Hg Hdec];
    try congruence.
  assert (l' = l) by congruence; subst l'.
  destruct H as (b0 & Hb0 & H).
  assert (b0 = b) by congruence; subst b0. rewrite Hm in H.
  pose proof (stores_same_memory _ _ _ _ H) as [Hc Ho].
  set (b1 := with_ItemMap (delete itemID (ItemMap b)) b).
  assert (Hb1 : objects (removed l b itemID s) !! l = Some b1)
    by (simpl; apply lookup_insert_eq).
  destruct (stores_persisted _ _ _ b1 H) as (data & He & Hp);
    [simpl; congruence|exact Hb1|].
  exists k, l, b1, data. rewrite Hc, Ho.
  repeat split; auto. simpl. apply lookup_delete_eq.
Qed.

(** X3.  Queue mode end to end: switch queue mode on, [PutItem], switch it
    off, [FlushQueue]; if the write and the flush return [nil], the view
    holds the encoding of a bucket, in memory under the item's route, that
    contains the item. *)
Theorem queued_write_reaches_backend (s s' : StoragePackerV2) (item : Item) :
  cache_wf s ->
  queue_wf s ->
  run [CallSetQueueMode true; CallPutItem (Some item);
       CallSetQueueMode false; CallFlushQueue] s
  = Some ([AnsDone; AnsError None; AnsDone; AnsErrors None], s') ->
  exists k l b data,
    LongestPrefix (bucketsCache s') (hexVal_of (ID item)) = Some (k, l) /\
    objects s' !! l = Some b /\
    ItemMap b !! ID item = Some (Message item) /\
    encoded b = Ok data /\
    persisted s' (Key b) = Some data.
Proof.
  intros Hwf Hqwf H. cbn [run call] in H.
  bind_inv H as a1 s1 H1. bind_inv H1 as u1 s1' Hset1. prim_inv H1.
  simpl in Hset1. prim_inv Hset1.
  bind_inv H as rest1 s2 H2. prim_inv H.
  bind_inv H2 as a2 t3 H3. bind_inv H3 as err t4 Hput. prim_inv H3.
  bind_inv H2 as rest2 s4 H4. prim_inv H2.
  bind_inv H4 as a3 s5 H5. bind_inv H5 as u2 s5' Hset2. prim_inv H5.
  simpl in Hset2. prim_inv Hset2.
  bind_inv H4 as rest3 s6 H6. prim_inv H4.
  bind_inv H6 as a4 s7 H7. bind_inv H7 as errs s7' Hflush. prim_inv H7.
  prim_inv H6.
  match goal with
  | Hp : PutItem _ _ = Some (None, ?x) |- _ => rename x into s3
  end.
  set (son := with_queueMode 1 s) in *.
  assert (Hwf_on : cache_wf son) by exact Hwf.
  assert (Hqwf_on : queue_wf son) by exact Hqwf.
  pose proof (PutItem_queue_wf _ _ _ _ Hwf_on Hqwf_on Hput) as Hqwf3.
  pose proof (PutItem_nonempty_id _ _ _ Hput) as Hid.
  apply (PutItem_inv _ _ _ _ Hid Hwf_on) in Hput
    as [(e & _ & [=])|(s1 & l & b & Hprep & Hb & Hst)].
  pose proof (stores_same_memory _ _ _ _ Hst) as [Hc Ho].
  destruct (prepares_routes _ _ _ _ Hprep) as (k & b0 & Hroute & _).
  pose proof (prepares_summary _ _ _ _ Hprep) as ((_ & Hqm & _) & _).
  set (b' := with_ItemMap (<[ID item := Message item]> (ItemMap b)) b).
  apply stores_queue_mode in Hst as (_ & _ & b1 & Hb1 & Hqueue);
    [|simpl; rewrite Hqm; reflexivity].
  simpl in Hb1. rewrite lookup_insert_eq in Hb1. inversion Hb1; subst b1; clear Hb1.
  pose proof (FlushQueue_same_memory _ _ _ Hflush) as [Hc' Ho'].
  simpl in Hc', Ho'.
  destruct (FlushQueue_persists (with_queueMode 0 s3) s' ltac:(simpl; lia)
              Hqwf3 Hflush (Key b') l b') as (data & He & Hp).
  { simpl. rewrite Hqueue. apply lookup_insert_eq. }
  { simpl. rewrite Ho. simpl. apply lookup_insert_eq. }
  exists k, l, b', data. rewrite Hc', Ho', Hc, Ho.
  repeat split; auto; simpl; apply lookup_insert_eq.
Qed.

End WriteThrough.

(** ** Reading back after a restart *)

Section Reopen.
Context `{ext : Externals}.

Lemma DecodeBucket_run (storageEntry : StorageEntry) (s : StoragePackerV2)
    (plain : bytes) (parsed : Bucket) :
  decode_input storageEntry = Ok plain ->
  proto_Unmarshal plain = Ok parsed ->
  DecodeBucket storageEntry s
  = Some (Ok (fresh (dom (objects s))),
          with_objects
            (<[fresh (dom (objects s)) := with_Key (EntryKey storageEntry) parsed]>
               (objects s)) s).
Proof.
  unfold decode_input, DecodeBucket.
  destruct (compressutil_Decompress _) as [[data nc]|e]; [|discriminate].
  intros [= <-] ->. unfold bind. prim_unfold. simpl.
  rewrite lookup_insert_eq. unfold with_objects; simpl.
  rewrite insert_insert_eq. reflexivity.
Qed.

(** The first steps of [GetItem] on a digest the cache does not know. *)
Lemma GetItem_miss (itemID : string) (s : StoragePackerV2) (ck : string)
    (v v' : StorageView) (g : Result (option StorageEntry)) :
  itemID <> "" ->
  LongestPrefix (bucketsCache s) (hexVal_of itemID) = None ->
  go_slice (hexVal_of itemID) 0 (Z.quot (BaseBucketBits (config s)) 4) = Some ck ->
  BucketStorageView (config s) = Some v ->
  sv_Get v ck = (g, v') ->
  GetItem itemID s =
  match g with
  | Err e => Some (Err (Wrapf "failed to read packed storage value: " e), with_view v' s)
  | Ok None => Some (Ok None, with_view v' s)
  | Ok (Some storageEntry) =>
      (d <- DecodeBucket storageEntry ;;
       found <- match d with
                | Err e =>
                    ret (inl (Err
                      (Wrapf "error decoding existing storage entry for upsert: " e)))
                | Ok bucket => bucketsCache_Insert ck bucket ;;; ret (inr bucket)
                end ;;
       match found with
       | inl early => ret early
       | inr bucket =>
           b <- deref bucket ;;
           if decide (size (ItemMap b) = 0%nat) then ret (Ok None) else
           match ItemMap b !! itemID with
           | None => ret (Ok None)
           | Some item => ret (Ok (Some (mkItem itemID item)))
           end
       end) (with_view v' s)
  end.
Proof.
  intros Hid Hmiss Hsl Hv Hget.
  unfold GetItem. rewrite decide_False by exact Hid.
  rewrite (bind_run _ _ _ _ _ (BucketStorageKeyForItemID_miss _ _ _ Hmiss Hsl)).
  pose proof (go_slice_0 _ _ _ Hsl) as [Hck _].
  assert (Hcache : GetCacheKey ck = ck) by (rewrite Hck; apply GetCacheKey_hex_take).
  rewrite Hcache.
  assert (Hmiss2 : LongestPrefix (bucketsCache s) ck = None)
    by (rewrite Hck; apply LongestPrefix_None_take; exact Hmiss).
  unfold bind at 1. unfold bucketsCache_LongestPrefix at 1, gets at 1.
  rewrite Hmiss2. unfold bind at 1. unfold bind at 1.
  rewrite (BucketStorageView_Get_run _ _ _ _ _ Hv Hget).
  destruct g as [[storageEntry|]|e]; try reflexivity.
  unfold bind. destruct (DecodeBucket storageEntry (with_view v' s)) as [[[l|e] s2]|];
    reflexivity.
Qed.

Lemma sv_Get_run (v : StorageView) (key : string) :
  sv_fault v (sv_log v) (OpGet (sv_prefix v ++ key)) = None ->
  sv_Get v key
  = (Ok (mkStorageEntry key <$> sv_data v !! (sv_prefix v ++ key)),
     sv_called (OpGet (sv_prefix v ++ key)) v).
Proof. intros H. unfold sv_Get. rewrite H. reflexivity. Qed.

(** A packer with an empty cache reads from the view what a bucket with
    the item was stored as. *)
Lemma GetItem_from_view (p : StoragePackerV2) (itemID : string) (v : StorageView)
    (b : Bucket) (data : bytes) (m : option Any) :
  itemID <> "" ->
  length (Blake2b256Hash itemID) = 32%nat ->
  0 <= BaseBucketBits (config p) <= 256 ->
  LongestPrefix (bucketsCache p) (hexVal_of itemID) = None ->
  BucketStorageView (config p) = Some v ->
  sv_fault v (sv_log v) (OpGet (sv_prefix v ++ base_key p itemID)) = None ->
  Key b = base_key p itemID ->
  sv_data v !! (sv_prefix v ++ Key b) = Some data ->
  encoded b = Ok data ->
  codec_round_trip b ->
  ItemMap b !! itemID = Some m ->
  exists p', GetItem itemID p = Some (Ok (Some (mkItem itemID m)), p').
Proof.
  intros Hid Hlen Hbits Hmiss Hv Hfault Hkey Hdata Henc Hrt Hm.
  assert (Hsl : go_slice (hexVal_of itemID) 0 (Z.quot (BaseBucketBits (config p)) 4)
                = Some (base_key p itemID)).
  { apply go_slice_0_in_range. unfold hexVal_of. rewrite hex_length, Hlen.
    rewrite Z.quot_div_nonneg by lia.
    split; [apply Z.div_pos; lia|]. apply Z.div_le_upper_bound; lia. }
  pose proof (sv_Get_run v (base_key p itemID) Hfault) as Hget.
  rewrite Hkey in Hdata. rewrite Hdata in Hget. simpl in Hget.
  rewrite (GetItem_miss _ _ _ _ _ _ Hid Hmiss Hsl Hv Hget).
  destruct (Hrt data Henc) as (plain & parsed & Hdec & Hun & Hitems).
  rewrite Hkey in Hdec.
  rewrite (bind_run _ _ _ _ _ (DecodeBucket_run _ _ _ _ Hdec Hun)).
  unfold bind. prim_unfold. simpl. rewrite lookup_insert_eq. simpl.
  rewrite Hitems. rewrite decide_False.
  - rewrite Hm. eauto.
  - intros Hsz. rewrite (size_zero_lookup _ _ Hsz) in Hm. discriminate.
Qed.

(** X4.  Round trip through a restart.  After a [PutItem] that returned [nil] outside
    queue mode into a bucket stored under the item's base-level key, a
    packer that starts with an empty cache over the same bucket view and
    base bits returns the item from [GetItem], provided the read does not
    fail and the codec gives the stored bucket's items back. *)
Theorem PutItem_survives_reopen (s s' p : StoragePackerV2) (item : Item) :
  cache_wf s ->
  queueMode s <> 1 ->
  length (Blake2b256Hash (ID item)) = 32%nat ->
  0 <= BaseBucketBits (config s) <= 256 ->
  PutItem (Some item) s = Some (None, s') ->
  BucketStorageKeyForItemID (ID item) s' = Some (base_key s (ID item), s') ->
  (forall k l b,
     LongestPrefix (bucketsCache s') (hexVal_of (ID item)) = Some (k, l) ->
     objects s' !! l = Some b -> codec_round_trip b) ->
  bucketsCache p = ∅ ->
  BaseBucketBits (config p) = BaseBucketBits (config s) ->
  BucketStorageView (config p) = BucketStorageView (config s') ->
  (forall v, BucketStorageView (config p) = Some v ->
     sv_fault v (sv_log v) (OpGet (sv_prefix v ++ base_key s (ID item))) = None) ->
  exists p',
    GetItem (ID item) p = Some (Ok (Some (mkItem (ID item) (Message item))), p').
Proof.
  intros Hwf Hq Hlen Hbits Hput Hroute Hrt Hempty Hsame Hview Hfault.
  pose proof (PutItem_nonempty_id _ _ _ Hput) as Hid.
  destruct (PutItem_persists_bucket _ _ _ Hwf Hq Hput)
    as (k & l & b & data & Hlp & Hb & Hm & Henc & Hp).
  apply BucketStorageKeyForItemID_inv in Hroute as [_ Hroute].
  rewrite Hlp in Hroute. destruct Hroute as (b0 & Hb0 & Hkey).
  assert (b0 = b) by congruence; subst b0.
  unfold persisted in Hp. rewrite <- Hview in Hp.
  destruct (BucketStorageView (config p)) as [v|] eqn:Hv; [|discriminate].
  assert (Hbase : base_key p (ID item) = base_key s (ID item))
    by (unfold base_key; rewrite Hsame; reflexivity).
  eapply (GetItem_from_view p (ID item) v b data); eauto.
  - lia.
  - rewrite Hempty. unfold LongestPrefix.
    destruct (LongestPrefix_upto ∅ _ _) as [[k0 l0]|] eqn:E; [|reflexivity].
    apply LongestPrefix_upto_Some in E as (E & _).
    rewrite lookup_empty in E. discriminate.
  - rewrite Hbase. auto.
  - congruence.
Qed.

End Reopen.

(** ** The bucket operations *)

Section BucketOps.
Context `{ext : Externals}.

Lemma with_Buckets_twice (x y : option (gmap string Bucket)) (b : Bucket) :
  with_Buckets x (with_Buckets y b) = with_Buckets x b.
Proof. reflexivity. Qed.

(** The loop of [shardBucket] only ever replaces the children map of the
    one bucket object, and every child it adds is a zero-valued bucket. *)
Lemma shardBucket_loop_inv (rounds : nat) (i : Z) (l : loc)
    (s s' : StoragePackerV2) (u : unit) :
  shardBucket_loop rounds i l s = Some (u, s') ->
  s' = s \/
  exists b children children',
    objects s !! l = Some b /\
    Buckets b = Some children /\
    s' = with_objects (<[l := with_Buckets (Some children') b]> (objects s)) s /\
    forall label c, children' !! label = Some c ->
      children !! label = Some c \/ c = mkBucket "" ∅ None.
Proof.
  revert i s. induction rounds as [|rounds IH]; intros i s H.
  - prim_inv H. auto.
  - cbn [shardBucket_loop] in H. bind_inv H as b s1 Hd.
    unfold deref in Hd. destruct (objects s !! l) as [b0|] eqn:Hb; [|discriminate].
    inversion Hd; subst b0 s1; clear Hd.
    destruct (Buckets b) as [children|] eqn:Hch; [|discriminate].
    bind_inv H as u1 s2 Ha. prim_inv Ha.
    right. exists b, children.
    apply IH in H as [-> | (b1 & ch1 & ch1' & Hb1 & Hch1 & -> & Hnew)].
    + eexists. split; [reflexivity|]. split; [exact Hch|]. split; [reflexivity|].
      intros label c Hc.
      destruct (decide (label = sprintf_x i)) as [->|Hne].
      * rewrite lookup_insert_eq in Hc. inversion Hc. auto.
      * rewrite lookup_insert_ne in Hc by auto. auto.
    + simpl in Hb1. rewrite lookup_insert_eq in Hb1. inversion Hb1; subst b1; clear Hb1.
      simpl in Hch1. inversion Hch1; subst ch1; clear Hch1.
      exists ch1'. split; [reflexivity|]. split; [exact Hch|]. split.
      * unfold with_objects; simpl. rewrite insert_insert_eq. reflexivity.
      * intros label c Hc. destruct (Hnew _ _ Hc) as [Hold | ->]; [|auto].
        destruct (decide (label = sprintf_x i)) as [->|Hne].
        -- rewrite lookup_insert_eq in Hold. inversion Hold. auto.
        -- rewrite lookup_insert_ne in Hold by auto. auto.
Qed.

Lemma shardBucket_inv (l : loc) (s s' : StoragePackerV2) (r : option error) :
  shardBucket l s = Some (r, s') ->
  r = None /\
  (s' = s \/
   exists b children children',
     objects s !! l = Some b /\
     Buckets b = Some children /\
     s' = with_objects (<[l := with_Buckets (Some children') b]> (objects s)) s /\
     forall label c, children' !! label = Some c ->
       children !! label = Some c \/ c = mkBucket "" ∅ None).
Proof.
  unfold shardBucket. intros H. bind_inv H as bits s1 Hg. prim_inv Hg.
  bind_inv H as u s2 Hloop. prim_inv H. destruct u.
  split; [reflexivity|]. eapply shardBucket_loop_inv; eauto.
Qed.

Lemma shardBucket_keys_kept (l : loc) (s s' : StoragePackerV2) (r : option error) :
  shardBucket l s = Some (r, s') ->
  config s' = config s /\ bucketsCache s' = bucketsCache s /\
  queuedBuckets s' = queuedBuckets s /\ queueMode s' = queueMode s /\
  keys_kept s s'.
Proof.
  intros H. apply shardBucket_inv in H
    as (_ & [-> | (b & ch & ch' & Hb & _ & -> & _)]).
  - repeat split; auto. apply keys_kept_refl.
  - repeat split; auto.
    eapply (keys_kept_edit s _ l b); [exact Hb| |reflexivity]. reflexivity.
Qed.

(** X5.  Whatever [shardBucket] returns, its loop has made no call on the
    backend and changed neither the cache nor the queue; every bucket
    object has its key and its items as before, objects other than the one
    given are untouched, and every child the given bucket has gained is a
    zero-valued bucket: no item is ever moved. *)
Theorem shardBucket_moves_nothing (l : loc) (s s' : StoragePackerV2)
    (r : option error) :
  shardBucket l s = Some (r, s') ->
  config s' = config s /\
  bucketsCache s' = bucketsCache s /\
  queuedBuckets s' = queuedBuckets s /\
  (forall l0 b0, objects s !! l0 = Some b0 ->
     exists b0', objects s' !! l0 = Some b0' /\
       Key b0' = Key b0 /\ ItemMap b0' = ItemMap b0 /\
       (l0 <> l -> b0' = b0) /\
       forall label c children',
         Buckets b0' = Some children' -> children' !! label = Some c ->
         (exists children, Buckets b0 = Some children /\ children !! label = Some c)
         \/ c = mkBucket "" ∅ None).
Proof.
  intros H. apply shardBucket_inv in H
    as (_ & [-> | (b & ch & ch' & Hb & Hch & -> & Hnew)]).
  - repeat split; auto. intros l0 b0 Hb0. exists b0.
    repeat split; auto. intros label c children' Hc Hl. left. eauto.
  - repeat split; auto. intros l0 b0 Hb0. simpl.
    destruct (decide (l0 = l)) as [->|Hne].
    + assert (b0 = b) by congruence; subst b0.
      eexists. rewrite lookup_insert_eq. split; [reflexivity|].
      repeat split; auto; [contradiction|].
      intros label c children' Hc Hl. simpl in Hc. inversion Hc; subst children'.
      destruct (Hnew _ _ Hl) as [Hold | ->]; [left; eauto|right; reflexivity].
    + exists b0. rewrite lookup_insert_ne by auto.
      repeat split; auto. intros label c children' Hc Hl. left. eauto.
Qed.

(** *** [GetBucket] *)

Lemma GetBucket_inv (key : string) (skipCache : bool) (s s' : StoragePackerV2)
    (r : Result (option loc)) :
  key <> "" ->
  GetBucket key skipCache s = Some (r, s') ->
  (skipCache = false /\
   exists k l, LongestPrefix (bucketsCache s) (GetCacheKey key) = Some (k, l) /\
               r = Ok (Some l) /\ s' = s) \/
  ((skipCache = true \/ LongestPrefix (bucketsCache s) (GetCacheKey key) = None) /\
   exists v v' g,
     BucketStorageView (config s) = Some v /\
     sv_Get v key = (g, v') /\
     match g with
     | Err e =>
         r = Err (Wrapf "failed to read packed storage entry: " e) /\
         s' = with_view v' s
     | Ok None => r = Ok None /\ s' = with_view v' s
     | Ok (Some storageEntry) =>
         exists d s2,
           DecodeBucket storageEntry (with_view v' s) = Some (d, s2) /\
           match d with
           | Err e => r = Err e /\ s' = s2
           | Ok l =>
               r = Ok (Some l) /\
               s' = with_bucketsCache (<[GetCacheKey key := l]> (bucketsCache s2)) s2
           end
     end).
Proof.
  intros Hkey H. unfold GetBucket in H.
  rewrite decide_False in H by exact Hkey.
  bind_inv H as hit s1 Hl. prim_inv Hl.
  assert (Hback :
    (g <- BucketStorageView_Get key ;;
     match g with
     | Err e => ret (Err (Wrapf "failed to read packed storage entry: " e))
     | Ok None => ret (Ok None)
     | Ok (Some storageEntry) =>
         d <- DecodeBucket storageEntry ;;
         match d with
         | Err e => ret (Err e)
         | Ok bucket =>
             bucketsCache_Insert (GetCacheKey key) bucket ;;; ret (Ok (Some bucket))
         end
     end) s1 = Some (r, s') ->
    exists v v' g,
     BucketStorageView (config s1) = Some v /\
     sv_Get v key = (g, v') /\
     match g with
     | Err e =>
         r = Err (Wrapf "failed to read packed storage entry: " e) /\
         s' = with_view v' s1
     | Ok None => r = Ok None /\ s' = with_view v' s1
     | Ok (Some storageEntry) =>
         exists d s2,
           DecodeBucket storageEntry (with_view v' s1) = Some (d, s2) /\
           match d with
           | Err e => r = Err e /\ s' = s2
           | Ok l =>
               r = Ok (Some l) /\
               s' = with_bucketsCache (<[GetCacheKey key := l]> (bucketsCache s2)) s2
           end
     end).
  { intros Hrun. bind_inv Hrun as g s2 Hg.
    apply BucketStorageView_Get_inv in Hg as (v & v' & Hv & Hget & ->).
    exists v, v', g. split; [exact Hv|]. split; [exact Hget|].
    destruct g as [[se|]|e]; [|prim_inv Hrun; auto ..].
    bind_inv Hrun as d s3 Hd. exists d, s3. split; [exact Hd|].
    destruct d as [l|e]; [|prim_inv Hrun; auto].
    bind_inv Hrun as u s4 Hi. prim_inv Hi. prim_inv Hrun. auto. }
  destruct (LongestPrefix (bucketsCache s1) (GetCacheKey key)) as [[k l]|] eqn:Hlp;
    destruct skipCache.
  - bind_inv H as hit2 s2 Hl2. prim_inv Hl2. rewrite Hlp in H.
    right. split; [auto|]. apply Hback. exact H.
  - prim_inv H. left. split; [reflexivity|]. eauto.
  - bind_inv H as hit2 s2 Hl2. prim_inv Hl2. rewrite Hlp in H.
    right. split; [auto|]. apply Hback. exact H.
  - bind_inv H as hit2 s2 Hl2. prim_inv Hl2. rewrite Hlp in H.
    right. split; [auto|]. apply Hback. exact H.
Qed.

Lemma GetBucket_hit (key : string) (s : StoragePackerV2) (k : string) (l : loc) :
  key <> "" ->
  LongestPrefix (bucketsCache s) (GetCacheKey key) = Some (k, l) ->
  GetBucket key false s = Some (Ok (Some l), s).
Proof.
  intros Hkey Hlp. unfold GetBucket. rewrite decide_False by exact Hkey.
  unfold bind. prim_unfold. rewrite Hlp. reflexivity.
Qed.

(** X6.  With [skipCache] off, [GetBucket] of a key whose cache form has a
    cached prefix returns the bucket cached under the longest such prefix,
    which need not be the key asked for, without any call on the backend
    and without changing the packer. *)
Theorem GetBucket_cached (key : string) (s : StoragePackerV2) (k : string)
    (l : loc) :
  key <> "" ->
  LongestPrefix (bucketsCache s) (GetCacheKey key) = Some (k, l) ->
  GetBucket key false s = Some (Ok (Some l), s) /\
  bucketsCache s !! k = Some l /\
  exists n, k = str_take n (GetCacheKey key).
Proof.
  intros Hkey Hlp. split; [eapply GetBucket_hit; eauto|].
  apply LongestPrefix_Some in Hlp as (Hk & n & _ & -> & _). eauto.
Qed.

Lemma with_view_same_backend (s : StoragePackerV2) (v v' : StorageView) :
  BucketStorageView (config s) = Some v ->
  sv_data v' = sv_data v ->
  puts_of v' = puts_of v ->
  same_backend s (with_view v' s).
Proof.
  intros Hv Hd Hp. unfold same_backend, bucket_data, bucket_puts; simpl.
  rewrite Hv; simpl. repeat split; congruence.
Qed.

Lemma GetBucket_effects (key : string) (skipCache : bool)
    (s s' : StoragePackerV2) (r : Result (option loc)) :
  cache_wf s ->
  key <> "" ->
  GetBucket key skipCache s = Some (r, s') ->
  same_backend s s' /\
  cache_wf s' /\
  keys_kept s s' /\
  match r with
  | Ok (Some l) =>
      exists b, objects s' !! l = Some b /\
        (s' = s \/
         (objects s !! l = None /\ Key b = key /\
          bucketsCache s' = <[GetCacheKey key := l]> (bucketsCache s)))
  | _ => bucketsCache s' = bucketsCache s /\ objects s' = objects s
  end.
Proof.
  intros Hwf Hkey H.
  apply (GetBucket_inv _ _ _ _ _ Hkey) in H
    as [(_ & k & l & Hlp & -> & ->)|(_ & v & v' & g & Hv & Hget & H)].
  - split; [repeat split|]. split; [exact Hwf|]. split; [apply keys_kept_refl|].
    apply LongestPrefix_Some in Hlp as (Hk & _).
    destruct (Hwf _ _ Hk) as (b & Hb & _). eauto.
  - pose proof (with_view_get_same_backend _ _ _ _ _ Hv Hget) as Hback.
    assert (Hsame : cache_wf (with_view v' s) /\ keys_kept s (with_view v' s) /\
                    bucketsCache (with_view v' s) = bucketsCache s /\
                    objects (with_view v' s) = objects s).
    { split; [exact Hwf|]. split; [apply keys_kept_same; reflexivity|].
      split; reflexivity. }
    destruct g as [[se|]|e].
    + destruct H as (d & s2 & Hd & H).
      apply DecodeBucket_inv in Hd. destruct d as [l|e].
      * destruct Hd as (data & parsed & _ & _ & Hfresh & ->).
        destruct H as [-> ->]. simpl in Hfresh.
        apply sv_Get_inv in Hget as [_ Hentry].
        assert (Hek : EntryKey se = key).
        { destruct (sv_data v !! _); inversion Hentry; reflexivity. }
        assert (Hkept : keys_kept s
                  (with_bucketsCache
                     (<[GetCacheKey key := l]>
                        (bucketsCache
                           (with_objects
                              (<[l := with_Key (EntryKey se) parsed]>
                                 (objects (with_view v' s))) (with_view v' s))))
                     (with_objects
                        (<[l := with_Key (EntryKey se) parsed]>
                           (objects (with_view v' s))) (with_view v' s))))
          by (eapply keys_kept_alloc; [exact Hfresh|reflexivity]).
        split; [exact Hback|]. split; [|split; [exact Hkept|]].
        -- eapply (cache_wf_insert s _ (GetCacheKey key) l
                     (with_Key (EntryKey se) parsed)); try reflexivity; auto.
           ++ simpl. apply lookup_insert_eq.
           ++ simpl. rewrite Hek. reflexivity.
        -- eexists. split; [simpl; apply lookup_insert_eq|].
           right. split; [exact Hfresh|]. split; [exact Hek|reflexivity].
      * subst s2. destruct H as [-> ->]. split; [exact Hback|]. exact Hsame.
    + destruct H as [-> ->]. split; [exact Hback|]. exact Hsame.
    + destruct H as [-> ->]. split; [exact Hback|]. exact Hsame.
Qed.

(** X7.  [GetBucket] never writes to the backend and leaves the queue
    alone; it keeps the cache well formed and every bucket object in place
    under its key; when it returns an error or no bucket, the cache and the
    bucket objects are as before (a failed or empty read does not populate
    the index); when it returns a bucket read from the backend, that bucket
    is a new object whose key is the key asked for, entered in the cache
    under the key's cache form. *)
Theorem GetBucket_read_path (key : string) (skipCache : bool)
    (s s' : StoragePackerV2) (r : Result (option loc)) :
  cache_wf s ->
  key <> "" ->
  GetBucket key skipCache s = Some (r, s') ->
  same_backend s s' /\
  cache_wf s' /\
  keys_kept s s' /\
  match r with
  | Ok (Some l) =>
      exists b, objects s' !! l = Some b /\
        (s' = s \/
         (objects s !! l = None /\ Key b = key /\
          bucketsCache s' = <[GetCacheKey key := l]> (bucketsCache s)))
  | _ => bucketsCache s' = bucketsCache s /\ objects s' = objects s
  end.
Proof. apply GetBucket_effects. Qed.

(** *** [PutBucket] *)

Lemma PutBucket_inv (l : loc) (s s' : StoragePackerV2) (r : option error) :
  PutBucket (Some l) s = Some (r, s') ->
  exists b, objects s !! l = Some b /\
    ((Key b = "" /\ r = Some "missing key" /\ s' = s) \/
     (Key b <> "" /\
      exists err s1, stores s l err s1 /\
        ((err = None /\ r = None /\
          s' = with_bucketsCache (<[GetCacheKey (Key b) := l]> (bucketsCache s1)) s1) \/
         (exists e, err = Some e /\ strings_Contains e ErrValueTooLarge = false /\
                    r = Some e /\ s' = s1) \/
         (exists e s2, err = Some e /\ strings_Contains e ErrValueTooLarge = true /\
                       shardBucket l s1 = Some (None, s2) /\ r = None /\
                       s' = with_bucketsCache
                              (<[GetCacheKey (Key b) := l]> (bucketsCache s2)) s2)))).
Proof.
  unfold PutBucket. intros H. bind_inv H as b s0 Hd.
  unfold deref in Hd. destruct (objects s !! l) as [b0|] eqn:Hb; [|discriminate].
  inversion Hd; subst b0 s0; clear Hd.
  exists b. split; [reflexivity|].
  case_decide as Hkey; [prim_inv H; auto|].
  right. split; [exact Hkey|].
  bind_inv H as err s1 Hst. apply storeBucket_stores in Hst.
  pose proof (stores_memory _ _ _ _ Hst) as (Ho & _).
  exists err, s1. split; [exact Hst|].
  bind_inv H as err2 s2 Hsh.
  destruct err as [e|].
  - destruct (strings_Contains e ErrValueTooLarge) eqn:Hc.
    + pose proof (shardBucket_inv _ _ _ _ Hsh) as [-> Hs2].
      pose proof (shardBucket_keys_kept _ _ _ _ Hsh) as (_ & _ & _ & _ & Hkept).
      bind_inv H as b2 s3 Hd2. unfold deref in Hd2.
      destruct (Hkept l b) as (b' & Hb' & Hk'); [congruence|].
      rewrite Hb' in Hd2. inversion Hd2; subst b2 s3; clear Hd2.
      bind_inv H as u s4 Hi. prim_inv Hi. prim_inv H.
      right. right. exists e, s2. rewrite Hk'. auto.
    + prim_inv Hsh. prim_inv H. right. left. eauto.
  - prim_inv Hsh. bind_inv H as b2 s3 Hd2. unfold deref in Hd2.
    rewrite Ho, Hb in Hd2. inversion Hd2; subst b2 s3; clear Hd2.
    bind_inv H as u s4 Hi. prim_inv Hi. prim_inv H. left. auto.
Qed.

Lemma stores_failed_backend (s s' : StoragePackerV2) (l : loc) (e : error) :
  stores s l (Some e) s' ->
  queuedBuckets s' = queuedBuckets s /\ bucket_data s' = bucket_data s.
Proof.
  intros H. inversion H as [| | |b data v v' e0 Hq Hb He Hv Hp|]; subst; auto.
  apply sv_Put_inv in Hp as (_ & _ & Hdata).
  split; [reflexivity|]. unfold bucket_data; simpl. rewrite Hv; simpl. congruence.
Qed.

(** X8.  When [PutBucket] returns an error, the cache, the bucket objects,
    the queue and the contents of the bucket view are all as before: unlike
    [PutItem], it enters the bucket in the cache only after the store (or
    the split) went through. *)
Theorem PutBucket_failure_keeps_index (bucket : option loc)
    (s s' : StoragePackerV2) (e : error) :
  PutBucket bucket s = Some (Some e, s') ->
  bucketsCache s' = bucketsCache s /\
  objects s' = objects s /\
  queuedBuckets s' = queuedBuckets s /\
  bucket_data s' = bucket_data s.
Proof.
  intros H. destruct bucket as [l|]; [|prim_inv H; auto].
  apply PutBucket_inv in H as (b & Hb & [(_ & _ & ->)|(_ & err & s1 & Hst & H)]);
    [auto|].
  destruct H as [(_ & [=] & _)|[(e0 & -> & _ & [= <-] & ->)|(e0 & s2 & _ & _ & _ & [=] & _)]].
  pose proof (stores_memory _ _ _ _ Hst) as (Ho & Hc & _).
  pose proof (stores_failed_backend _ _ _ _ Hst) as (Hq & Hd).
  auto.
Qed.

(** X9.  After a [PutBucket] that returned [nil], the bucket is an object
    with a non-empty key, the cache maps the key's cache form to it, and
    [GetBucket] of that key hands the same object back without changing
    the packer. *)
Theorem PutBucket_then_GetBucket (l : loc) (s s' : StoragePackerV2) :
  PutBucket (Some l) s = Some (None, s') ->
  exists b,
    objects s' !! l = Some b /\
    Key b <> "" /\
    bucketsCache s' !! GetCacheKey (Key b) = Some l /\
    GetBucket (Key b) false s' = Some (Ok (Some l), s').
Proof.
  intros H.
  apply PutBucket_inv in H as (b & Hb & [(_ & [=] & _)|(Hkey & err & s1 & Hst & H)]).
  pose proof (stores_memory _ _ _ _ Hst) as (Ho & _).
  assert (Hfin : forall s2 b2,
    objects s2 !! l = Some b2 -> Key b2 = Key b ->
    s' = with_bucketsCache (<[GetCacheKey (Key b) := l]> (bucketsCache s2)) s2 ->
    exists b, objects s' !! l = Some b /\ Key b <> "" /\
      bucketsCache s' !! GetCacheKey (Key b) = Some l /\
      GetBucket (Key b) false s' = Some (Ok (Some l), s')).
  { intros s2 b2 Hb2 Hk2 ->. exists b2. rewrite Hk2.
    assert (Hin : bucketsCache
                    (with_bucketsCache (<[GetCacheKey (Key b) := l]> (bucketsCache s2)) s2)
                  !! GetCacheKey (Key b) = Some l)
      by (simpl; apply lookup_insert_eq).
    split; [exact Hb2|]. split; [exact Hkey|]. split; [exact Hin|].
    eapply GetBucket_hit; [exact Hkey|].
    apply LongestPrefix_self. exact Hin. }
  destruct H as [(_ & _ & Hs')|[(e0 & _ & _ & [=] & _)|(e0 & s2 & _ & _ & Hsh & _ & Hs')]].
  - eapply Hfin; [|reflexivity|exact Hs']. rewrite Ho. exact Hb.
  - pose proof (shardBucket_keys_kept _ _ _ _ Hsh) as (_ & _ & _ & _ & Hkept).
    destruct (Hkept l b) as (b' & Hb' & Hk'); [congruence|].
    eapply Hfin; eauto.
Qed.

(** X10.  Outside queue mode, a [PutBucket] that returned [nil] has either
    stored the encoding of the bucket under its key, or got an error whose
    text contains "value too large" from [storeBucket], ran [shardBucket]
    and stored nothing: the view's contents are then as before. *)
Theorem PutBucket_nil_outcomes (l : loc) (s s' : StoragePackerV2) (b : Bucket) :
  queueMode s <> 1 ->
  objects s !! l = Some b ->
  PutBucket (Some l) s = Some (None, s') ->
  (exists data, encoded b = Ok data /\ persisted s' (Key b) = Some data /\
                objects s' = objects s) \/
  (bucket_data s' = bucket_data s /\
   exists e s1 s2,
     stores s l (Some e) s1 /\ strings_Contains e ErrValueTooLarge = true /\
     shardBucket l s1 = Some (None, s2)).
Proof.
  intros Hq Hb H.
  apply PutBucket_inv in H as (b0 & Hb0 & [(_ & [=] & _)|(Hkey & err & s1 & Hst & H)]).
  assert (b0 = b) by congruence; subst b0.
  destruct H as [(-> & _ & ->)|[(e0 & _ & _ & [=] & _)|(e0 & s2 & -> & Hc & Hsh & _ & ->)]].
  - left. destruct (stores_persisted _ _ _ _ Hst Hq Hb) as (data & He & Hp).
    pose proof (stores_memory _ _ _ _ Hst) as (Ho & _).
    exists data. auto.
  - right. split; [|exists e0, s1, s2; auto].
    pose proof (shardBucket_keys_kept _ _ _ _ Hsh) as (Hcfg & _).
    pose proof (stores_failed_backend _ _ _ _ Hst) as (_ & Hd).
    rewrite <- Hd. unfold bucket_data. simpl. rewrite Hcfg. reflexivity.
Qed.

(** *** [DeleteBucket] *)

Lemma sv_Delete_inv (v v' : StorageView) (key : string) (r : option error) :
  sv_Delete v key = (r, v') ->
  sv_prefix v' = sv_prefix v /\
  puts_of v' = puts_of v /\
  sv_data v' =
    match r with
    | None => delete (sv_prefix v ++ key) (sv_data v)
    | Some _ => sv_data v
    end.
Proof.
  unfold sv_Delete. destruct (sv_fault _ _ _); intros H; inversion H; subst;
    (split; [reflexivity|]; split; [|reflexivity]);
    unfold puts_of; simpl; rewrite List.filter_app; simpl; apply app_nil_r.
Qed.

(** X11.  [DeleteBucket] of a non-empty key leaves the bucket objects and
    the queue as they are (a bucket queued under the key stays queued) and
    makes no [put].  When it returns [nil], the key is gone from the view,
    every other key of the view is as before, and the cache has lost
    exactly the entry under the key's cache form; when it returns an error,
    cache and view contents are as before. *)
Theorem DeleteBucket_spec (key : string) (s s' : StoragePackerV2)
    (r : option error) :
  key <> "" ->
  DeleteBucket key s = Some (r, s') ->
  objects s' = objects s /\
  queuedBuckets s' = queuedBuckets s /\
  bucket_puts s' = bucket_puts s /\
  match r with
  | None =>
      persisted s' key = None /\
      (forall x, x <> key -> persisted s' x = persisted s x) /\
      bucketsCache s' = delete (GetCacheKey key) (bucketsCache s)
  | Some _ =>
      bucketsCache s' = bucketsCache s /\ bucket_data s' = bucket_data s
  end.
Proof.
  intros Hkey H. unfold DeleteBucket in H.
  rewrite decide_False in H by exact Hkey.
  bind_inv H as err s1 Hd. unfold BucketStorageView_Delete in Hd.
  destruct (BucketStorageView (config s)) as [v|] eqn:Hv; [|discriminate].
  destruct (sv_Delete v key) as [err' v'] eqn:Hdel.
  inversion Hd; subst err' s1; clear Hd.
  apply sv_Delete_inv in Hdel as (Hpre & Hputs & Hdata).
  assert (Hp : bucket_puts
                 (with_config (with_BucketStorageView (Some v') (config s)) s)
               = bucket_puts s).
  { unfold bucket_puts; simpl. rewrite Hv; simpl. congruence. }
  destruct err as [e|].
  - prim_inv H. repeat split; auto.
    unfold bucket_data; simpl. rewrite Hv; simpl. congruence.
  - bind_inv H as u s2 Hc. prim_inv Hc. prim_inv H.
    repeat split; auto.
    + unfold persisted; simpl. rewrite Hpre, Hdata. apply lookup_delete_eq.
    + intros x Hx. unfold persisted; simpl. rewrite Hv, Hpre, Hdata.
      apply lookup_delete_ne. intros Heq. apply append_inj_l in Heq. congruence.
Qed.

End BucketOps.

(** ** The invariants along the whole API *)

Section ApiInvariants.
Context `{ext : Externals}.

Lemma call_wf (c : Call) (a : Answer) (s s' : StoragePackerV2) :
  cache_wf s -> queue_wf s ->
  call c s = Some (a, s') ->
  cache_wf s' /\ queue_wf s'.
Proof.
  intros Hwf Hqwf H.
  split.
  { eapply (call_memory c a s s' "" None); eauto. discriminate. }
  destruct c as [item|itemID|itemID|enabled|]; simpl in H.
  - bind_inv H as err s1 Hput. prim_inv H. eapply PutItem_queue_wf; eauto.
  - bind_inv H as err s1 Hdel. prim_inv H. eapply DeleteItem_queue_wf; eauto.
  - bind_inv H as r s1 Hget. prim_inv H. eapply GetItem_queue_wf; eauto.
  - bind_inv H as u s1 Hset. prim_inv H.
    destruct enabled; prim_inv Hset; exact Hqwf.
  - bind_inv H as errs s1 Hflush. prim_inv H.
    apply empty_queue_wf. eapply FlushQueue_empties; eauto.
Qed.

Lemma GetBucket_wf (key : string) (skipCache : bool) (s s' : StoragePackerV2)
    (r : Result (option loc)) :
  cache_wf s -> queue_wf s ->
  GetBucket key skipCache s = Some (r, s') ->
  cache_wf s' /\ queue_wf s'.
Proof.
  intros Hwf Hqwf H.
  destruct (decide (key = "")) as [Hempty|Hkey].
  { unfold GetBucket in H. rewrite decide_True in H by exact Hempty. prim_inv H.
    auto. }
  apply (GetBucket_effects _ _ _ _ _ Hwf Hkey) in H as ((Hq & _) & Hwf' & Hkept & _).
  split; [exact Hwf'|].
  apply (keys_kept_queue_wf s); auto.
Qed.

Lemma PutBucket_wf (bucket : option loc) (s s' : StoragePackerV2)
    (r : option error) :
  cache_wf s -> queue_wf s ->
  PutBucket bucket s = Some (r, s') ->
  cache_wf s' /\ queue_wf s'.
Proof.
  intros Hwf Hqwf H. destruct bucket as [l|]; [|prim_inv H; auto].
  apply PutBucket_inv in H as (b & Hb & [(_ & _ & ->)|(Hkey & err & s1 & Hst & H)]);
    [auto|].
  pose proof (stores_memory _ _ _ _ Hst) as (Ho & Hc & _).
  assert (Hwf1 : cache_wf s1)
    by (eapply same_memory_cache_wf; [split; eassumption|exact Hwf]).
  pose proof (stores_queue_wf _ _ _ _ Hst Hqwf) as Hqwf1.
  assert (Hfin : forall s2,
    keys_kept s1 s2 -> bucketsCache s2 = bucketsCache s1 ->
    queuedBuckets s2 = queuedBuckets s1 ->
    cache_wf (with_bucketsCache (<[GetCacheKey (Key b) := l]> (bucketsCache s2)) s2) /\
    queue_wf (with_bucketsCache (<[GetCacheKey (Key b) := l]> (bucketsCache s2)) s2)).
  { intros s2 Hkept Hc2 Hq2.
    destruct (Hkept l b) as (b' & Hb' & Hk'); [congruence|].
    split.
    - eapply (cache_wf_insert s1 _ (GetCacheKey (Key b)) l b'); auto.
      + simpl. rewrite Hc2. reflexivity.
      + rewrite Hk'. reflexivity.
    - apply (keys_kept_queue_wf s1); auto. }
  destruct H as [(_ & _ & ->)|[(e0 & _ & _ & _ & ->)|(e0 & s2 & _ & _ & Hsh & _ & ->)]].
  - apply Hfin; auto. apply keys_kept_same; reflexivity.
  - auto.
  - pose proof (shardBucket_keys_kept _ _ _ _ Hsh) as (_ & Hc2 & Hq2 & _ & Hkept).
    apply Hfin; auto.
Qed.

Lemma DeleteBucket_wf (key : string) (s s' : StoragePackerV2) (r : option error) :
  cache_wf s -> queue_wf s ->
  DeleteBucket key s = Some (r, s') ->
  cache_wf s' /\ queue_wf s'.
Proof.
  intros Hwf Hqwf H. unfold DeleteBucket in H.
  case_decide as Hkey; [prim_inv H; auto|].
  bind_inv H as err s1 Hd. unfold BucketStorageView_Delete in Hd.
  destruct (BucketStorageView (config s)) as [v|] eqn:Hv; [|discriminate].
  destruct (sv_Delete v key) as [err' v'] eqn:Hdel.
  inversion Hd; subst err' s1; clear Hd.
  destruct err as [e|].
  - prim_inv H. auto.
  - bind_inv H as u s2 Hc. prim_inv Hc. prim_inv H. split.
    + eapply (cache_wf_delete s _ (GetCacheKey key)); [reflexivity| |exact Hwf].
      apply keys_kept_same. reflexivity.
    + exact Hqwf.
Qed.

Lemma DecodeBucket_wf (storageEntry : StorageEntry) (s s' : StoragePackerV2)
    (r : Result loc) :
  cache_wf s -> queue_wf s ->
  DecodeBucket storageEntry s = Some (r, s') ->
  cache_wf s' /\ queue_wf s'.
Proof.
  intros Hwf Hqwf H. apply DecodeBucket_inv in H. destruct r as [l|e].
  - destruct H as (data & parsed & _ & _ & Hfresh & ->).
    assert (Hkept : keys_kept s
              (with_objects
                 (<[l := with_Key (EntryKey storageEntry) parsed]> (objects s)) s))
      by (eapply keys_kept_alloc; [exact Hfresh|reflexivity]).
    split.
    + apply (keys_kept_cache_wf s); auto.
    + apply (keys_kept_queue_wf s); auto.
  - subst s'. auto.
Qed.

Lemma api_call_wf (c : ApiCall) (u : unit) (s s' : StoragePackerV2) :
  cache_wf s -> queue_wf s ->
  api_call c s = Some (u, s') ->
  cache_wf s' /\ queue_wf s'.
Proof.
  intros Hwf Hqwf H. destruct c; simpl in H;
    bind_inv H as r s1 Hop; prim_inv H.
  - eapply call_wf; eauto.
  - eapply GetBucket_wf; eauto.
  - eapply PutBucket_wf; eauto.
  - eapply DeleteBucket_wf; eauto.
  - eapply DecodeBucket_wf; eauto.
Qed.

(** X12.  Both invariants survive every sequence of API calls (item
    operations, queue switch and flush, [GetBucket], [PutBucket] with its
    split, [DeleteBucket], [DecodeBucket]), whatever the backend answers:
    afterwards every cache entry still points to a bucket object whose key
    has the entry's key as cache form, and every queued entry to a bucket
    object filed under its own key. *)
Theorem api_keeps_wellformed (calls : list ApiCall) (u : unit)
    (s s' : StoragePackerV2) :
  cache_wf s -> queue_wf s ->
  api_run calls s = Some (u, s') ->
  cache_wf s' /\ queue_wf s'.
Proof.
  revert s. induction calls as [|c rest IH]; intros s Hwf Hqwf H.
  - prim_inv H. auto.
  - cbn [api_run] in H. bind_inv H as u1 s1 Hc.
    destruct (api_call_wf _ _ _ _ Hwf Hqwf Hc) as [Hwf1 Hqwf1].
    eapply IH; eauto.
Qed.

End ApiInvariants.

(** ** Opening a packer, continued *)

Section OpenMore.
Context `{ext : Externals}.

(** What a successful [NewStoragePackerV2] went through. *)
Lemma NewStoragePackerV2_inv (c c' : Config) (p : StoragePackerV2) :
  NewStoragePackerV2 c = (Ok p, c') ->
  exists bv cv entry base,
    BucketStorageView c = Some bv /\
    ConfigStorageView c = Some cv /\
    sv_Get cv "config" = (Ok entry, sv_called (OpGet (sv_prefix cv ++ "config")) cv) /\
    match entry with
    | Some e => DecodeJSON_config (EntryValue e) = Ok base
    | None => base = effective_base c
    end /\
    Z.rem base 4 = 0 /\ 4 <= base /\
    Z.rem (effective_shard c) 4 = 0 /\ 4 <= effective_shard c /\
    c' = mkConfig (Some (SubView bv "v2/"))
           (Some (sv_called (OpGet (sv_prefix cv ++ "config")) cv))
           base (effective_shard c) /\
    p = mkPacker c' ∅ 0 ∅ ∅.
Proof.
  destruct c as [obv ocv base0 shard0].
  unfold NewStoragePackerV2, effective_base, effective_shard,
    defaultBaseBucketBits, defaultBucketShardBits. simpl.
  destruct obv as [bv|]; [|discriminate].
  destruct ocv as [cv|];
    [|destruct (decide (base0 = 0)); simpl; discriminate].
  assert (Hshape : forall b, ConfigStorageView
            (if decide (base0 = 0)
             then with_BaseBucketBits b (mkConfig (Some (SubView bv "v2/")) (Some cv) base0 shard0)
             else mkConfig (Some (SubView bv "v2/")) (Some cv) base0 shard0) = Some cv)
    by (intros b; destruct (decide (base0 = 0)); reflexivity).
  destruct (sv_Get cv "config") as [entry cv'] eqn:Hget.
  pose proof (sv_Get_inv _ _ _ _ Hget) as [-> _].
  destruct entry as [[entry|]|e];
    [| |destruct (decide (base0 = 0)); simpl; discriminate].
  - destruct (DecodeJSON_config (EntryValue entry)) as [n|e] eqn:Hdec;
      [|destruct (decide (base0 = 0)); simpl; discriminate].
    destruct (decide (base0 = 0)), (decide (shard0 = 0)); simpl;
      repeat (case_decide; simpl); try discriminate;
      intros Hr; inversion Hr; subst; clear Hr;
      exists bv, cv, (Some entry), n; simpl in *;
      repeat split; auto; lia.
  - destruct (decide (base0 = 0)), (decide (shard0 = 0)); simpl;
      repeat (case_decide; simpl); try discriminate;
      intros Hr; inversion Hr; subst; clear Hr;
      exists bv, cv, None; eexists; simpl in *;
      repeat split; auto; simpl in *; lia.
Qed.

(** A packer just opened has an empty cache, and base bits that passed
    the multiple-of-four check. *)
Lemma NewStoragePackerV2_opened (c c' : Config) (p : StoragePackerV2) :
  NewStoragePackerV2 c = (Ok p, c') ->
  bucketsCache p = ∅ /\ Z.rem (BaseBucketBits (config p)) 4 = 0.
Proof.
  intros H. apply NewStoragePackerV2_inv in H
    as (bv & cv & entry & base & _ & _ & _ & _ & Hb4 & _ & _ & _ & -> & ->).
  split; [reflexivity|exact Hb4].
Qed.

(** X13.  A packer returned by [NewStoragePackerV2] has an empty cache, an
    empty queue and queue mode off; its base and shard bits are multiples
    of four and at least 4; its bucket view is the sub-view ["v2/"] of the
    one given; it shares the caller's configuration object; and it
    satisfies both invariants. *)
Theorem NewStoragePackerV2_ok (c c' : Config) (p : StoragePackerV2) :
  NewStoragePackerV2 c = (Ok p, c') ->
  config p = c' /\
  bucketsCache p = ∅ /\ queuedBuckets p = ∅ /\ queueMode p = 0 /\
  Z.rem (BaseBucketBits (config p)) 4 = 0 /\ 4 <= BaseBucketBits (config p) /\
  Z.rem (BucketShardBits (config p)) 4 = 0 /\ 4 <= BucketShardBits (config p) /\
  (exists bv, BucketStorageView c = Some bv /\
              BucketStorageView (config p) = Some (SubView bv "v2/")) /\
  cache_wf p /\ queue_wf p.
Proof.
  intros H. apply NewStoragePackerV2_inv in H
    as (bv & cv & entry & base & Hbv & Hcv & _ & _ & Hb4 & Hb & Hs4 & Hs & -> & ->).
  simpl. repeat split; auto.
  - eauto.
  - apply empty_cache_wf. reflexivity.
  - apply empty_queue_wf. reflexivity.
Qed.

(** X14.  Which parameters a newly opened packer runs with: its shard bits
    are the ones given (4 for zero); its base bits are the stored ones when
    the config store has an entry under ["config"], whatever was given, and
    otherwise the ones given (8 for zero). *)
Theorem NewStoragePackerV2_parameters (c c' : Config) (p : StoragePackerV2)
    (cv : StorageView) :
  ConfigStorageView c = Some cv ->
  NewStoragePackerV2 c = (Ok p, c') ->
  BucketShardBits (config p) = effective_shard c /\
  match sv_data cv !! (sv_prefix cv ++ "config") with
  | Some data => DecodeJSON_config data = Ok (BaseBucketBits (config p))
  | None => BaseBucketBits (config p) = effective_base c
  end.
Proof.
  intros Hcv H. apply NewStoragePackerV2_inv in H
    as (bv & cv0 & entry & base & _ & Hcv0 & Hget & Hentry & _ & _ & _ & _ & -> & ->).
  assert (cv0 = cv) by congruence; subst cv0.
  apply sv_Get_inv in Hget as [_ He]. simpl. split; [reflexivity|].
  destruct (sv_data cv !! (sv_prefix cv ++ "config")) as [data|];
    simpl in He; subst entry; simpl in Hentry; exact Hentry.
Qed.

(** X15.  With both views given, a readable config store and nothing
    stored under ["config"], [NewStoragePackerV2] returns a packer exactly
    when the base and shard bits it goes on with (defaults for zero) are
    multiples of four and at least 4. *)
Theorem NewStoragePackerV2_accepts_iff (c : Config) (bv cv : StorageView) :
  BucketStorageView c = Some bv ->
  ConfigStorageView c = Some cv ->
  sv_fault cv (sv_log cv) (OpGet (sv_prefix cv ++ "config")) = None ->
  sv_data cv !! (sv_prefix cv ++ "config") = None ->
  (exists p c', NewStoragePackerV2 c = (Ok p, c')) <->
  (Z.rem (effective_base c) 4 = 0 /\ 4 <= effective_base c /\
   Z.rem (effective_shard c) 4 = 0 /\ 4 <= effective_shard c).
Proof.
  intros Hbv Hcv Hfault Hnone. split.
  - intros (p & c' & H). apply NewStoragePackerV2_inv in H
      as (bv0 & cv0 & entry & base & _ & Hcv0 & Hget & Hentry & Hb4 & Hb & Hs4 & Hs & _).
    assert (cv0 = cv) by congruence; subst cv0.
    apply sv_Get_inv in Hget as [_ He]. rewrite Hnone in He. simpl in He.
    subst entry base. auto.
  - intros (Hb4 & Hb & Hs4 & Hs).
    unfold NewStoragePackerV2. rewrite Hbv. simpl. rewrite Hcv.
    unfold sv_Get. rewrite Hfault, Hnone. simpl.
    unfold effective_base, effective_shard in *.
    repeat (case_decide; simpl in * ); try lia; try contradiction; eauto.
Qed.

(** X16.  Every call of [NewStoragePackerV2] with a bucket view replaces the
    view in the caller's configuration by its sub-view ["v2/"], also when
    the call fails; opening again with the same configuration object
    therefore nests the prefix to ["v2/v2/"]. *)
Theorem NewStoragePackerV2_nests_prefix (c c' c'' : Config) (bv : StorageView)
    (r r' : Result StoragePackerV2) :
  BucketStorageView c = Some bv ->
  NewStoragePackerV2 c = (r, c') ->
  NewStoragePackerV2 c' = (r', c'') ->
  BucketStorageView c' = Some (SubView bv "v2/") /\
  BucketStorageView c'' = Some (SubView (SubView bv "v2/") "v2/") /\
  (forall v, BucketStorageView c'' = Some v ->
             sv_prefix v = ((sv_prefix bv ++ "v2/") ++ "v2/")%string).
Proof.
  assert (Hone : forall c c' bv r,
    BucketStorageView c = Some bv ->
    NewStoragePackerV2 c = (r, c') ->
    BucketStorageView c' = Some (SubView bv "v2/")).
  { clear. intros [obv ocv base0 shard0] c' bv r Hbv. simpl in Hbv. subst obv.
    unfold NewStoragePackerV2. simpl.
    destruct ocv as [cv|];
      [|intros Hr; inversion Hr; reflexivity].
    destruct (decide (base0 = 0)) as [Hz|Hz]; simpl;
      (destruct (sv_Get cv "config") as [entry cv'];
       destruct entry as [[entry|]|err]; simpl;
       [ destruct (DecodeJSON_config _); simpl | | ];
       destruct (decide (shard0 = 0)); simpl;
       repeat (case_decide; simpl); intros Hr; inversion Hr; reflexivity). }
  intros Hbv H1 H2.
  pose proof (Hone _ _ _ _ Hbv H1) as Hv1.
  pose proof (Hone _ _ _ _ Hv1 H2) as Hv2.
  split; [exact Hv1|]. split; [exact Hv2|].
  intros v Hv. rewrite Hv2 in Hv. inversion Hv. reflexivity.
Qed.

(** X17.  [NewStoragePackerV2] sets no upper bound on the base bits.  On a
    packer it returned with more than 256 base bits, every item operation
    on an id with a 32-byte hash that the cache does not route panics: the
    slice of the 64-character digest is out of range. *)
Theorem oversized_base_bits_panic (c c' : Config) (p : StoragePackerV2)
    (itemID : string) (m : option Any) :
  NewStoragePackerV2 c = (Ok p, c') ->
  256 < BaseBucketBits (config p) ->
  length (Blake2b256Hash itemID) = 32%nat ->
  itemID <> "" ->
  BucketStorageKeyForItemID itemID p = None /\
  GetItem itemID p = None /\
  PutItem (Some (mkItem itemID m)) p = None /\
  DeleteItem itemID p = None.
Proof.
  intros Hopen Hbig Hlen Hid.
  apply NewStoragePackerV2_opened in Hopen as (Hc & Hb4).
  assert (Hpanic : BucketStorageKeyForItemID itemID p = None).
  { unfold BucketStorageKeyForItemID, bind. prim_unfold.
    rewrite Hc. unfold LongestPrefix.
    destruct (LongestPrefix_upto ∅ _ _) as [[k0 l0]|] eqn:E.
    { apply LongestPrefix_upto_Some in E as (E & _).
      rewrite lookup_empty in E. discriminate. }
    unfold go_slice. rewrite decide_False; [reflexivity|].
    unfold hexVal_of. rewrite hex_length, Hlen.
    intros (_ & _ & Hhi).
    pose proof (Z.quot_rem' (BaseBucketBits (config p)) 4) as Hqr.
    rewrite Hb4 in Hqr. lia. }
  split; [exact Hpanic|].
  unfold GetItem, PutItem, DeleteItem. simpl.
  rewrite !decide_False by exact Hid.
  unfold bind. rewrite Hpanic. auto.
Qed.

End OpenMore.

(** ** Cache keys *)

Section CacheKeys.
Context `{ext : Externals}.

Lemma strip_slashes_slash_free (s : string) : slash_free (strip_slashes s) = true.
Proof.
  induction s as [|c s IH]; simpl; [reflexivity|].
  destruct (Ascii.eqb c "/"%char) eqn:E; simpl; [exact IH|].
  rewrite E, IH. reflexivity.
Qed.

Lemma strip_slashes_app (a b : string) :
  strip_slashes (a ++ b) = (strip_slashes a ++ strip_slashes b)%string.
Proof.
  induction a as [|c a IH]; simpl; [reflexivity|].
  destruct (Ascii.eqb c "/"%char); simpl; rewrite IH; reflexivity.
Qed.

Lemma strip_slashes_fixed (s : string) : strip_slashes s = s -> slash_free s = true.
Proof.
  intros H. rewrite <- H. apply strip_slashes_slash_free.
Qed.

(** X18.  [GetCacheKey] returns a string without a slash, is the identity
    exactly on strings without a slash (so applying it twice is applying it
    once), never lengthens its argument, and maps a concatenation to the
    concatenation of the cache keys. *)
Theorem GetCacheKey_spec (key rest : string) :
  slash_free (GetCacheKey key) = true /\
  (GetCacheKey key = key <-> slash_free key = true) /\
  GetCacheKey (GetCacheKey key) = GetCacheKey key /\
  (String.length (GetCacheKey key) <= String.length key)%nat /\
  GetCacheKey (key ++ rest) = (GetCacheKey key ++ GetCacheKey rest)%string.
Proof.
  unfold GetCacheKey. split; [apply strip_slashes_slash_free|].
  split; [split; [apply strip_slashes_fixed|apply strip_slashes_free]|].
  split; [apply strip_slashes_free, strip_slashes_slash_free|].
  split; [|apply strip_slashes_app].
  induction key as [|c key IH]; simpl; [lia|].
  destruct (Ascii.eqb c "/"%char); simpl; lia.
Qed.

(** X19.  On a packer with a well-formed cache and base bits within the
    digest, [BucketKeyHashByItemID] returns, without changing the packer,
    a prefix of the item's hex digest: the cached key that routes the item
    on a hit, the first [BaseBucketBits/4] characters on a miss. *)
Theorem BucketKeyHashByItemID_prefix (s : StoragePackerV2) (itemID : string) :
  length (Blake2b256Hash itemID) = 32%nat ->
  cache_wf s ->
  0 <= BaseBucketBits (config s) <= 256 ->
  exists n,
    (n <= 64)%nat /\
    BucketKeyHashByItemID itemID s = Some (str_take n (hexVal_of itemID), s) /\
    match LongestPrefix (bucketsCache s) (hexVal_of itemID) with
    | Some (k, _) => str_take n (hexVal_of itemID) = k
    | None => n = Z.to_nat (BaseBucketBits (config s) / 4)
    end.
Proof.
  intros Hlen Hwf Hbits.
  assert (H64 : String.length (hexVal_of itemID) = 64%nat).
  { unfold hexVal_of. rewrite hex_length, Hlen. reflexivity. }
  unfold BucketKeyHashByItemID.
  destruct (LongestPrefix (bucketsCache s) (hexVal_of itemID)) as [[k l]|] eqn:E.
  - destruct (LongestPrefix_Some _ _ _ _ E) as (Hk & m & Hm & -> & _).
    destruct (Hwf _ _ Hk) as (b & Hb & Hck).
    exists m. split; [lia|]. split; [|reflexivity].
    erewrite bind_run by (eapply BucketStorageKeyForItemID_hit; eauto).
    unfold ret. rewrite Hck. reflexivity.
  - exists (Z.to_nat (BaseBucketBits (config s) / 4)).
    assert (Hq : 0 <= BaseBucketBits (config s) / 4 <= 64).
    { split; [apply Z.div_pos; lia|apply Z.div_le_upper_bound; lia]. }
    split; [lia|]. split; [|reflexivity].
    erewrite bind_run.
    2:{ apply BucketStorageKeyForItemID_miss; [exact E|].
        rewrite Z.quot_div_nonneg by lia.
        apply go_slice_0_in_range. rewrite H64. lia. }
    unfold ret. rewrite GetCacheKey_hex_take. reflexivity.
Qed.

End CacheKeys.

(** ** [upsert] and rejected arguments *)

Section Arguments.
Context `{ext : Externals}.

(** X20.  [upsert] on a bucket object with an item of non-empty id returns
    [nil]; afterwards the bucket maps the id to the item's message and
    every other id to what it held, keeps its key and its sub-buckets;
    every other bucket object, the cache, the queue and the configuration
    are as before.  With an empty id it fails and changes nothing. *)
Theorem upsert_spec (l : loc) (item : Item) (s s' : StoragePackerV2)
    (b : Bucket) (r : option error) :
  objects s !! l = Some b ->
  upsert (Some l) (Some item) s = Some (r, s') ->
  (ID item = "" -> r = Some "missing item ID" /\ s' = s) /\
  (ID item <> "" ->
   r = None /\
   (exists b', objects s' !! l = Some b' /\
      ItemMap b' !! ID item = Some (Message item) /\
      (forall other, other <> ID item -> ItemMap b' !! other = ItemMap b !! other) /\
      Key b' = Key b /\ Buckets b' = Buckets b) /\
   (forall l', l' <> l -> objects s' !! l' = objects s !! l') /\
   bucketsCache s' = bucketsCache s /\ queuedBuckets s' = queuedBuckets s /\
   queueMode s' = queueMode s /\ config s' = config s).
Proof.
  intros Hb H. unfold upsert in H. split; intros Hid.
  - rewrite decide_True in H by exact Hid. inversion H; auto.
  - rewrite decide_False in H by exact Hid.
    unfold bind in H. prim_unfold. rewrite Hb in H. cbv beta iota in H.
    inversion H; subst; clear H. simpl.
    split; [reflexivity|]. split.
    + eexists. split; [apply lookup_insert_eq|]. simpl.
      split; [apply lookup_insert_eq|]. split; [|auto].
      intros other Hne. apply lookup_insert_ne. congruence.
    + split; [|auto]. intros l' Hne. apply lookup_insert_ne. congruence.
Qed.

(** X21.  Every operation rejects its missing argument before it looks at
    the packer: the answer is the error of the first check and the packer
    is unchanged, whatever state it is in. *)
Theorem missing_arguments_rejected (s : StoragePackerV2) (m : option Any)
    (skipCache : bool) :
  PutItem None s = Some (Some "nil item", s) /\
  PutItem (Some (mkItem "" m)) s = Some (Some "missing ID in item", s) /\
  GetItem "" s = Some (Err "empty item ID", s) /\
  DeleteItem "" s = Some (Some "empty item ID", s) /\
  GetBucket "" skipCache s = Some (Err "missing bucket key", s) /\
  PutBucket None s = Some (Some "nil bucket entry", s) /\
  DeleteBucket "" s = Some (Some "missing key", s) /\
  upsert None (Some (mkItem "" m)) s = Some (Some "nil storage bucket", s).
Proof.
  repeat split.
Qed.

End Arguments.

(** ** Reads, and writes to other items *)

Section Frames.
Context `{ext : Externals}.

(** X22.  [FlushQueue] in queue mode: every bucket it visits is queued
    again by [storeBucket] and then deleted from the queue, so the call
    returns [nil], leaves the queue empty and makes no call on the
    backend; the queued changes are in memory only. *)
Theorem FlushQueue_in_queue_mode (s s' : StoragePackerV2)
    (r : option (list error)) :
  queueMode s = 1 ->
  queue_wf s ->
  FlushQueue s = Some (r, s') ->
  r = None /\ queuedBuckets s' = ∅ /\ config s' = config s /\
  objects s' = objects s /\ bucketsCache s' = bucketsCache s /\
  queueMode s' = 1.
Proof.
  intros Hq Hwf H.
  pose proof (FlushQueue_empties _ _ _ Hwf H) as Hempty.
  apply FlushQueue_inv in H as (errs & Hrange & ->).
  pose proof (FlushQueue_range_memory _ _ _ _ _ Hrange) as (Ho & Hc & Hm & _).
  assert (Hgen : forall entries errs0 s0 errs1 s1,
            queueMode s0 = 1 ->
            FlushQueue_range entries errs0 s0 = Some (errs1, s1) ->
            errs1 = errs0 /\ config s1 = config s0).
  { clear. induction entries as [|[k l] rest IH]; intros errs0 s0 errs1 s1 Hq H.
    - inversion H; auto.
    - apply FlushQueue_range_step in H as (lErr & s2 & Hst & H).
      destruct Hst as [b _ Hb| | | |]; try congruence.
      apply IH in H as [-> Hcfg]; [|exact Hq]. auto. }
  destruct (Hgen _ _ _ _ _ Hq Hrange) as [-> Hcfg].
  repeat split; auto. congruence.
Qed.

(** X23.  Writes to one item leave the others alone: after a [PutItem] or
    a [DeleteItem] for another id, whatever it returned, [GetItem] still
    returns an item that was held in memory, with the same payload and
    without changing the packer. *)
Theorem other_items_untouched (s s' : StoragePackerV2) (itemID : string)
    (m : option Any) (item : Item) (itemID' : string) (r : option error) :
  cache_wf s ->
  cached_item s itemID m ->
  (ID item <> itemID /\ PutItem (Some item) s = Some (r, s')) \/
  (itemID' <> itemID /\ DeleteItem itemID' s = Some (r, s')) ->
  GetItem itemID s' = Some (Ok (Some (mkItem itemID m)), s').
Proof.
  intros Hwf Hitem [[Hne H]|[Hne H]].
  - apply (PutItem_memory _ _ _ _ Hwf) in H as (Hwf' & Hkeep & _).
    apply GetItem_cached; [exact Hwf'|].
    apply Hkeep; [|exact Hitem]. intros it [= <-]. exact Hne.
  - apply (DeleteItem_memory _ _ _ _ Hwf) in H as (Hwf' & Hkeep).
    apply GetItem_cached; [exact Hwf'|].
    apply Hkeep; [congruence|exact Hitem].
Qed.

(** X24.  [GetItem] never writes: the stored data, the [put] calls seen by
    the backend, the queue and the queue mode are as before.  In memory it
    changes nothing, or loads the one bucket read for the item into the
    cache; when it returns an error or finds no bucket it changes
    nothing. *)
Theorem GetItem_read_only (itemID : string) (s s' : StoragePackerV2)
    (r : Result (option Item)) :
  cache_wf s ->
  GetItem itemID s = Some (r, s') ->
  same_backend s s' /\
  (same_memory s s' \/ exists l, loaded_into s itemID l s') /\
  (forall e, r = Err e -> same_memory s s').
Proof.
  intros Hwf H.
  destruct (decide (itemID = "")) as [->|Hid].
  { inversion H; subst. repeat split; auto. left. split; reflexivity. }
  apply (GetItem_inv _ _ _ _ Hid Hwf) in H as (res & Hres & Hr).
  apply resolves_summary in Hres as (Hback & Hmem).
  split; [exact Hback|].
  destruct res as [l|ck|e0].
  - destruct Hr as (b & _ & ->). split.
    + destruct Hmem as [[Hsame _]|Hload]; eauto.
    + intros e [=].
  - destruct Hmem as (Hsame & _). split; [auto|auto].
  - destruct Hmem as (Hsame & _). split; [auto|auto].
Qed.

End Frames.

(** ** No panic *)

Section NoPanic.
Context `{ext : Externals}.
Hypothesis hash_size : forall itemID, length (Blake2b256Hash itemID) = 32%nat.

Lemma BucketStorageKeyForItemID_returns (itemID : string) (s : StoragePackerV2) :
  cache_wf s ->
  0 <= BaseBucketBits (config s) <= 256 ->
  exists key, BucketStorageKeyForItemID itemID s = Some (key, s).
Proof.
  intros Hwf Hbits.
  assert (H64 : String.length (hexVal_of itemID) = 64%nat).
  { unfold hexVal_of. rewrite hex_length, hash_size. reflexivity. }
  destruct (LongestPrefix (bucketsCache s) (hexVal_of itemID)) as [[k l]|] eqn:E.
  - destruct (LongestPrefix_Some _ _ _ _ E) as (Hk & _).
    destruct (Hwf _ _ Hk) as (b & Hb & _).
    exists (Key b). eapply BucketStorageKeyForItemID_hit; eauto.
  - eexists. apply BucketStorageKeyForItemID_miss; [exact E|].
    rewrite Z.quot_div_nonneg by lia.
    apply go_slice_0_in_range. rewrite H64.
    split; [apply Z.div_pos; lia|].
    apply Z.div_le_upper_bound; lia.
Qed.

Lemma storeBucket_returns (l : loc) (s : StoragePackerV2) (b : Bucket) :
  objects s !! l = Some b ->
  is_Some (BucketStorageView (config s)) ->
  exists r s', storeBucket l s = Some (r, s').
Proof.
  intros Hb [v Hv]. unfold storeBucket, bind. prim_unfold. rewrite Hb.
  case_decide; [eauto|].
  destruct (proto_Marshal b); [|eauto].
  destruct (compressutil_Compress _); [|eauto].
  rewrite Hv. destruct (sv_Put v _) as [[e|] v']; eauto.
Qed.

Lemma GetItem_returns (itemID : string) (s : StoragePackerV2) :
  ready s -> exists r s', GetItem itemID s = Some (r, s').
Proof.
  intros (Hwf & _ & [v Hv] & Hbits).
  destruct (decide (itemID = "")) as [->|Hid]; [eexists _, _; reflexivity|].
  destruct (BucketStorageKeyForItemID_returns itemID s Hwf Hbits) as (key & Hkey).
  destruct (lookup_twice _ _ _ _ Hwf Hkey) as [_ Hlook].
  unfold GetItem. rewrite decide_False by exact Hid.
  rewrite (bind_run _ _ _ _ _ Hkey).
  unfold bind. prim_unfold.
  destruct Hlook as [(k & l & b & Hlp & Hb & -> & Hlp2)|(Hlp & Hsl & Hck & Hlp2)];
    rewrite Hlp2; cbv beta iota.
  - rewrite Hb. case_decide; [eauto|]. destruct (ItemMap b !! itemID); eauto.
  - rewrite Hv. destruct (sv_Get v key) as [[[e|]|err] v']; cbv beta iota; eauto.
    destruct (DecodeBucket_total e
                (with_config (with_BucketStorageView (Some v') (config s)) s))
      as (d & s5 & Hd).
    rewrite Hd. destruct d as [l|err]; cbv beta iota; [|eauto].
    apply DecodeBucket_inv in Hd as (data & parsed & _ & _ & _ & ->). simpl.
    rewrite lookup_insert_eq. case_decide; [eauto|].
    destruct (ItemMap _ !! itemID); eauto.
Qed.

Lemma DeleteItem_returns (itemID : string) (s : StoragePackerV2) :
  ready s -> exists r s', DeleteItem itemID s = Some (r, s').
Proof.
  intros (Hwf & _ & [v Hv] & Hbits).
  destruct (decide (itemID = "")) as [->|Hid]; [eexists _, _; reflexivity|].
  destruct (BucketStorageKeyForItemID_returns itemID s Hwf Hbits) as (key & Hkey).
  destruct (lookup_twice _ _ _ _ Hwf Hkey) as [_ Hlook].
  unfold DeleteItem. rewrite decide_False by exact Hid.
  rewrite (bind_run _ _ _ _ _ Hkey).
  unfold bind at 1 2. prim_unfold.
  destruct Hlook as [(k & l & b & Hlp & Hb & -> & Hlp2)|(Hlp & Hsl & Hck & Hlp2)];
    rewrite Hlp2; cbv beta iota.
  - unfold bind. rewrite Hb. case_decide; [eauto|].
    destruct (ItemMap b !! itemID); [|eauto].
    eapply storeBucket_returns; simpl; [apply lookup_insert_eq|eauto].
  - unfold bind at 1. rewrite Hv.
    destruct (sv_Get v key) as [[[e|]|err] v']; cbv beta iota; eauto.
    unfold bind at 1.
    destruct (DecodeBucket_total e
                (with_config (with_BucketStorageView (Some v') (config s)) s))
      as (d & s5 & Hd).
    rewrite Hd. destruct d as [l|err]; cbv beta iota; [|eauto].
    apply DecodeBucket_inv in Hd as (data & parsed & _ & _ & _ & ->).
    unfold bind; simpl.
    rewrite lookup_insert_eq. case_decide; [eauto|].
    destruct (ItemMap _ !! itemID); [|eauto].
    eapply storeBucket_returns; simpl; [apply lookup_insert_eq|eauto].
Qed.

Lemma upsert_run (l : loc) (item : Item) (s : StoragePackerV2) (b : Bucket) :
  objects s !! l = Some b ->
  ID item <> "" ->
  upsert (Some l) (Some item) s = Some (None, upserted l b item s).
Proof.
  intros Hb Hid. unfold upsert. rewrite decide_False by exact Hid.
  unfold bind. prim_unfold. rewrite Hb. reflexivity.
Qed.

Lemma PutItem_tail_returns (l : loc) (item : Item) (s : StoragePackerV2) (b : Bucket) :
  objects s !! l = Some b ->
  ID item <> "" ->
  is_Some (BucketStorageView (config s)) ->
  exists r s',
    (err <- upsert (Some l) (Some item) ;;
     match err with
     | Some e =>
         ret (Some (Wrapf "failed to update entry in packed storage entry: " e))
     | None => storeBucket l
     end) s = Some (r, s').
Proof.
  intros Hb Hid Hv. rewrite (bind_run _ _ _ _ _ (upsert_run _ _ _ _ Hb Hid)).
  eapply storeBucket_returns; simpl; [apply lookup_insert_eq|exact Hv].
Qed.

Lemma PutItem_returns (item : option Item) (s : StoragePackerV2) :
  ready s -> exists r s', PutItem item s = Some (r, s').
Proof.
  intros (Hwf & _ & [v Hv] & Hbits).
  destruct item as [item|]; [|eexists _, _; reflexivity].
  destruct (decide (ID item = "")) as [Hid|Hid].
  { unfold PutItem. rewrite decide_True by exact Hid. eexists _, _; reflexivity. }
  destruct (BucketStorageKeyForItemID_returns (ID item) s Hwf Hbits) as (key & Hkey).
  destruct (lookup_twice _ _ _ _ Hwf Hkey) as [_ Hlook].
  unfold PutItem. rewrite decide_False by exact Hid.
  rewrite (bind_run _ _ _ _ _ Hkey).
  unfold bind at 1 2. unfold bucketsCache_LongestPrefix, gets.
  destruct Hlook as [(k & l & b & Hlp & Hb & -> & Hlp2)|(Hlp & Hsl & Hck & Hlp2)];
    rewrite Hlp2; cbv beta iota.
  - unfold ret at 1. eapply PutItem_tail_returns; eauto.
  - unfold bind at 1. unfold BucketStorageView_Get. rewrite Hv.
    destruct (sv_Get v key) as [[[e|]|err] v']; cbv beta iota;
      [| |unfold ret; eauto].
    + unfold bind at 1.
      destruct (DecodeBucket_total e
                  (with_config (with_BucketStorageView (Some v') (config s)) s))
        as (d & s5 & Hd).
      rewrite Hd. destruct d as [l|err]; cbv beta iota; [|unfold ret; eauto].
      apply DecodeBucket_inv in Hd as (data & parsed & _ & _ & _ & ->).
      unfold bind at 1. unfold bucketsCache_Insert, modify, ret at 1. cbv beta iota.
      eapply PutItem_tail_returns; simpl; [apply lookup_insert_eq|exact Hid|eauto].
    + unfold bind at 1 2. unfold new_LockedBucket, ret at 1. cbv beta iota zeta.
      unfold bind at 1. unfold bucketsCache_Insert, modify, ret at 1. cbv beta iota.
      eapply PutItem_tail_returns; simpl; [apply lookup_insert_eq|exact Hid|eauto].
Qed.

(** What no operation changes: the base bits, and that there is a bucket
    view. *)
Lemma stores_shape (s s' : StoragePackerV2) (l : loc) (r : option error) :
  stores s l r s' ->
  BaseBucketBits (config s') = BaseBucketBits (config s) /\
  (is_Some (BucketStorageView (config s)) ->
   is_Some (BucketStorageView (config s'))).
Proof. destruct 1; simpl; eauto. Qed.

Lemma resolves_shape (s s1 : StoragePackerV2) (itemID : string) (res : Resolution) :
  resolves s itemID s1 res ->
  BaseBucketBits (config s1) = BaseBucketBits (config s) /\
  (is_Some (BucketStorageView (config s)) ->
   is_Some (BucketStorageView (config s1))).
Proof.
  destruct 1 as [k l b Hlp Hb|ck v v' e Hlp Hsl Hv Hget|ck v v' Hlp Hsl Hv Hget
                |ck v v' se e Hlp Hsl Hv Hget Hd|ck v v' se l s2 Hlp Hsl Hv Hget Hd];
    simpl; eauto.
  apply DecodeBucket_inv in Hd as (data & parsed & _ & _ & _ & ->). simpl. eauto.
Qed.

Lemma prepares_shape (s s1 : StoragePackerV2) (itemID : string) (l : loc) :
  prepares s itemID s1 l ->
  BaseBucketBits (config s1) = BaseBucketBits (config s) /\
  (is_Some (BucketStorageView (config s)) ->
   is_Some (BucketStorageView (config s1))).
Proof.
  destruct 1 as [s1 l Hres|s0 ck l Hres Hfresh];
    apply resolves_shape in Hres; exact Hres.
Qed.

Lemma FlushQueue_range_returns (entries : list (string * loc))
    (errs : list error) (s : StoragePackerV2) :
  (forall k l, (k, l) ∈ entries -> is_Some (objects s !! l)) ->
  is_Some (BucketStorageView (config s)) ->
  exists errs' s',
    FlushQueue_range entries errs s = Some (errs', s') /\
    BaseBucketBits (config s') = BaseBucketBits (config s) /\
    is_Some (BucketStorageView (config s')).
Proof.
  revert errs s. induction entries as [|[k l] rest IH]; intros errs s Hobj Hv.
  - eexists _, _. split; [reflexivity|auto].
  - destruct (Hobj k l) as [b Hb]; [set_solver|].
    destruct (storeBucket_returns l s b Hb Hv) as (lErr & s1 & Hst).
    cbn [FlushQueue_range]. rewrite (bind_run _ _ _ _ _ Hst).
    apply storeBucket_stores in Hst.
    pose proof (stores_memory _ _ _ _ Hst) as (Ho & _).
    pose proof (stores_shape _ _ _ _ Hst) as (Hbits & Hview).
    unfold bind at 1, modify.
    edestruct (IH (match lErr with Some e => (errs ++ [e])%list | None => errs end)
                 (with_queuedBuckets (delete k (queuedBuckets s1)) s1))
      as (errs' & s' & Hrun & Hbits' & Hview').
    + simpl. intros k0 l0 Hin. rewrite Ho. apply (Hobj k0 l0). set_solver.
    + simpl. auto.
    + exists errs', s'. split; [exact Hrun|]. simpl in *. split; [congruence|auto].
Qed.

Lemma call_returns (c : Call) (s : StoragePackerV2) :
  ready s -> exists a s', call c s = Some (a, s') /\ ready s'.
Proof.
  intros Hready.
  assert (Hstep : forall a s',
            call c s = Some (a, s') ->
            BaseBucketBits (config s') = BaseBucketBits (config s) ->
            is_Some (BucketStorageView (config s')) ->
            exists a s', call c s = Some (a, s') /\ ready s').
  { intros a s' Hcall Hbits Hview. exists a, s'. split; [exact Hcall|].
    destruct Hready as (Hwf & Hq & _ & Hb).
    destruct (call_wf _ _ _ _ Hwf Hq Hcall) as [Hwf' Hq'].
    repeat split; auto; rewrite Hbits; apply Hb. }
  pose proof Hready as (Hwf & Hq & Hv & Hb).
  destruct c as [item|itemID|itemID|enabled|].
  - destruct (PutItem_returns item s Hready) as (r & s' & H).
    apply (Hstep (AnsError r) s'); [simpl; rewrite (bind_run _ _ _ _ _ H); reflexivity| |].
    all: destruct item as [item|]; [|inversion H; subst; auto].
    all: destruct (decide (ID item = "")) as [Hid|Hid];
      [unfold PutItem in H; rewrite decide_True in H by exact Hid;
       inversion H; subst; auto|].
    all: apply (PutItem_inv _ _ _ _ Hid Hwf) in H
        as [(e & Hres & ->)|(s1 & l & b & Hprep & Hb1 & Hst)].
    all: try (apply resolves_shape in Hres as [Hx Hy]; auto; fail).
    all: apply prepares_shape in Hprep as [Hx Hy];
      apply stores_shape in Hst as [Hx' Hy']; simpl in *;
      first [congruence|auto].
  - destruct (DeleteItem_returns itemID s Hready) as (r & s' & H).
    apply (Hstep (AnsError r) s'); [simpl; rewrite (bind_run _ _ _ _ _ H); reflexivity| |].
    all: destruct (decide (itemID = "")) as [->|Hid]; [inversion H; subst; auto|].
    all: apply (DeleteItem_inv _ _ _ _ Hid Hwf) in H as (s1 & res & Hres & Hr).
    all: apply resolves_shape in Hres as [Hx Hy].
    all: destruct res as [l|ck|e]; [|destruct Hr as [_ ->]; auto..].
    all: destruct Hr as (b & Hb1 & Hr); destruct (ItemMap b !! itemID);
      [apply stores_shape in Hr as [Hx' Hy']; simpl in *|destruct Hr as [_ ->]; auto].
    all: try congruence; auto.
  - destruct (GetItem_returns itemID s Hready) as (r & s' & H).
    apply (Hstep (AnsItem r) s'); [simpl; rewrite (bind_run _ _ _ _ _ H); reflexivity| |].
    all: destruct (decide (itemID = "")) as [->|Hid]; [inversion H; subst; auto|].
    all: apply (GetItem_inv _ _ _ _ Hid Hwf) in H as (res & Hres & _).
    all: apply resolves_shape in Hres as [Hx Hy]; auto.
  - apply (Hstep AnsDone (with_queueMode (if enabled then 1 else 0) s));
      [destruct enabled; reflexivity|reflexivity|exact Hv].
  - destruct (FlushQueue_range_returns (map_to_list (queuedBuckets s)) [] s)
      as (errs & s' & Hrun & Hbits & Hview).
    { intros k l Hin. apply elem_of_map_to_list in Hin.
      destruct (Hq _ _ Hin) as (b & Hb1 & _). eauto. }
    { exact Hv. }
    assert (HF : FlushQueue s = Some (ErrorOrNil errs, s')).
    { unfold FlushQueue, bind, gets. rewrite Hrun. reflexivity. }
    apply (Hstep (AnsErrors (ErrorOrNil errs)) s'); auto.
    simpl. rewrite (bind_run _ _ _ _ _ HF). reflexivity.
Qed.

(** X25.  No sequence of item operations panics: on a packer with a
    well-formed cache and queue, a bucket view and base bits from 0 to 256,
    when the hash has 32 bytes, every list of [PutItem], [GetItem],
    [DeleteItem], [SetQueueMode] and [FlushQueue] calls runs to its end,
    answers every call, and leaves the packer in such a state again. *)
Theorem session_returns (calls : list Call) (s : StoragePackerV2) :
  ready s ->
  exists answers s',
    run calls s = Some (answers, s') /\
    length answers = length calls /\
    ready s'.
Proof.
  revert s. induction calls as [|c rest IH]; intros s Hready.
  - exists [], s. split; [reflexivity|]. split; [reflexivity|exact Hready].
  - destruct (call_returns c s Hready) as (a & s1 & Hcall & Hready1).
    destruct (IH s1 Hready1) as (answers & s' & Hrun & Hlen & Hready').
    exists (a :: answers), s'. split; [|split; [simpl; congruence|exact Hready']].
    cbn [run]. rewrite (bind_run _ _ _ _ _ Hcall), (bind_run _ _ _ _ _ Hrun).
    reflexivity.
Qed.

End NoPanic.

(** ** [storeBucket] and [DecodeBucket] on their own *)

Section StoreDecode.
Context `{ext : Externals}.

(** X26.  [storeBucket] never changes a bucket object, the cache or the
    queue mode.  In queue mode it returns [nil], files the bucket in the
    queue under its key and leaves the backend alone.  Outside queue mode
    it leaves the queue alone; when it returns [nil] the backend holds the
    encoded bucket under the bucket's key, and when it fails the stored
    data are as before. *)
Theorem storeBucket_spec (l : loc) (s s' : StoragePackerV2) (r : option error) :
  storeBucket l s = Some (r, s') ->
  objects s' = objects s /\ bucketsCache s' = bucketsCache s /\
  queueMode s' = queueMode s /\
  exists b, objects s !! l = Some b /\
    (queueMode s = 1 ->
     r = None /\ config s' = config s /\
     queuedBuckets s' = <[Key b := l]> (queuedBuckets s)) /\
    (queueMode s <> 1 ->
     queuedBuckets s' = queuedBuckets s /\
     match r with
     | None => exists data, encoded b = Ok data /\ persisted s' (Key b) = Some data
     | Some _ => bucket_data s' = bucket_data s
     end).
Proof.
  intros H. apply storeBucket_stores in H.
  pose proof (stores_memory _ _ _ _ H) as (Ho & Hc & Hm & _).
  split; [exact Ho|]. split; [exact Hc|]. split; [exact Hm|].
  destruct H as [b Hq Hb|b e Hq Hb Hme|b mb e Hq Hb Hme Hce
                |b data v v' e Hq Hb He Hv Hp|b data v v' Hq Hb He Hv Hp];
    exists b; (split; [exact Hb|]); (split; [intros Hq'|intros Hq']);
    try contradiction.
  - auto.
  - split; reflexivity.
  - split; reflexivity.
  - split; [reflexivity|].
    apply sv_Put_inv in Hp as (_ & _ & Hd).
    unfold bucket_data. simpl. rewrite Hv. simpl. congruence.
  - split; [reflexivity|]. exists data. split; [exact He|].
    apply sv_Put_inv in Hp as (Hpre & _ & Hd).
    unfold persisted. simpl. rewrite Hpre, Hd. simpl. apply lookup_insert_eq.
Qed.

(** X27.  Whenever [DecodeBucket] returns, it has touched nothing that
    exists: the cache, the queue, the queue mode, the configuration and
    every bucket object are as before.  When it fails the packer is
    unchanged; when it succeeds the bucket it returns is the only new
    object. *)
Theorem DecodeBucket_allocates (storageEntry : StorageEntry)
    (s s' : StoragePackerV2) (r : Result loc) :
  DecodeBucket storageEntry s = Some (r, s') ->
  bucketsCache s' = bucketsCache s /\ queuedBuckets s' = queuedBuckets s /\
  queueMode s' = queueMode s /\ config s' = config s /\
  match r with
  | Err _ => s' = s
  | Ok lb =>
      objects s !! lb = None /\ is_Some (objects s' !! lb) /\
      forall l, l <> lb -> objects s' !! l = objects s !! l
  end.
Proof.
  intros H. apply DecodeBucket_inv in H. destruct r as [lb|e].
  - destruct H as (data & parsed & _ & _ & Hfresh & ->). simpl.
    repeat split; auto.
    + rewrite lookup_insert_eq. eauto.
    + intros l Hne. apply lookup_insert_ne. congruence.
  - subst. auto.
Qed.

End StoreDecode.

(** ** Closed examples *)

Lemma Demo_hash_size (itemID : string) : length (Blake2b256Hash itemID) = 32%nat.
Proof.
  simpl. unfold Demo.hash. destruct (list_byte_of_string itemID); reflexivity.
Qed.

Lemma Demo_packer_ready (fault : list BackendOp -> BackendOp -> option error) :
  ready (Demo.packer fault).
Proof.
  split; [apply empty_cache_wf; reflexivity|].
  split; [apply empty_queue_wf; reflexivity|].
  split; [simpl; eauto|simpl; lia].
Qed.

Lemma PutItem_persists_witness :
  exists s' data,
    PutItem (Some Demo.alice) (Demo.packer Demo.reliable) = Some (None, s') /\
    persisted s' "61" = Some data.
Proof.
  destruct (PutItem (Some Demo.alice) (Demo.packer Demo.reliable))
    as [[r s']|] eqn:E; [|vm_compute in E; discriminate].
  assert (Hr : r = None) by (vm_compute in E; inversion E; reflexivity).
  subst r.
  destruct (PutItem_persists (Demo.packer Demo.reliable) s' Demo.alice)
    as (k & l & b & data & Hlp & Hb & _ & _ & Hp).
  - apply empty_cache_wf. reflexivity.
  - discriminate.
  - exact E.
  - assert (Hk : Key b = "61").
    { vm_compute in E. inversion E; subst s'; clear E.
      vm_compute in Hlp. inversion Hlp; subst k l; clear Hlp.
      vm_compute in Hb. inversion Hb; reflexivity. }
    rewrite Hk in Hp. exists s', data. split; [reflexivity|exact Hp].
Defined.

Lemma DeleteItem_persists_witness :
  exists s' data,
    DeleteItem "alice" (Demo.loaded Demo.reliable None) = Some (None, s') /\
    persisted s' "61" = Some data /\
    GetItem "alice" s' = Some (Ok None, s').
Proof.
  destruct (DeleteItem "alice" (Demo.loaded Demo.reliable None))
    as [[r s']|] eqn:E; [|vm_compute in E; discriminate].
  assert (Hr : r = None) by (vm_compute in E; inversion E; reflexivity).
  subst r.
  destruct (DeleteItem_persists (Demo.loaded Demo.reliable None) s' "alice"
              (Some (mkAny "t" [Byte.x6f])))
    as (k & l & b & data & Hlp & Hb & _ & _ & Hp).
  - apply Demo_loaded_wf.
  - discriminate.
  - split; [discriminate|]. exists "61", 1%positive. eexists.
    split; [vm_compute; reflexivity|]. split; reflexivity.
  - exact E.
  - vm_compute in E. inversion E; subst s'; clear E.
    vm_compute in Hlp. inversion Hlp; subst k l; clear Hlp.
    vm_compute in Hb. inversion Hb; subst b; clear Hb.
    eexists _, data. split; [reflexivity|]. split; [exact Hp|].
    vm_compute. reflexivity.
Defined.

Lemma queued_write_reaches_backend_witness :
  exists s' data,
    run [CallSetQueueMode true; CallPutItem (Some Demo.alice);
         CallSetQueueMode false; CallFlushQueue] (Demo.packer Demo.reliable)
    = Some ([AnsDone; AnsError None; AnsDone; AnsErrors None], s') /\
    persisted s' "61" = Some data.
Proof.
  destruct (run [CallSetQueueMode true; CallPutItem (Some Demo.alice);
                 CallSetQueueMode false; CallFlushQueue]
              (Demo.packer Demo.reliable)) as [[answers s']|] eqn:E;
    [|vm_compute in E; discriminate].
  assert (Ha : answers = [AnsDone; AnsError None; AnsDone; AnsErrors None])
    by (vm_compute in E; inversion E; reflexivity).
  subst answers.
  destruct (queued_write_reaches_backend (Demo.packer Demo.reliable) s' Demo.alice)
    as (k & l & b & data & Hlp & Hb & _ & _ & Hp).
  - apply empty_cache_wf. reflexivity.
  - apply empty_queue_wf. reflexivity.
  - exact E.
  - assert (Hk : Key b = "61").
    { vm_compute in E. inversion E; subst s'; clear E.
      vm_compute in Hlp. inversion Hlp; subst k l; clear Hlp.
      vm_compute in Hb. inversion Hb; reflexivity. }
    rewrite Hk in Hp. exists s', data. split; [reflexivity|exact Hp].
Defined.

Lemma PutItem_survives_reopen_witness :
  exists s' p',
    PutItem (Some (mkItem "carol" None)) (Demo.packer Demo.reliable)
    = Some (None, s') /\
    GetItem "carol" (mkPacker (config s') ∅ 0 ∅ ∅)
    = Some (Ok (Some (mkItem "carol" None)), p').
Proof.
  destruct (PutItem (Some (mkItem "carol" None)) (Demo.packer Demo.reliable))
    as [[r s']|] eqn:E; [|vm_compute in E; discriminate].
  assert (Hr : r = None) by (vm_compute in E; inversion E; reflexivity).
  subst r.
  pose proof E as E2. vm_compute in E2. injection E2 as Hs.
  destruct (PutItem_survives_reopen (Demo.packer Demo.reliable) s'
              (mkPacker (config s') ∅ 0 ∅ ∅) (mkItem "carol" None)) as (p' & Hget).
  - apply empty_cache_wf. reflexivity.
  - discriminate.
  - reflexivity.
  - simpl. lia.
  - exact E.
  - subst s'. vm_compute. reflexivity.
  - intros k l b Hlp Hb. subst s'.
    vm_compute in Hlp. inversion Hlp; subst k l; clear Hlp.
    vm_compute in Hb. inversion Hb; subst b; clear Hb.
    intros data Hd. vm_compute in Hd. inversion Hd; subst data; clear Hd.
    eexists _, _. split; [vm_compute; reflexivity|].
    split; vm_compute; reflexivity.
  - reflexivity.
  - subst s'. reflexivity.
  - reflexivity.
  - intros v Hv. subst s'. inversion Hv; subst v. reflexivity.
  - exists s', p'. split; [reflexivity|exact Hget].
Defined.

Lemma shardBucket_moves_nothing_witness :
  exists r s' b,
    shardBucket 1%positive (Demo.loaded Demo.reliable (Some ∅)) = Some (r, s') /\
    objects s' !! 1%positive = Some b /\
    Key b = "61" /\
    ItemMap b = {["alice" := Some (mkAny "t" [Byte.x6f])]} /\
    bucketsCache s' = {["61" := 1%positive]}.
Proof.
  destruct (shardBucket 1%positive (Demo.loaded Demo.reliable (Some ∅)))
    as [[r s']|] eqn:E; [|vm_compute in E; discriminate].
  destruct (shardBucket_moves_nothing 1%positive
              (Demo.loaded Demo.reliable (Some ∅)) s' r E)
    as (_ & Hc & _ & Hobj).
  destruct (Hobj 1%positive
              (mkBucket "61" {["alice" := Some (mkAny "t" [Byte.x6f])]} (Some ∅))
              eq_refl) as (b & Hb & Hk & Hm & _).
  exists r, s', b. split; [reflexivity|]. split; [exact Hb|].
  split; [exact Hk|]. split; [exact Hm|exact Hc].
Defined.

Lemma GetBucket_cached_witness :
  GetBucket "61/" false (Demo.loaded Demo.reliable None)
  = Some (Ok (Some 1%positive), Demo.loaded Demo.reliable None) /\
  bucketsCache (Demo.loaded Demo.reliable None) !! "61" = Some 1%positive /\
  exists n, "61" = str_take n (GetCacheKey "61/").
Proof.
  apply (GetBucket_cached "61/" (Demo.loaded Demo.reliable None) "61" 1%positive).
  - discriminate.
  - vm_compute. reflexivity.
Defined.

Lemma GetBucket_read_path_witness :
  exists s',
    GetBucket "61" true (Demo.loaded Demo.reliable None) = Some (Ok None, s') /\
    bucketsCache s' = {["61" := 1%positive]} /\
    bucket_puts s' = Some [] /\
    cache_wf s'.
Proof.
  destruct (GetBucket "61" true (Demo.loaded Demo.reliable None))
    as [[r s']|] eqn:E; [|vm_compute in E; discriminate].
  assert (Hr : r = Ok None) by (vm_compute in E; inversion E; reflexivity).
  subst r.
  destruct (GetBucket_read_path "61" true (Demo.loaded Demo.reliable None) s'
              (Ok None)) as ((_ & _ & _ & Hputs) & Hwf & _ & Hc & _).
  - apply Demo_loaded_wf.
  - discriminate.
  - exact E.
  - exists s'. split; [reflexivity|]. split; [exact Hc|].
    split; [rewrite Hputs; reflexivity|exact Hwf].
Defined.

Lemma PutBucket_failure_keeps_index_witness :
  exists s',
    PutBucket (Some 1%positive) (Demo.loaded Demo.broken_disk None)
    = Some (Some "failed to persist packed storage entry: i/o timeout", s') /\
    bucketsCache s' = {["61" := 1%positive]} /\
    bucket_data s' = Some ∅.
Proof.
  destruct (PutBucket (Some 1%positive) (Demo.loaded Demo.broken_disk None))
    as [[r s']|] eqn:E; [|vm_compute in E; discriminate].
  assert (Hr : r = Some "failed to persist packed storage entry: i/o timeout")
    by (vm_compute in E; inversion E; reflexivity).
  subst r.
  destruct (PutBucket_failure_keeps_index (Some 1%positive)
              (Demo.loaded Demo.broken_disk None) s' _ E) as (Hc & _ & _ & Hd).
  exists s'. split; [reflexivity|]. split; [exact Hc|exact Hd].
Defined.

Lemma PutBucket_then_GetBucket_witness :
  exists s' b,
    PutBucket (Some 1%positive) (Demo.loaded Demo.reliable None) = Some (None, s') /\
    objects s' !! 1%positive = Some b /\
    GetBucket (Key b) false s' = Some (Ok (Some 1%positive), s').
Proof.
  destruct (PutBucket (Some 1%positive) (Demo.loaded Demo.reliable None))
    as [[r s']|] eqn:E; [|vm_compute in E; discriminate].
  assert (Hr : r = None) by (vm_compute in E; inversion E; reflexivity).
  subst r.
  destruct (PutBucket_then_GetBucket 1%positive
              (Demo.loaded Demo.reliable None) s' E) as (b & Hb & _ & _ & Hget).
  exists s', b. split; [reflexivity|]. split; [exact Hb|exact Hget].
Defined.

Lemma PutBucket_nil_outcomes_witness :
  exists s',
    PutBucket (Some 1%positive) (Demo.loaded Demo.too_small (Some ∅))
    = Some (None, s') /\
    bucket_data s' = Some ∅.
Proof.
  destruct (PutBucket (Some 1%positive) (Demo.loaded Demo.too_small (Some ∅)))
    as [[r s']|] eqn:E; [|vm_compute in E; discriminate].
  assert (Hr : r = None) by (vm_compute in E; inversion E; reflexivity).
  subst r.
  destruct (PutBucket_nil_outcomes 1%positive
              (Demo.loaded Demo.too_small (Some ∅)) s'
              (mkBucket "61" {["alice" := Some (mkAny "t" [Byte.x6f])]} (Some ∅)))
    as [(data & _ & Hp & _)|(Hd & _)].
  - discriminate.
  - reflexivity.
  - exact E.
  - exfalso. vm_compute in E. inversion E; subst s'; clear E.
    vm_compute in Hp. discriminate.
  - exists s'. split; [reflexivity|exact Hd].
Defined.

Lemma DeleteBucket_spec_witness :
  exists s',
    DeleteBucket "61" (Demo.loaded Demo.reliable None) = Some (None, s') /\
    bucketsCache s' = ∅ /\
    persisted s' "61" = None /\
    objects s' = objects (Demo.loaded Demo.reliable None).
Proof.
  destruct (DeleteBucket "61" (Demo.loaded Demo.reliable None))
    as [[r s']|] eqn:E; [|vm_compute in E; discriminate].
  assert (Hr : r = None) by (vm_compute in E; inversion E; reflexivity).
  subst r.
  destruct (DeleteBucket_spec "61" (Demo.loaded Demo.reliable None) s' None)
    as (Ho & _ & _ & Hp & _ & Hc).
  - discriminate.
  - exact E.
  - exists s'. split; [reflexivity|]. split; [|split; [exact Hp|exact Ho]].
    rewrite Hc. vm_compute. reflexivity.
Defined.

Lemma api_keeps_wellformed_witness :
  exists s',
    api_run [ApiItem (CallPutItem (Some Demo.alice)); ApiGetBucket "61" true;
             ApiPutBucket (Some 2%positive); ApiDeleteBucket "61"]
      (Demo.packer Demo.reliable) = Some (tt, s') /\
    cache_wf s' /\ queue_wf s'.
Proof.
  destruct (api_run [ApiItem (CallPutItem (Some Demo.alice)); ApiGetBucket "61" true;
                     ApiPutBucket (Some 2%positive); ApiDeleteBucket "61"]
              (Demo.packer Demo.reliable)) as [[[] s']|] eqn:E;
    [|vm_compute in E; discriminate].
  exists s'. split; [reflexivity|].
  refine (api_keeps_wellformed _ tt (Demo.packer Demo.reliable) s' _ _ E).
  - apply empty_cache_wf. reflexivity.
  - apply empty_queue_wf. reflexivity.
Defined.

Lemma NewStoragePackerV2_ok_witness :
  exists p c',
    NewStoragePackerV2 (Demo.fresh_config Demo.reliable 0 0) = (Ok p, c') /\
    BaseBucketBits (config p) = 8 /\ BucketShardBits (config p) = 4 /\
    bucketsCache p = ∅ /\ queuedBuckets p = ∅ /\ cache_wf p /\ queue_wf p.
Proof.
  destruct (NewStoragePackerV2 (Demo.fresh_config Demo.reliable 0 0))
    as [r c'] eqn:E.
  destruct r as [p|e]; [|vm_compute in E; discriminate].
  destruct (NewStoragePackerV2_ok _ _ _ E)
    as (_ & Hc & Hq & _ & _ & _ & _ & _ & _ & Hwf & Hqwf).
  exists p, c'. split; [reflexivity|].
  split; [vm_compute in E; inversion E; reflexivity|].
  split; [vm_compute in E; inversion E; reflexivity|].
  auto.
Defined.

Lemma NewStoragePackerV2_parameters_witness :
  exists p c',
    NewStoragePackerV2
      (mkConfig (Some (Demo.empty_view Demo.reliable))
         (Some (mkStorageView "" {["config" := [Byte.x10]]} [] Demo.reliable)) 8 0)
    = (Ok p, c') /\
    BaseBucketBits (config p) = 16 /\ BucketShardBits (config p) = 4.
Proof.
  destruct (NewStoragePackerV2
              (mkConfig (Some (Demo.empty_view Demo.reliable))
                 (Some (mkStorageView "" {["config" := [Byte.x10]]} [] Demo.reliable))
                 8 0)) as [r c'] eqn:E.
  destruct r as [p|e]; [|vm_compute in E; discriminate].
  destruct (NewStoragePackerV2_parameters
              (mkConfig (Some (Demo.empty_view Demo.reliable))
                 (Some (mkStorageView "" {["config" := [Byte.x10]]} [] Demo.reliable))
                 8 0) c' p
              (mkStorageView "" {["config" := [Byte.x10]]} [] Demo.reliable)
              eq_refl E) as (Hshard & Hbase).
  exists p, c'. split; [reflexivity|]. split.
  - vm_compute in Hbase. injection Hbase as Hbase. symmetry. exact Hbase.
  - rewrite Hshard. reflexivity.
Defined.

Lemma NewStoragePackerV2_accepts_iff_witness :
  (exists p c', NewStoragePackerV2 (Demo.fresh_config Demo.reliable 12 0) = (Ok p, c')) /\
  ~ (exists p c', NewStoragePackerV2 (Demo.fresh_config Demo.reliable 6 0) = (Ok p, c')) /\
  ~ (exists p c', NewStoragePackerV2 (Demo.fresh_config Demo.reliable (-4) 0) = (Ok p, c')).
Proof.
  split; [|split].
  - apply (NewStoragePackerV2_accepts_iff (Demo.fresh_config Demo.reliable 12 0)
             (Demo.empty_view Demo.reliable) (Demo.empty_view Demo.reliable));
      try reflexivity.
    vm_compute. repeat split; discriminate.
  - intros H.
    apply (NewStoragePackerV2_accepts_iff (Demo.fresh_config Demo.reliable 6 0)
             (Demo.empty_view Demo.reliable) (Demo.empty_view Demo.reliable))
      in H as (H4 & _); try reflexivity.
    vm_compute in H4. discriminate.
  - intros H.
    apply (NewStoragePackerV2_accepts_iff (Demo.fresh_config Demo.reliable (-4) 0)
             (Demo.empty_view Demo.reliable) (Demo.empty_view Demo.reliable))
      in H as (_ & Hge & _); try reflexivity.
    vm_compute in Hge. apply Hge. reflexivity.
Defined.

Lemma NewStoragePackerV2_nests_prefix_witness :
  exists p c' p2 c'' v,
    NewStoragePackerV2 (Demo.fresh_config Demo.reliable 8 4) = (Ok p, c') /\
    NewStoragePackerV2 c' = (Ok p2, c'') /\
    BucketStorageView (config p2) = Some v /\
    sv_prefix v = "v2/v2/".
Proof.
  destruct (NewStoragePackerV2 (Demo.fresh_config Demo.reliable 8 4))
    as [r c'] eqn:E.
  destruct r as [p|e]; [|vm_compute in E; discriminate].
  destruct (NewStoragePackerV2 c') as [r2 c''] eqn:E2.
  destruct (NewStoragePackerV2_nests_prefix
              (Demo.fresh_config Demo.reliable 8 4) c' c''
              (Demo.empty_view Demo.reliable) (Ok p) r2 eq_refl E E2)
    as (_ & Hv2 & Hpre).
  assert (Hc' : c' = mkConfig (Some (SubView (Demo.empty_view Demo.reliable) "v2/"))
                       (Some (sv_called (OpGet "config") (Demo.empty_view Demo.reliable)))
                       8 4)
    by (vm_compute in E; inversion E; reflexivity).
  destruct r2 as [p2|e]; [|subst c'; vm_compute in E2; discriminate].
  assert (Hp2 : config p2 = c'')
    by (subst c'; vm_compute in E2; inversion E2; reflexivity).
  exists p, c', p2, c'', (SubView (SubView (Demo.empty_view Demo.reliable) "v2/") "v2/").
  split; [reflexivity|]. split; [exact E2|].
  rewrite Hp2. split; [exact Hv2|]. rewrite (Hpre _ Hv2). reflexivity.
Defined.

Lemma oversized_base_bits_panic_witness :
  exists p c',
    NewStoragePackerV2 (Demo.fresh_config Demo.reliable 260 4) = (Ok p, c') /\
    PutItem (Some Demo.alice) p = None /\
    GetItem "alice" p = None /\
    DeleteItem "alice" p = None.
Proof.
  destruct (NewStoragePackerV2 (Demo.fresh_config Demo.reliable 260 4))
    as [r c'] eqn:E.
  destruct r as [p|e]; [|vm_compute in E; discriminate].
  destruct (oversized_base_bits_panic
              (Demo.fresh_config Demo.reliable 260 4) c' p "alice"
              (Message Demo.alice) E) as (_ & Hget & Hput & Hdel).
  - vm_compute in E. inversion E. reflexivity.
  - reflexivity.
  - discriminate.
  - exists p, c'. auto.
Defined.

Lemma BucketKeyHashByItemID_prefix_witness :
  BucketKeyHashByItemID "alice" (Demo.loaded Demo.reliable None)
  = Some ("61", Demo.loaded Demo.reliable None) /\
  BucketKeyHashByItemID "bob" (Demo.loaded Demo.reliable None)
  = Some ("62", Demo.loaded Demo.reliable None).
Proof.
  split.
  - destruct (BucketKeyHashByItemID_prefix (Demo.loaded Demo.reliable None) "alice")
      as (n & _ & Hrun & Hk).
    + reflexivity.
    + apply Demo_loaded_wf.
    + simpl. lia.
    + assert (Hlp : LongestPrefix (bucketsCache (Demo.loaded Demo.reliable None))
                      (hexVal_of "alice") = Some ("61", 1%positive))
        by (vm_compute; reflexivity).
      rewrite Hlp in Hk. rewrite Hk in Hrun. exact Hrun.
  - destruct (BucketKeyHashByItemID_prefix (Demo.loaded Demo.reliable None) "bob")
      as (n & _ & Hrun & Hk).
    + reflexivity.
    + apply Demo_loaded_wf.
    + simpl. lia.
    + assert (Hlp : LongestPrefix (bucketsCache (Demo.loaded Demo.reliable None))
                      (hexVal_of "bob") = None)
        by (vm_compute; reflexivity).
      rewrite Hlp in Hk. subst n. exact Hrun.
Defined.

Lemma upsert_spec_witness :
  exists s' b',
    upsert (Some 1%positive) (Some Demo.bob) (Demo.loaded Demo.reliable None)
    = Some (None, s') /\
    objects s' !! 1%positive = Some b' /\
    ItemMap b' !! "bob" = Some (Message Demo.bob) /\
    ItemMap b' !! "alice" = Some (Message Demo.alice) /\
    Key b' = "61".
Proof.
  destruct (upsert (Some 1%positive) (Some Demo.bob) (Demo.loaded Demo.reliable None))
    as [[r s']|] eqn:E; [|vm_compute in E; discriminate].
  destruct (upsert_spec 1%positive Demo.bob (Demo.loaded Demo.reliable None) s'
              (mkBucket "61" {["alice" := Some (mkAny "t" [Byte.x6f])]} None) r
              eq_refl E) as (_ & Hok).
  destruct Hok as (-> & (b' & Hb' & Hnew & Hold & Hk & _) & _); [discriminate|].
  exists s', b'. split; [reflexivity|]. split; [exact Hb'|].
  split; [exact Hnew|]. split; [|exact Hk].
  rewrite (Hold "alice") by discriminate. reflexivity.
Defined.

Lemma FlushQueue_in_queue_mode_witness :
  exists s',
    FlushQueue (with_queueMode 1 (Demo.queued Demo.reliable)) = Some (None, s') /\
    queuedBuckets s' = ∅ /\
    persisted s' "61" = None.
Proof.
  destruct (FlushQueue (with_queueMode 1 (Demo.queued Demo.reliable)))
    as [[r s']|] eqn:E; [|vm_compute in E; discriminate].
  destruct (FlushQueue_in_queue_mode
              (with_queueMode 1 (Demo.queued Demo.reliable)) s' r)
    as (-> & Hq & Hcfg & _).
  - reflexivity.
  - exact (Demo_queued_wf Demo.reliable).
  - exact E.
  - exists s'. split; [reflexivity|]. split; [exact Hq|].
    unfold persisted. rewrite Hcfg. reflexivity.
Defined.

Lemma other_items_untouched_witness :
  exists r s',
    PutItem (Some Demo.bob) (Demo.loaded Demo.broken_disk None) = Some (r, s') /\
    GetItem "alice" s' = Some (Ok (Some Demo.alice), s').
Proof.
  destruct (PutItem (Some Demo.bob) (Demo.loaded Demo.broken_disk None))
    as [[r s']|] eqn:E; [|vm_compute in E; discriminate].
  exists r, s'. split; [reflexivity|].
  apply (other_items_untouched (Demo.loaded Demo.broken_disk None) s' "alice"
           (Message Demo.alice) Demo.bob "" r).
  - apply Demo_loaded_wf.
  - split; [discriminate|]. exists "61", 1%positive. eexists.
    split; [vm_compute; reflexivity|]. split; reflexivity.
  - left. split; [discriminate|exact E].
Defined.

Lemma GetItem_read_only_witness :
  exists e s',
    GetItem "alice"
      (mkPacker
         (mkConfig (Some (mkStorageView "v2/" ∅ [] (fun _ _ => Some "unreachable")))
            None 8 4) ∅ 0 ∅ ∅)
    = Some (Err e, s') /\
    bucketsCache s' = ∅ /\ objects s' = ∅ /\
    bucket_data s' = Some ∅ /\ bucket_puts s' = Some [].
Proof.
  destruct (GetItem "alice"
              (mkPacker
                 (mkConfig
                    (Some (mkStorageView "v2/" ∅ [] (fun _ _ => Some "unreachable")))
                    None 8 4) ∅ 0 ∅ ∅))
    as [[r s']|] eqn:E; [|vm_compute in E; discriminate].
  destruct r as [x|e]; [vm_compute in E; discriminate|].
  pose proof E as E1.
  apply GetItem_read_only in E1 as ((_ & _ & Hd & Hp) & _ & Hsame);
    [|apply empty_cache_wf; reflexivity].
  destruct (Hsame e eq_refl) as [Hc Ho].
  exists e, s'. split; [reflexivity|].
  split; [exact Hc|]. split; [exact Ho|]. split; [exact Hd|exact Hp].
Defined.

Lemma session_returns_witness :
  exists answers s',
    run Demo.session (Demo.packer Demo.flaky) = Some (answers, s') /\
    length answers = 4%nat /\
    ready s'.
Proof.
  exact (session_returns Demo_hash_size Demo.session (Demo.packer Demo.flaky)
           (Demo_packer_ready Demo.flaky)).
Defined.

Lemma storeBucket_spec_witness :
  exists s' data,
    storeBucket 1%positive (Demo.loaded Demo.reliable None) = Some (None, s') /\
    persisted s' "61" = Some data /\
    queuedBuckets s' = ∅ /\
    objects s' = objects (Demo.loaded Demo.reliable None).
Proof.
  destruct (storeBucket 1%positive (Demo.loaded Demo.reliable None))
    as [[r s']|] eqn:E; [|vm_compute in E; discriminate].
  assert (Hr : r = None) by (vm_compute in E; inversion E; reflexivity).
  subst r.
  destruct (storeBucket_spec 1%positive (Demo.loaded Demo.reliable None) s' None E)
    as (Ho & _ & _ & b & Hb & _ & Hoff).
  destruct Hoff as (Hq & data & _ & Hp); [discriminate|].
  assert (Hk : Key b = "61") by (vm_compute in Hb; inversion Hb; reflexivity).
  rewrite Hk in Hp.
  exists s', data. split; [reflexivity|]. split; [exact Hp|].
  split; [exact Hq|exact Ho].
Defined.

Lemma DecodeBucket_allocates_witness :
  exists lb s',
    DecodeBucket
      (mkStorageEntry "61" (Byte.x01 :: list_byte_of_string "stale|alice"))
      (Demo.loaded Demo.reliable None) = Some (Ok lb, s') /\
    objects (Demo.loaded Demo.reliable None) !! lb = None /\
    is_Some (objects s' !! lb) /\
    bucketsCache s' = {["61" := 1%positive]} /\
    objects s' !! 1%positive
    = Some (mkBucket "61" {["alice" := Some (mkAny "t" [Byte.x6f])]} None).
Proof.
  destruct (DecodeBucket
              (mkStorageEntry "61" (Byte.x01 :: list_byte_of_string "stale|alice"))
              (Demo.loaded Demo.reliable None)) as [[r s']|] eqn:E;
    [|vm_compute in E; discriminate].
  destruct r as [lb|e]; [|vm_compute in E; discriminate].
  destruct (DecodeBucket_allocates _ _ _ _ E) as (Hc & _ & _ & _ & Hnew & Hl & Hold).
  exists lb, s'. split; [reflexivity|]. split; [exact Hnew|].
  split; [exact Hl|]. split; [exact Hc|].
  rewrite Hold; [reflexivity|].
  intros Heq. subst lb. vm_compute in Hnew. discriminate.
Defined.
